(** * hyperion: the Voronoi wrapper [hyperion_voropp_wrap]

    A shallow embedding of [src/hyperion/grid/voropp_wrap.cc] and the
    properties of its post-processing pipeline.

    Conventions of the embedding.
    - C [int] values are [Z].  In the sizer the conversion of a double to
      [int] and the addition that follows are undefined outside the range of
      a 32-bit [int]; elsewhere signed overflow is not modelled, the
      counters of the source do not approach it on arrays that fit in memory.
    - C [double] values are rationals [Q], infinities and NaN apart.  In the
      sizer, whose block counts depend on the last bit of a quotient, every
      operation rounds its exact result with the rounding [fl] of the
      machine, a parameter.  Elsewhere the operations of the source
      ([+], [-], [*], [/], [std::abs], comparisons) are their exact
      counterparts.  The draws [rand()/(RAND_MAX + 1.0)] are rationals with
      denominator [RAND_MAX + 1]; where that is a power of two (2^31 in the
      GNU C library) the folds of the sampler are exact in binary64 as well.
    - A [std::vector] is a [list]; an index outside the vector, a
      dereferenced end iterator and a read through a pointer past its array
      are [Undefined].
    - A loop whose trip count is not fixed on entry takes fuel; running out
      is the outcome [OutOfFuel], distinct from every outcome of the code.
    - The cell engine (voro++), [cbrt], the rounding [fl], [rand] and
      [RAND_MAX] are outside the repository and enter as parameters. *)

From Stdlib Require Import ZArith QArith Qabs Qround Lia Lqa.
From stdpp Require Import base list strings.

Local Open Scope Z_scope.

(** ** Outcomes of a computation *)

Inductive outcome (A : Type) : Type :=
| Done (a : A)          (* ran to completion *)
| Throw (what : string) (* a std::exception propagates *)
| Undefined             (* undefined behaviour was reached *)
| OutOfFuel.            (* the loop model ran out of fuel *)

Arguments Done {A} a.
Arguments Throw {A} what.
Arguments Undefined {A}.
Arguments OutOfFuel {A}.

Definition bind {A B} (m : outcome A) (k : A -> outcome B) : outcome B :=
  match m with
  | Done a => k a
  | Throw w => Throw w
  | Undefined => Undefined
  | OutOfFuel => OutOfFuel
  end.

Declare Scope outcome_scope.
Delimit Scope outcome_scope with outcome.
Notation "'let*' x ':=' m 'in' k" := (bind m (fun x => k))
  (at level 10, x pattern, m at level 100, k at level 200) : outcome_scope.
Local Open Scope outcome_scope.

(** ** Arrays and iterators *)

(** [arr[i]] for a vector or a pointer to [length arr] elements. *)
Definition read {A} (arr : list A) (i : Z) : outcome A :=
  if i <? 0 then Undefined
  else match arr !! Z.to_nat i with
       | Some x => Done x
       | None => Undefined
       end.

(** [std::copy(src.begin(), src.end(), buf + off)]; the destination range
    has to lie inside the buffer. *)
Definition copy_at {A} (src : list A) (off : Z) (buf : list A) : outcome (list A) :=
  if (off <? 0) || (Z.of_nat (length buf) <? off + Z.of_nat (length src)) then Undefined
  else Done (take (Z.to_nat off) buf ++ src ++
             drop (Z.to_nat off + length src) buf).

(** [std::fill(buf + first, buf + last, v)]. *)
Definition fill_at {A} (first last : Z) (v : A) (buf : list A) : outcome (list A) :=
  if last <? first then Undefined
  else copy_at (replicate (Z.to_nat (last - first)) v) first buf.

(** ** Doubles *)

Definition Qltb (x y : Q) : bool := negb (Qle_bool y x).

(** A cell of a [double] output buffer: not yet written, a finite value, or
    the quiet NaN used as padding. *)
Inductive dcell : Type :=
| Indet
| Fin (q : Q)
| NaN.

(** A cell of an [int] output buffer: not yet written, or a value. *)
Inductive icell : Type :=
| IIndet
| Int (z : Z).

(** ** Wall configurator ([add_walls], lines 76-116) *)

Inductive wall : Type :=
| wall_sphere (xc yc zc rc : Q)
| wall_cylinder (xc yc zc xa ya za rc : Q).

(** The container, as far as the wrapper drives it: the box and block grid
    it was built with, the sites put into it and the walls added to it. *)
Record container : Type := mk_container {
  con_box : Q * Q * Q * Q * Q * Q;
  con_blocks : Z * Z * Z;
  con_sites : list (Z * (Q * Q * Q));
  con_walls : list wall
}.

Definition add_wall (w : wall) (con : container) : container :=
  mk_container (con_box con) (con_blocks con) (con_sites con) (con_walls con ++ [w]).

Definition put (i : Z) (x y z : Q) (con : container) : container :=
  mk_container (con_box con) (con_blocks con)
               (con_sites con ++ [(i, (x, y, z))]) (con_walls con).

Definition sphere_nargs_msg : string :=
  "invalid number of arguments for a 'sphere' wall, exactly 4 are needed".
Definition sphere_radius_msg : string :=
  "the radius of a 'sphere' wall must be strictly positive".
Definition cylinder_nargs_msg : string :=
  "invalid number of arguments for a 'cylinder' wall, exactly 7 are needed".
Definition cylinder_radius_msg : string :=
  "the radius of a 'cylinder' wall must be strictly positive".

(** The first [if] of [add_walls]. *)
Definition add_sphere (con : container) (wall_str : string)
    (wall_args_arr : list Q) (n_wall_args : Z) : outcome container :=
  if String.eqb wall_str "sphere" then
    if negb (n_wall_args =? 4) then Throw sphere_nargs_msg
    else
      let* r := read wall_args_arr 3 in
      if Qle_bool r 0 then Throw sphere_radius_msg
      else
        let* x := read wall_args_arr 0 in
        let* y := read wall_args_arr 1 in
        let* z := read wall_args_arr 2 in
        Done (add_wall (wall_sphere x y z r) con)
  else Done con.

(** The second [if] of [add_walls]. *)
Definition add_cylinder (con : container) (wall_str : string)
    (wall_args_arr : list Q) (n_wall_args : Z) : outcome container :=
  if String.eqb wall_str "cylinder" then
    if negb (n_wall_args =? 7) then Throw cylinder_nargs_msg
    else
      let* r := read wall_args_arr 6 in
      if Qle_bool r 0 then Throw cylinder_radius_msg
      else
        let* a0 := read wall_args_arr 0 in
        let* a1 := read wall_args_arr 1 in
        let* a2 := read wall_args_arr 2 in
        let* a3 := read wall_args_arr 3 in
        let* a4 := read wall_args_arr 4 in
        let* a5 := read wall_args_arr 5 in
        Done (add_wall (wall_cylinder a0 a1 a2 a3 a4 a5 r) con)
  else Done con.

(** [add_walls]; the verbose echo writes to the diagnostic stream only. *)
Definition add_walls (con : container) (wall_str : string)
    (wall_args_arr : list Q) (n_wall_args : Z) : outcome container :=
  let* con1 := add_sphere con wall_str wall_args_arr n_wall_args in
  add_cylinder con1 wall_str wall_args_arr n_wall_args.

(** The checks of one wall kind refuse the parameters: the count differs
    from [count], or the parameter at position [radius] is at most 0. *)
Definition refused (args : list Q) (n count : Z) (radius : nat) : Prop :=
  n <> count \/ exists r, args !! radius = Some r /\ (r <= 0)%Q.

(** ** Volume of a tetrahedron ([tetra_volume], lines 119-136) *)

(** An iterator into a vector of doubles: the vector and a position. *)
Definition iter : Type := (list Q * Z)%type.

Definition iread (it : iter) (i : Z) : outcome Q := read (fst it) (snd it + i).

Definition det3 (a b c d e f g h i : Q) : Q :=
  (a * (e * i - f * h) - b * (d * i - f * g) + c * (d * h - e * g))%Q.

Definition tetra_volume (v0 v1 v2 v3 : iter) : outcome Q :=
  let* v00 := iread v0 0 in let* v01 := iread v0 1 in let* v02 := iread v0 2 in
  let* v10 := iread v1 0 in let* v11 := iread v1 1 in let* v12 := iread v1 2 in
  let* v20 := iread v2 0 in let* v21 := iread v2 1 in let* v22 := iread v2 2 in
  let* v30 := iread v3 0 in let* v31 := iread v3 1 in let* v32 := iread v3 2 in
  let a := (v10 - v00)%Q in let b := (v11 - v01)%Q in let c := (v12 - v02)%Q in
  let d := (v20 - v00)%Q in let e := (v21 - v01)%Q in let f := (v22 - v02)%Q in
  let g := (v30 - v00)%Q in let h := (v31 - v01)%Q in let i := (v32 - v02)%Q in
  Done (Qabs (det3 a b c d e f g h i) / 6)%Q.

(** ** Sampling inside a tetrahedron ([sample_point_in_tetra], lines 138-165) *)

(** The fold of lines 145-160 on the three draws: the barycentric
    coordinates [(a, s, t, u)] that weigh [p0, p1, p2, p3]. *)
Definition fold_draws (s t u : Q) : Q * Q * Q * Q :=
  let '(s, t) := if Qltb 1 (s + t) then ((1 - s)%Q, (1 - t)%Q) else (s, t) in
  let '(s, t, u) :=
    if Qltb 1 (t + u) then (s, (1 - u)%Q, (1 - s - t)%Q)
    else if Qltb 1 (s + t + u) then ((1 - t - u)%Q, t, (s + t + u - 1)%Q)
    else (s, t, u) in
  ((1 - s - t - u)%Q, s, t, u).

(** [res[i] = p0[i]*a + p1[i]*s + p2[i]*t + p3[i]*u], line 163. *)
Definition weighted (w : Q * Q * Q * Q) (p0 p1 p2 p3 : iter) (i : Z) : outcome Q :=
  let '(a, s, t, u) := w in
  let* c0 := iread p0 i in
  let* c1 := iread p1 i in
  let* c2 := iread p2 i in
  let* c3 := iread p3 i in
  Done (c0 * a + c1 * s + c2 * t + c3 * u)%Q.

(** Barycentric coordinates: each in [[0,1]], summing to 1. *)
Definition barycentric (w : Q * Q * Q * Q) : Prop :=
  let '(a, s, t, u) := w in
  (0 <= a <= 1 /\ 0 <= s <= 1 /\ 0 <= t <= 1 /\ 0 <= u <= 1 /\
   a + s + t + u == 1)%Q.

(** The source of random integers: [rand_out k] is what the [k]-th call of
    [std::rand] returns; the state is the number of calls made so far. *)
Section Sampler.

Variable RAND_MAX : Z.
Variable rand_out : nat -> Z.

Definition rand (calls : nat) : Z * nat := (rand_out calls, S calls).

(** [std::rand()/(RAND_MAX + 1.0)] *)
Definition draw (calls : nat) : Q * nat :=
  let '(r, calls) := rand calls in
  ((inject_Z r / (inject_Z RAND_MAX + 1))%Q, calls).

(** Returns the three coordinates stored to [res[0..2]]. *)
Definition sample_point_in_tetra (calls : nat) (p0 p1 p2 p3 : iter)
  : outcome ((Q * Q * Q) * nat) :=
  let '(s, calls) := draw calls in
  let '(t, calls) := draw calls in
  let '(u, calls) := draw calls in
  let w := fold_draws s t u in
  let* x := weighted w p0 p1 p2 p3 0 in
  let* y := weighted w p0 p1 p2 p3 1 in
  let* z := weighted w p0 p1 p2 p3 2 in
  Done ((x, y, z), calls).

End Sampler.

(** ** Block-grid sizer (lines 177-191) *)

Definition particle_block : Q := 5.

(** Truncation toward zero. *)
Definition trunc (x : Q) : Z := Z.quot (Qnum x) (Z.pos (Qden x)).

(** The range of [int]. *)
Definition INT_MIN : Z := -2147483648.
Definition INT_MAX : Z := 2147483647.

Definition in_int (n : Z) : bool := (INT_MIN <=? n) && (n <=? INT_MAX).

(** The conversion [(int)x] of a double: its value truncated toward zero
    when an [int] can hold that, and undefined otherwise. *)
Definition to_int (x : Q) : outcome Z :=
  if in_int (trunc x) then Done (trunc x) else Undefined.

(** [a + b] on [int]; an overflow is undefined. *)
Definition int_add (a b : Z) : outcome Z :=
  if in_int (a + b) then Done (a + b) else Undefined.

Section Sizer.

(** The C library's cube root. *)
Variable cbrt : Q -> Q.

(** The rounding of a real number to a double: a binary64 operation returns
    its exact result rounded. *)
Variable fl : Q -> Q.

Definition fsub (a b : Q) : Q := fl (a - b).
Definition fmul (a b : Q) : Q := fl (a * b).
Definition fdiv (a b : Q) : Q := fl (a / b).

(** The double that lines 189-191 convert: [extent / vol_edge * block_edge]. *)
Definition block_value (extent vol_edge block_edge : Q) : Q :=
  fmul (fdiv extent vol_edge) block_edge.

(** [(int)(extent / vol_edge * block_edge) + 1].  With [vol_edge] zero the
    quotient is infinite or not a number, and its conversion undefined. *)
Definition block_count (extent vol_edge block_edge : Q) : outcome Z :=
  if Qeq_bool vol_edge 0 then Undefined
  else
    let* n := to_int (block_value extent vol_edge block_edge) in
    int_add n 1.

Definition block_edge_of (nsites : Z) : Q :=
  cbrt (fdiv (inject_Z nsites) particle_block).

Definition vol_edge_of (xmin xmax ymin ymax zmin zmax : Q) : Q :=
  cbrt (fmul (fmul (fsub xmax xmin) (fsub ymax ymin)) (fsub zmax zmin)).

Definition block_grid (xmin xmax ymin ymax zmin zmax : Q) (nsites : Z)
  : outcome (Z * Z * Z) :=
  let block_edge := block_edge_of nsites in
  let vol_edge := vol_edge_of xmin xmax ymin ymax zmin zmax in
  let* nx := block_count (fsub xmax xmin) vol_edge block_edge in
  let* ny := block_count (fsub ymax ymin) vol_edge block_edge in
  let* nz := block_count (fsub zmax zmin) vol_edge block_edge in
  Done (nx, ny, nz).

(** The sizer as the specification words it: round up, then add one. *)
Definition block_count_roundup (extent vol_edge block_edge : Q) : Z :=
  Qceiling (extent / vol_edge * block_edge) + 1.

End Sizer.

(** ** Tetra decomposition (lines 280-316) *)

Record decomp : Type := mk_decomp {
  t_vert : list Z;   (* 4 vertex indices per tetrahedron *)
  c_vol : list Q;    (* cumulative volumes *)
  vol : Q            (* running total *)
}.

Definition decomp_init : decomp := mk_decomp [] [] 0.

(** [j < f_vert.size()] with [int j]: the comparison is unsigned. *)
Definition lt_size {A} (j : Z) (v : list A) : bool :=
  (0 <=? j) && (j <? Z.of_nat (length v)).

(** [std::find(v.begin() + first, v.begin() + last, x) != v.begin() + last];
    the range has to be a range of the vector. *)
Definition find_in (v : list Z) (first last x : Z) : outcome bool :=
  if (first <? 0) || (last <? first) || (Z.of_nat (length v) <? last) then Undefined
  else Done (existsb (Z.eqb x)
               (take (Z.to_nat (last - first)) (drop (Z.to_nat first) v))).

(** One turn of the loop of lines 302-313. *)
Definition fan_step (tmp_vertices : list Q) (f_vert : list Z) (j k : Z) (d : decomp)
  : outcome decomp :=
  let* v1 := read f_vert (j + 1) in
  let* v2 := read f_vert k in
  let* v3 := read f_vert (k + 1) in
  let* t_vol := tetra_volume (tmp_vertices, 0) (tmp_vertices, v1 * 3)
                             (tmp_vertices, v2 * 3) (tmp_vertices, v3 * 3) in
  let vol' := (vol d + t_vol)%Q in
  Done (mk_decomp (t_vert d ++ [0; v1; v2; v3]) (c_vol d ++ [vol']) vol').

(** [for (k = ...; k < j + nfv; ++k)] with [n] turns left. *)
Fixpoint fan_loop (n : nat) (tmp_vertices : list Q) (f_vert : list Z) (j k : Z)
    (d : decomp) : outcome decomp :=
  match n with
  | O => Done d
  | S n' =>
      let* d' := fan_step tmp_vertices f_vert j k d in
      fan_loop n' tmp_vertices f_vert j (k + 1) d'
  end.

(** The [while] of lines 286-316. *)
Fixpoint face_walk (fuel : nat) (tmp_vertices : list Q) (f_vert : list Z) (j : Z)
    (d : decomp) : outcome decomp :=
  match fuel with
  | O => OutOfFuel
  | S fuel' =>
      if lt_size j f_vert then
        let* nfv := read f_vert j in
        let* has0 := find_in f_vert (j + 1) (j + 1 + nfv) 0 in
        if has0 then face_walk fuel' tmp_vertices f_vert (j + (nfv + 1)) d
        else
          let* d' := fan_loop (Z.to_nat (j + nfv - (j + 2)))
                              tmp_vertices f_vert j (j + 2) d in
          face_walk fuel' tmp_vertices f_vert (j + (nfv + 1)) d'
      else Done d
  end.

(** The decomposition as the specification words it: a cell's faces, each a
    list of vertex indices; the retained ones; the fan of one face. *)
Definition encode_faces (faces : list (list Z)) : list Z :=
  concat (map (fun face => Z.of_nat (length face) :: face) faces).

Definition has_vertex0 (face : list Z) : bool := existsb (Z.eqb 0) face.

Definition retained (faces : list (list Z)) : list (list Z) :=
  filter (fun face => has_vertex0 face = false) faces.

(** [(0, face[0], face[i], face[i+1])] *)
Definition fan_tetra (face : list Z) (i : nat) : list Z :=
  [0; nth 0 face 0; nth i face 0; nth (S i) face 0].

(** The tetrahedra of one face, for [i = 1 .. k-2]. *)
Definition fan (face : list Z) : list (list Z) :=
  map (fan_tetra face) (seq 1 (length face - 2)).

(** Coordinate [i] of vertex [v] in a vector of coordinate triplets. *)
Definition coord (verts : list Q) (v : Z) (i : nat) : Q :=
  nth (Z.to_nat (v * 3) + i) verts 0%Q.

(** The volume [tetra_volume] computes for the vertices [v0 .. v3]. *)
Definition volume_of (verts : list Q) (v0 v1 v2 v3 : Z) : Q :=
  (Qabs (det3 (coord verts v1 0 - coord verts v0 0) (coord verts v1 1 - coord verts v0 1)
              (coord verts v1 2 - coord verts v0 2)
              (coord verts v2 0 - coord verts v0 0) (coord verts v2 1 - coord verts v0 1)
              (coord verts v2 2 - coord verts v0 2)
              (coord verts v3 0 - coord verts v0 0) (coord verts v3 1 - coord verts v0 1)
              (coord verts v3 2 - coord verts v0 2)) / 6)%Q.

(** The determinant of the matrix with rows [(a b c)], [(d e f)], [(g h i)],
    by the rule of Sarrus. *)
Definition det_sarrus (a b c d e f g h i : Q) : Q :=
  (a * e * i + b * f * g + c * d * h - c * e * g - b * d * i - a * f * h)%Q.

(** The volume of a tetrahedron given by its four vertex indices. *)
Definition tetra_vol (verts : list Q) (tet : list Z) : Q :=
  volume_of verts (nth 0 tet 0) (nth 1 tet 0) (nth 2 tet 0) (nth 3 tet 0).

(** The tetrahedra of a cell, in the order of the walk. *)
Definition tetrahedra (faces : list (list Z)) : list (list Z) :=
  concat (map fan (retained faces)).

(** Cumulative sums in emission order, from the running total [acc]. *)
Fixpoint running_sums (acc : Q) (vols : list Q) : list Q :=
  match vols with
  | [] => []
  | v :: rest => (acc + v)%Q :: running_sums (acc + v)%Q rest
  end.

Definition Qsum (l : list Q) : Q := fold_right Qplus 0%Q l.

Definition nondecreasing (l : list Q) : Prop :=
  forall (i j : nat) (x y : Q),
    (i <= j)%nat -> l !! i = Some x -> l !! j = Some y -> (x <= y)%Q.

(** One emission, lines 303-312, and the emissions of a list of tetrahedra. *)
Definition push (verts : list Q) (d : decomp) (tet : list Z) : decomp :=
  let vol' := (vol d + tetra_vol verts tet)%Q in
  mk_decomp (t_vert d ++ tet) (c_vol d ++ [vol']) vol'.

Definition emit (verts : list Q) (tets : list (list Z)) (d : decomp) : decomp :=
  fold_left (push verts) tets d.

(** The vertex index [v] has its three coordinates in the vector. *)
Definition valid_vertex (verts : list Q) (v : Z) : bool :=
  (0 <=? v) && (v * 3 + 3 <=? Z.of_nat (length verts)).

(** A cell whose faces name vertices of the cell, vertex 0 among them. *)
Definition valid_cell (verts : list Q) (faces : list (list Z)) : bool :=
  valid_vertex verts 0 && forallb (forallb (valid_vertex verts)) faces.

(** ** Volume-proportional sampling (lines 319-334) *)

(** [std::upper_bound] on a sorted vector: the position of the first element
    greater than [r_vol]; the length of the vector stands for [end()]. *)
Fixpoint upper_bound (c_vol : list Q) (r_vol : Q) : nat :=
  match c_vol with
  | [] => O
  | x :: rest => if Qltb r_vol x then O else S (upper_bound rest r_vol)
  end.

(** A pointer handed out by [malloc]. *)
Inductive ptr (A : Type) : Type :=
| NULL
| Buf (cells : list A).

Arguments NULL {A}.
Arguments Buf {A} cells.

(** Storing through a pointer. *)
Definition store_at {A} (src : list A) (off : Z) (p : ptr A) : outcome (ptr A) :=
  match p with
  | NULL => Undefined
  | Buf cells => let* cells' := copy_at src off cells in Done (Buf cells')
  end.

Section Sampling.

Variable RAND_MAX : Z.
Variable rand_out : nat -> Z.

(** [c_vol.back()] *)
Definition back (c_vol : list Q) : outcome Q :=
  match last c_vol with
  | Some x => Done x
  | None => Undefined
  end.

(** The loop of lines 320-334; [i] is the number of samples stored so far. *)
Fixpoint sample_loop (fuel : nat) (tmp_vertices : list Q) (d : decomp)
    (c_factor : Q) (idx n_samples i : Z) (calls : nat) (spoints : ptr dcell)
  : outcome (ptr dcell * nat) :=
  match fuel with
  | O => OutOfFuel
  | S fuel' =>
      if i <? n_samples then
        let '(r, calls) := rand rand_out calls in
        let r_vol := (inject_Z r * c_factor)%Q in
        let t_idx := upper_bound (c_vol d) r_vol in
        if (t_idx =? length (c_vol d))%nat then
          sample_loop fuel' tmp_vertices d c_factor idx n_samples i calls spoints
        else
          let t_it := Z.of_nat t_idx * 4 in
          let* v0 := read (t_vert d) t_it in
          let* v1 := read (t_vert d) (t_it + 1) in
          let* v2 := read (t_vert d) (t_it + 2) in
          let* v3 := read (t_vert d) (t_it + 3) in
          let* res :=
            sample_point_in_tetra RAND_MAX rand_out calls
              (tmp_vertices, v0 * 3) (tmp_vertices, v1 * 3)
              (tmp_vertices, v2 * 3) (tmp_vertices, v3 * 3) in
          let '((x, y, z), calls) := res in
          let* spoints := store_at [Fin x; Fin y; Fin z]
                                   (idx * n_samples * 3 + i * 3) spoints in
          sample_loop fuel' tmp_vertices d c_factor idx n_samples (i + 1) calls spoints
      else Done (spoints, calls)
  end.

(** Lines 280-334 for one cell: decompose, then sample. *)
Definition sample_cell (fuel : nat) (tmp_vertices : list Q) (f_vert : list Z)
    (idx n_samples : Z) (calls : nat) (spoints : ptr dcell)
  : outcome (ptr dcell * nat) :=
  let* d := face_walk fuel tmp_vertices f_vert 0 decomp_init in
  let* total := back (c_vol d) in
  let c_factor := (total / (inject_Z RAND_MAX + 1))%Q in
  sample_loop fuel tmp_vertices d c_factor idx n_samples 0 calls spoints.

End Sampling.

(** ** Bounding-box reducer (lines 259-274) *)

Definition bb_min1 (v m : Q) : Q := if Qltb v m then v else m.
Definition bb_max1 (v m : Q) : Q := if Qltb m v then v else m.

(** [for (i = ...; i < size / 3; ++i)] with [n] turns left. *)
Fixpoint bb_loop (n : nat) (tmp_vertices : list Q) (i : Z)
    (tmp_min tmp_max : Q * Q * Q) : outcome ((Q * Q * Q) * (Q * Q * Q)) :=
  match n with
  | O => Done (tmp_min, tmp_max)
  | S n' =>
      let* x := read tmp_vertices (i * 3) in
      let* y := read tmp_vertices (i * 3 + 1) in
      let* z := read tmp_vertices (i * 3 + 2) in
      let '(mx, my, mz) := tmp_min in
      let '(Mx, My, Mz) := tmp_max in
      bb_loop n' tmp_vertices (i + 1)
              (bb_min1 x mx, bb_min1 y my, bb_min1 z mz)
              (bb_max1 x Mx, bb_max1 y My, bb_max1 z Mz)
  end.

Definition bounding_box (tmp_vertices : list Q)
  : outcome ((Q * Q * Q) * (Q * Q * Q)) :=
  let* x := read tmp_vertices 0 in
  let* y := read tmp_vertices 1 in
  let* z := read tmp_vertices 2 in
  bb_loop (Z.to_nat (Z.of_nat (length tmp_vertices) / 3 - 1)) tmp_vertices 1
          (x, y, z) (x, y, z).

(** ** Neighbour symmetrizer (lines 341-348) *)

(** [v[i] = x] on a vector. *)
Definition assign {A} (v : list A) (i : Z) (x : A) : outcome (list A) :=
  if lt_size i v then Done (<[Z.to_nat i := x]> v) else Undefined.

(** The body of the inner loop, lines 344-346. *)
Definition sym_step (n_list : list (list Z)) (idx j : Z) : outcome (list (list Z)) :=
  let* row := read n_list idx in
  let* b := read row j in
  if 0 <=? b then
    let* other := read n_list b in
    if existsb (Z.eqb idx) other then Done n_list
    else assign n_list b (other ++ [idx])
  else Done n_list.

(** [for (j = 0u; j < n_list[idx].size(); ++j)]: the bound is read again at
    every turn. *)
Fixpoint sym_row (fuel : nat) (n_list : list (list Z)) (idx j : Z)
  : outcome (list (list Z)) :=
  match fuel with
  | O => OutOfFuel
  | S fuel' =>
      let* row := read n_list idx in
      if j <? Z.of_nat (length row) then
        let* n_list' := sym_step n_list idx j in
        sym_row fuel' n_list' idx (j + 1)
      else Done n_list
  end.

(** [for (idx = ...; idx < nsites; ++idx)] with [n] turns left. *)
Fixpoint sym_loop (n : nat) (fuel : nat) (n_list : list (list Z)) (idx : Z)
  : outcome (list (list Z)) :=
  match n with
  | O => Done n_list
  | S n' =>
      let* n_list' := sym_row fuel n_list idx 0 in
      sym_loop n' fuel n_list' (idx + 1)
  end.

Definition symmetrize (fuel : nat) (nsites : Z) (n_list : list (list Z))
  : outcome (list (list Z)) :=
  sym_loop (Z.to_nat nsites) fuel n_list 0.

(** [b] is in the neighbour list of site [a]. *)
Definition neighbor (n_list : list (list Z)) (a : nat) (b : Z) : Prop :=
  exists row, n_list !! a = Some row /\ b ∈ row.

(** Every entry of the neighbour lists that is not a wall marker is the id
    of a site. *)
Definition site_ids (n_list : list (list Z)) : bool :=
  forallb (forallb (fun b => b <? Z.of_nat (length n_list))) n_list.

(** ** Ragged-to-dense packer (lines 350-377) *)

(** [std::max_element(v.begin(), v.end(), size_cmp)->size()]: the first
    largest element; on an empty range the iterator returned is [end()]. *)
Definition max_element {A} (v : list (list A)) : option (list A) :=
  match v with
  | [] => None
  | x :: rest =>
      Some (fold_left (fun result y =>
                         if (length result <? length y)%nat then y else result)
                      rest x)
  end.

Definition max_size {A} (v : list (list A)) : outcome Z :=
  match max_element v with
  | Some x => Done (Z.of_nat (length x))
  | None => Undefined
  end.

(** [malloc(sizeof(T) * n)].  The size is computed in [size_t]: a negative
    count wraps around to a request of more than half the address space,
    which no allocator grants, and the null pointer is returned.  Counts
    whose size in bytes does not fit [size_t], and the exhaustion of memory
    by a count that is not negative, are not modelled. *)
Definition malloc {A} (indet : A) (n : Z) : ptr A :=
  if n <? 0 then NULL else Buf (replicate (Z.to_nat n) indet).

Definition fill_ptr {A} (first last : Z) (v : A) (p : ptr A) : outcome (ptr A) :=
  match p with
  | NULL => Undefined
  | Buf cells => let* cells' := fill_at first last v cells in Done (Buf cells')
  end.

(** The filling loops of lines 357-362 and 372-377, [n] turns left; [inj]
    is the store of a value into a cell of the buffer. *)
Fixpoint pack_loop {A B} (n : nat) (inj : A -> B) (pad : B) (max_n : Z)
    (rows : list (list A)) (idx : Z) (buf : ptr B) : outcome (ptr B) :=
  match n with
  | O => Done buf
  | S n' =>
      let off := max_n * idx in
      let* row := read rows idx in
      let* buf := store_at (map inj row) off buf in
      let* buf := fill_ptr (off + Z.of_nat (length row)) (off + max_n) pad buf in
      pack_loop n' inj pad max_n rows (idx + 1) buf
  end.

Definition sentinel : Z := -10.

Definition pack_neighbours (nsites max_nn : Z) (n_list : list (list Z))
  : outcome (ptr icell) :=
  pack_loop (Z.to_nat nsites) Int (Int sentinel) max_nn n_list 0
            (malloc IIndet (nsites * max_nn)).

Definition pack_vertices (nsites max_nv : Z) (vertices_list : list (list Q))
  : outcome (ptr dcell) :=
  pack_loop (Z.to_nat nsites) Fin NaN max_nv vertices_list 0
            (malloc Indet (nsites * max_nv)).

(** Row [i] of a dense matrix of width [w]. *)
Definition row_of {A} (w : Z) (i : Z) (p : ptr A) : list A :=
  match p with
  | NULL => []
  | Buf cells => take (Z.to_nat w) (drop (Z.to_nat (w * i)) cells)
  end.

(** ** The wrapper ([hyperion_voropp_wrap], lines 168-397) *)

(** What the cell engine yields for one site, in the order of the calls of
    lines 249-284. *)
Record cell : Type := mk_cell {
  c_idx : Z;                    (* vl.pos: the id of the site *)
  c_neighbors : list Z;         (* c.neighbors *)
  c_volume : Q;                 (* c.volume *)
  c_vertices : list Q;          (* c.vertices: coordinate triplets *)
  c_face_vertices : list Z      (* c.face_vertices *)
}.

(** The arguments of the call, apart from the output pointers. *)
Record inputs : Type := mk_inputs {
  xmin : Q; xmax : Q; ymin : Q; ymax : Q; zmin : Q; zmax : Q;
  points : list Q;
  nsites : Z;
  with_vertices : bool;
  wall_str : string;
  wall_args_arr : list Q;
  n_wall_args : Z;
  with_sampling : bool;
  n_samples : Z;
  verbose : bool
}.

(** The caller's variables behind the output pointers. *)
Record outputs : Type := mk_outputs {
  neighbours : ptr icell;
  max_nn : Z;
  volumes : ptr dcell;
  bb_min : ptr dcell;
  bb_max : ptr dcell;
  vertices : ptr dcell;
  max_nv : Z;
  sample_points : ptr dcell
}.

Definition set_max_nn (v : Z) (o : outputs) : outputs :=
  mk_outputs (neighbours o) v (volumes o) (bb_min o) (bb_max o)
             (vertices o) (max_nv o) (sample_points o).

Definition set_max_nv (v : Z) (o : outputs) : outputs :=
  mk_outputs (neighbours o) (max_nn o) (volumes o) (bb_min o) (bb_max o)
             (vertices o) v (sample_points o).

Definition set_vertices (p : ptr dcell) (o : outputs) : outputs :=
  mk_outputs (neighbours o) (max_nn o) (volumes o) (bb_min o) (bb_max o)
             p (max_nv o) (sample_points o).

(** Lines 386-390. *)
Definition set_buffers (vols bb_m bb_M : ptr dcell) (neighs : ptr icell)
    (spoints : ptr dcell) (o : outputs) : outputs :=
  mk_outputs neighs (max_nn o) vols bb_m bb_M (vertices o) (max_nv o) spoints.

(** The local buffers of the call. *)
Record work : Type := mk_work {
  n_list : list (list Z);
  vertices_list : list (list Q);
  vols : ptr dcell;
  bb_m : ptr dcell;
  bb_M : ptr dcell;
  spoints : ptr dcell;
  calls : nat                   (* calls of std::rand made so far *)
}.

(** Computations that store through the output pointers: the stores made
    before an exception stay made. *)
Definition run (A : Type) : Type := outputs -> outcome A * outputs.

Definition lift {A} (m : outcome A) : run A := fun o => (m, o).

Definition store (f : outputs -> outputs) : run unit := fun o => (Done tt, f o).

Definition bind_run {A B} (m : run A) (k : A -> run B) : run B :=
  fun o =>
    match m o with
    | (Done a, o') => k a o'
    | (Throw w, o') => (Throw w, o')
    | (Undefined, o') => (Undefined, o')
    | (OutOfFuel, o') => (OutOfFuel, o')
    end.

Notation "'run*' x ':=' m 'in' k" := (bind_run m (fun x => k))
  (at level 10, x pattern, m at level 100, k at level 200) : outcome_scope.

(** What the call returns: the null pointer, or the error message. *)
Inductive retval : Type :=
| RNull
| RMessage (msg : string).

Definition dquote : string := String (Ascii.ascii_of_nat 34) EmptyString.

Definition error_message (what : string) : string :=
  ("A C++ exception was raised while calling the voro++ wrapper. The full error message is: "
   ++ dquote ++ what ++ dquote ++ ".")%string.

(** [std::vector<T> v(n)] and [v.resize(n)] on an empty vector. *)
Definition new_vector {A} (what : string) (n : Z) (x : A) : outcome (list A) :=
  if n <? 0 then Throw what else Done (replicate (Z.to_nat n) x).

(** The loop of lines 220-222, [n] turns left. *)
Fixpoint put_loop (n : nat) (points : list Q) (i : Z) (con : container)
  : outcome container :=
  match n with
  | O => Done con
  | S n' =>
      let* x := read points (i * 3) in
      let* y := read points (i * 3 + 1) in
      let* z := read points (i * 3 + 2) in
      put_loop n' points (i + 1) (put i x y z con)
  end.

Definition triple (p : Q * Q * Q) : list dcell :=
  let '(x, y, z) := p in [Fin x; Fin y; Fin z].

Section Wrapper.

Variable RAND_MAX : Z.
Variable rand_out : nat -> Z.
Variable cbrt : Q -> Q.
Variable fl : Q -> Q.

(** The engine: the cells of the container, in the order of [c_loop_all]. *)
Variable engine : container -> outcome (list cell).

(** [what()] of the exception of a vector asked for a negative size. *)
Variable length_error_what : string.

(** Lines 249-274 of the loop over the cells: the neighbours, the volume,
    the vertices and the bounding box of one cell. *)
Definition cell_geometry (inp : inputs) (c : cell) (w : work) : outcome work :=
  let idx := c_idx c in
  let* _ := if with_vertices inp then read (vertices_list w) idx else Done [] in
  let* n_list' := assign (n_list w) idx (c_neighbors c) in
  let* vols' := store_at [Fin (c_volume c)] idx (vols w) in
  let tmp_vertices := c_vertices c in
  let* vertices_list' :=
    if with_vertices inp then assign (vertices_list w) idx tmp_vertices
    else Done (vertices_list w) in
  let* bb := bounding_box tmp_vertices in
  let* bb_m' := store_at (triple (fst bb)) (idx * 3) (bb_m w) in
  let* bb_M' := store_at (triple (snd bb)) (idx * 3) (bb_M w) in
  Done (mk_work n_list' vertices_list' vols' bb_m' bb_M' (spoints w) (calls w)).

(** The body of the loop over the cells, lines 248-334. *)
Definition cell_step (fuel : nat) (inp : inputs) (c : cell) (w : work) : outcome work :=
  let* w1 := cell_geometry inp c w in
  if negb (with_sampling inp) then Done w1
  else
    let* res := sample_cell RAND_MAX rand_out fuel (c_vertices c) (c_face_vertices c)
                            (c_idx c) (n_samples inp) (calls w1) (spoints w1) in
    Done (mk_work (n_list w1) (vertices_list w1) (vols w1) (bb_m w1) (bb_M w1)
                  (fst res) (snd res)).

(** The loop of lines 246-336 over the cells the engine yields. *)
Fixpoint cells_loop (fuel : nat) (inp : inputs) (cells : list cell) (w : work)
  : outcome work :=
  match cells with
  | [] => Done w
  | c :: rest =>
      let* w' := cell_step fuel inp c w in
      cells_loop fuel inp rest w'
  end.

(** Lines 177-225: the block grid, the local buffers, the container with
    its sites and its wall. *)
Definition prepare (inp : inputs) : outcome (container * work) :=
  let* blocks := block_grid cbrt fl (xmin inp) (xmax inp) (ymin inp) (ymax inp)
                            (zmin inp) (zmax inp) (nsites inp) in
  let* n_list0 := new_vector length_error_what (nsites inp) [] in
  let* vertices_list0 :=
    if with_vertices inp then new_vector length_error_what (nsites inp) []
    else Done [] in
  let vols0 := malloc Indet (nsites inp) in
  let bb_m0 := malloc Indet (nsites inp * 3) in
  let bb_M0 := malloc Indet (nsites inp * 3) in
  let spoints0 :=
    if with_sampling inp then malloc Indet (nsites inp * n_samples inp * 3)
    else NULL in
  let con0 := mk_container (xmin inp, xmax inp, ymin inp, ymax inp, zmin inp, zmax inp)
                           blocks [] [] in
  let* con1 := put_loop (Z.to_nat (nsites inp)) (points inp) 0 con0 in
  let* con2 := add_walls con1 (wall_str inp) (wall_args_arr inp) (n_wall_args inp) in
  Done (con2, mk_work n_list0 vertices_list0 vols0 bb_m0 bb_M0 spoints0 O).

(** Lines 177-348: everything before the first store through an output
    pointer. *)
Definition compute (fuel : nat) (inp : inputs) : outcome work :=
  let* cw := prepare inp in
  let* cells := engine (fst cw) in
  let* w := cells_loop fuel inp cells (snd cw) in
  let* n_list' := symmetrize fuel (nsites inp) (n_list w) in
  Done (mk_work n_list' (vertices_list w) (vols w) (bb_m w) (bb_M w)
                (spoints w) (calls w)).

(** Lines 350-390: the packing and the stores through the output pointers. *)
Definition hand_over (inp : inputs) (w : work) : run unit :=
  run* nn := lift (max_size (n_list w)) in
  run* _ := store (set_max_nn nn) in
  run* neighs := lift (pack_neighbours (nsites inp) nn (n_list w)) in
  run* _ :=
    (if with_vertices inp then
       run* nv := lift (max_size (vertices_list w)) in
       run* _ := store (set_max_nv nv) in
       run* verts := lift (pack_vertices (nsites inp) nv (vertices_list w)) in
       store (set_vertices verts)
     else store (set_max_nv 0)) in
  store (set_buffers (vols w) (bb_m w) (bb_M w) neighs (spoints w)).

(** The body of the [try] block. *)
Definition try_block (fuel : nat) (inp : inputs) : run unit :=
  run* w := lift (compute fuel inp) in
  hand_over inp w.

(** The call: the [catch] turns an exception into the message returned. *)
Definition hyperion_voropp_wrap (fuel : nat) (inp : inputs) (o : outputs)
  : outcome retval * outputs :=
  match try_block fuel inp o with
  | (Done _, o') => (Done RNull, o')
  | (Throw what, o') => (Done (RMessage (error_message what)), o')
  | (Undefined, o') => (Undefined, o')
  | (OutOfFuel, o') => (OutOfFuel, o')
  end.

End Wrapper.

(** A computation that returns for no amount of fuel: the loop it models
    does not terminate. *)
Definition never_returns {A} (f : nat -> outcome A) : Prop :=
  forall fuel, f fuel = OutOfFuel.

(** ** Concrete inputs *)

(** An executable stand-in for the library's [cbrt], for evaluating the
    sizer: the cube root rounded toward zero to 20 binary digits, exact on
    the cubes of such numbers. *)
Fixpoint icbrt_bits (b : nat) (n r : Z) : Z :=
  let r' := if (r + 2 ^ Z.of_nat b) ^ 3 <=? n then r + 2 ^ Z.of_nat b else r in
  match b with
  | O => r'
  | S b' => icbrt_bits b' n r'
  end.

Definition icbrt (n : Z) : Z :=
  if n <=? 0 then 0 else icbrt_bits (Z.to_nat (Z.log2 n / 3 + 1)) n 0.

Definition cbrt_fix (x : Q) : Q :=
  let n := icbrt (Qfloor (Qabs x * inject_Z (2 ^ 60))) in
  (inject_Z (Z.sgn (Qnum x) * n) / inject_Z (2 ^ 20))%Q.

(** An executable stand-in for the rounding of binary64: to 53 significant
    binary digits, to nearest, ties to even; the range of the exponent is
    not bounded. *)
Definition Qshift (x : Q) (k : Z) : Q :=
  if 0 <=? k then (x * inject_Z (2 ^ k))%Q else (x / inject_Z (2 ^ (- k)))%Q.

Definition round_even (x : Q) : Z :=
  let f := Qfloor x in
  match (x - inject_Z f ?= 1 # 2)%Q with
  | Lt => f
  | Gt => f + 1
  | Eq => if Z.even f then f else f + 1
  end.

Definition fl53 (x : Q) : Q :=
  if Qeq_bool x 0 then 0%Q
  else
    let a := Qabs x in
    let e0 := Z.log2 (Qnum a) - Z.log2 (Z.pos (Qden a)) - 52 in
    let e := if Qle_bool (inject_Z (2 ^ 52)) (Qshift a (- e0)) then e0 else e0 - 1 in
    let m := Qshift (inject_Z (round_even (Qshift a (- e)))) e in
    Qred (if Qle_bool 0 x then m else - m)%Q.

(** The value of [RAND_MAX] in the GNU C library. *)
Definition RAND_MAX_glibc : Z := 2147483647.

(** A generator for the examples: a linear congruential sequence. *)
Definition rand_lcg (k : nat) : Z :=
  (1103515245 * (Z.of_nat k + 12345) + 12345) mod (RAND_MAX_glibc + 1).

(** The unit cube as a cell: vertex [4*z + 2*y + x] is the corner
    [(x, y, z)]; six square faces, three of them through vertex 0. *)
Definition cube_vertices : list Q :=
  [0; 0; 0;  1; 0; 0;  0; 1; 0;  1; 1; 0;
   0; 0; 1;  1; 0; 1;  0; 1; 1;  1; 1; 1]%Q.

Definition cube_faces : list (list Z) :=
  [[1; 3; 7; 5]; [0; 2; 3; 1]; [2; 6; 7; 3];
   [0; 1; 5; 4]; [4; 5; 7; 6]; [0; 4; 6; 2]].

Definition cube_cell (idx : Z) (neighbors : list Z) : cell :=
  mk_cell idx neighbors 1 cube_vertices (encode_faces cube_faces).

(** A cell collapsed to a point: every vertex at the origin. *)
Definition flat_vertices : list Q := replicate 24 0%Q.

Definition flat_cell (idx : Z) (neighbors : list Z) : cell :=
  mk_cell idx neighbors 0 flat_vertices (encode_faces cube_faces).

(** [what()] of the length error of the GNU C++ library. *)
Definition length_error_gnu : string :=
  "cannot create std::vector larger than max_size()".

(** Output variables the caller has not set. *)
Definition outputs0 : outputs := mk_outputs NULL 0 NULL NULL NULL NULL 0 NULL.

(** One site in the middle of the unit box, one sample asked for, and an
    engine that yields the collapsed cell for it. *)
Definition flat_inputs : inputs :=
  mk_inputs 0 1 0 1 0 1 [1 # 2; 1 # 2; 1 # 2]%Q 1 false "" [] 0 true 1 false.

Definition flat_engine (con : container) : outcome (list cell) :=
  Done [flat_cell 0 [-1; -2; -3; -4; -5; -6]].

(** Three sites whose neighbour lists have the lengths 2, 5 and 3 (walls
    are the negative markers); site 1 has a tetrahedral cell, with fewer
    vertices than the cubes of the others. *)
Definition tetra_vertices : list Q := [0; 0; 0;  1; 0; 0;  0; 1; 0;  0; 0; 1]%Q.

Definition tetra_faces : list (list Z) := [[1; 2; 3]; [0; 2; 1]; [0; 1; 3]; [0; 3; 2]].

Definition three_cells : list cell :=
  [cube_cell 0 [1; 2];
   mk_cell 1 [0; 2; -1; -2; -3] (1 # 6) tetra_vertices (encode_faces tetra_faces);
   cube_cell 2 [0; 1; -1]].

Definition three_engine (con : container) : outcome (list cell) := Done three_cells.

Definition three_inputs : inputs :=
  mk_inputs 0 3 0 1 0 1 [1 # 2; 1 # 2; 1 # 2;  3 # 2; 1 # 2; 1 # 2;  5 # 2; 1 # 2; 1 # 2]%Q
            3 true "" [] 0 false 0 false.

(** The same sites with two samples per site. *)
Definition three_inputs_sampling : inputs :=
  mk_inputs 0 3 0 1 0 1 [1 # 2; 1 # 2; 1 # 2;  3 # 2; 1 # 2; 1 # 2;  5 # 2; 1 # 2; 1 # 2]%Q
            3 true "" [] 0 true 2 false.

(** A sphere wall of radius 0. *)
Definition bad_wall_inputs : inputs :=
  mk_inputs 0 3 0 1 0 1 [1 # 2; 1 # 2; 1 # 2;  3 # 2; 1 # 2; 1 # 2;  5 # 2; 1 # 2; 1 # 2]%Q
            3 true "sphere" [0; 0; 0; 0]%Q 4 false 0 false.

(** No site at all. *)
Definition no_site_inputs : inputs :=
  mk_inputs 0 1 0 1 0 1 [] 0 true "" [] 0 false 0 false.

Definition no_site_engine (con : container) : outcome (list cell) := Done [].

(** A pointer to a buffer of [n] cells. *)
Definition is_buf {A} (p : ptr A) (n : nat) : Prop :=
  exists cells, p = Buf cells /\ length cells = n.

(** ** The owning pointer ([ptr_raii], lines 31-58) *)

(** The pointer held; [None] is the null pointer. *)
Record ptr_raii (A : Type) : Type := mk_ptr_raii { m_ptr : option A }.

Arguments mk_ptr_raii {A} m_ptr.
Arguments m_ptr {A} p.

(** [release()]: the pointer held, and the object left holding null. *)
Definition release {A} (p : ptr_raii A) : option A * ptr_raii A :=
  (m_ptr p, mk_ptr_raii None).

(** [get()] *)
Definition get {A} (p : ptr_raii A) : option A := m_ptr p.

(** The destructor: the pointers passed to [std::free]. *)
Definition destroy {A} (p : ptr_raii A) : list A :=
  match m_ptr p with
  | Some a => [a]
  | None => []
  end.

(** The calls a user can make on the object before it is destroyed. *)
Inductive raii_call : Type :=
| CallGet
| CallRelease.

(** A sequence of calls: the non-null pointers [release] handed out, and
    the object afterwards. *)
Fixpoint raii_calls {A} (calls : list raii_call) (p : ptr_raii A)
  : list A * ptr_raii A :=
  match calls with
  | [] => ([], p)
  | CallGet :: rest => raii_calls rest p
  | CallRelease :: rest =>
      let '(out, p') := release p in
      let '(outs, p'') := raii_calls rest p' in
      (match out with Some a => a :: outs | None => outs end, p'')
  end.

(** ** Coordinates of points and boxes *)

(** Coordinate [j] of a point. *)
Definition axis (p : Q * Q * Q) (j : nat) : Q :=
  let '(x, y, z) := p in
  match j with
  | O => x
  | S O => y
  | _ => z
  end.

(** The point of vertex [v] in a vector of coordinate triplets. *)
Definition point_of (verts : list Q) (v : Z) : Q * Q * Q :=
  (coord verts v 0, coord verts v 1, coord verts v 2).

(** The cell of a buffer at position [k]. *)
Definition cell_at {A} (p : ptr A) (k : nat) : option A :=
  match p with
  | NULL => None
  | Buf cells => cells !! k
  end.

(** [(lo, hi)] is the bounding box of the first [n] vertices of [verts]:
    on every axis it bounds their coordinates and each bound is the
    coordinate of one of them. *)
Definition tight_box (verts : list Q) (n : nat) (lo hi : Q * Q * Q) : Prop :=
  forall j : nat, (j < 3)%nat ->
    (forall k : nat, (k < n)%nat ->
       (axis lo j <= coord verts (Z.of_nat k) j <= axis hi j)%Q) /\
    (exists k : nat, (k < n)%nat /\ axis lo j = coord verts (Z.of_nat k) j) /\
    (exists k : nat, (k < n)%nat /\ axis hi j = coord verts (Z.of_nat k) j).

(** The sites [first .. first + n - 1] with the positions the array of
    points gives them. *)
Definition sites_of (points : list Q) (first n : nat) : list (Z * (Q * Q * Q)) :=
  map (fun i => (Z.of_nat i, point_of points (Z.of_nat i))) (seq first n).

(** The neighbour relation is symmetric on site ids. *)
Definition symmetric (n_list : list (list Z)) : Prop :=
  forall a b : nat, neighbor n_list a (Z.of_nat b) -> neighbor n_list b (Z.of_nat a).

(** Every list of [nl'] starts with the list of [nl] at the same site. *)
Definition rows_prefix (nl nl' : list (list Z)) : Prop :=
  length nl' = length nl /\
  forall (x : nat) (row : list Z),
    nl !! x = Some row -> exists added, nl' !! x = Some (row ++ added).

(** A row of a dense matrix of width [width]: the values of the list, then
    the padding. *)
Definition padded {A B} (inj : A -> B) (pad : B) (width : nat) (row : list A) : list B :=
  map inj row ++ replicate (width - length row) pad.

(** The combination of the four vertices of a tetrahedron with the weights
    [(a, s, t, u)]. *)
Definition combination (verts : list Q) (tet : list Z) (w : Q * Q * Q * Q) : Q * Q * Q :=
  let '(a, s, t, u) := w in
  let c0 j := coord verts (nth 0 tet 0) j in
  let c1 j := coord verts (nth 1 tet 0) j in
  let c2 j := coord verts (nth 2 tet 0) j in
  let c3 j := coord verts (nth 3 tet 0) j in
  ((c0 0%nat * a + c1 0%nat * s + c2 0%nat * t + c3 0%nat * u)%Q,
   (c0 1%nat * a + c1 1%nat * s + c2 1%nat * t + c3 1%nat * u)%Q,
   (c0 2%nat * a + c1 2%nat * s + c2 2%nat * t + c3 2%nat * u)%Q).

(** [p] is a point of the tetrahedron [tet]: a combination of its vertices
    with barycentric weights. *)
Definition in_tetra (verts : list Q) (tet : list Z) (p : Q * Q * Q) : Prop :=
  exists w, barycentric w /\ p = combination verts tet w.

(** Four vertex indices with coordinates in the cell. *)
Definition valid_tet (verts : list Q) (tet : list Z) : Prop :=
  length tet = 4%nat /\ forall k, (k < 4)%nat -> valid_vertex verts (nth k tet 0) = true.

(** The three cells of sample [m] of site [idx] hold the point [p]. *)
Definition sample_at (cells : list dcell) (idx n m : nat) (p : Q * Q * Q) : Prop :=
  forall j, (j < 3)%nat -> cells !! (idx * n * 3 + m * 3 + j)%nat = Some (Fin (axis p j)).

(** ** What the loop over the cells leaves in the local buffers *)

(** The local buffers hold the data of the cell [c] at the entries of its
    site: the neighbours, the volume, the vertices when they are asked for,
    and the corners of the bounding box of the vertices. *)
Definition recorded (inp : inputs) (c : cell) (w : work) : Prop :=
  let i := Z.to_nat (c_idx c) in
  n_list w !! i = Some (c_neighbors c) /\
  cell_at (vols w) i = Some (Fin (c_volume c)) /\
  (with_vertices inp = true -> vertices_list w !! i = Some (c_vertices c)) /\
  exists lo hi,
    bounding_box (c_vertices c) = Done (lo, hi) /\
    forall j, (j < 3)%nat ->
      cell_at (bb_m w) (i * 3 + j) = Some (Fin (axis lo j)) /\
      cell_at (bb_M w) (i * 3 + j) = Some (Fin (axis hi j)).

(** The entries of site [i] are the same in [w] and [w']. *)
Definition same_site (w w' : work) (i : nat) : Prop :=
  n_list w' !! i = n_list w !! i /\
  vertices_list w' !! i = vertices_list w !! i /\
  cell_at (vols w') i = cell_at (vols w) i /\
  forall j, (j < 3)%nat ->
    cell_at (bb_m w') (i * 3 + j) = cell_at (bb_m w) (i * 3 + j) /\
    cell_at (bb_M w') (i * 3 + j) = cell_at (bb_M w) (i * 3 + j).

(** ** What the symmetrizer appends *)

(** Site [a] lists [b] in the lists [raw]. *)
Definition lists (raw : list (list Z)) (a : nat) (b : Z) : bool :=
  existsb (Z.eqb b) (nth a raw []).

(** The sites the pass appends to the list of site [x] while it handles the
    sites below [k]: in increasing order, the sites that list [x] and that
    [x] does not list. *)
Definition appended (raw : list (list Z)) (x k : nat) : list Z :=
  map Z.of_nat
      (List.filter (fun a => lists raw a (Z.of_nat x) && negb (lists raw x (Z.of_nat a)))
                   (seq 0 k)).

(** What the handling of the first [j] entries of the list [rowa] of site
    [a] has appended to the list of site [x]. *)
Definition pending (raw : list (list Z)) (a : nat) (rowa : list Z) (j x : nat) : list Z :=
  if existsb (Z.eqb (Z.of_nat x)) (take j rowa) && negb (lists raw x (Z.of_nat a))
  then [Z.of_nat a] else [].

(** The lists when the pass has handled the sites below [k]. *)
Definition pass_state (raw : list (list Z)) (k : nat) (nl : list (list Z)) : Prop :=
  length nl = length raw /\
  forall x rx, raw !! x = Some rx -> nl !! x = Some (rx ++ appended raw x k).

(** The lists when the pass has handled the sites below [a] and the first
    [j] entries of the list of site [a]. *)
Definition row_state (raw : list (list Z)) (a : nat) (rowa : list Z) (j : nat)
    (nl : list (list Z)) : Prop :=
  length nl = length raw /\
  forall x rx, raw !! x = Some rx ->
    nl !! x = Some (rx ++ appended raw x a ++ pending raw a rowa j x).

(** The neighbours the engine gives for site [i]: those of the first cell
    with that id, none when there is no such cell. *)
Definition neighbours_of (cells : list cell) (i : Z) : list Z :=
  match List.find (fun c => c_idx c =? i) cells with
  | Some c => c_neighbors c
  | None => []
  end.

(** The neighbour lists after the loop over the cells, before the
    symmetrizer. *)
Definition raw_lists (cells : list cell) (nsites : Z) : list (list Z) :=
  map (fun i => neighbours_of cells (Z.of_nat i)) (seq 0 (Z.to_nat nsites)).

(** ** Invariants and tactics of the proofs *)

(** [site_ids] as a proposition. *)
Definition site_idsP (n_list : list (list Z)) : Prop :=
  forall (x : nat) (row : list Z) (v : Z),
    n_list !! x = Some row -> v ∈ row -> v < Z.of_nat (length n_list).

(** What the passes over the list of site [a] may do to the lists: keep
    their number, leave the list of [a] alone, and append [a] to the list of
    a site [x] that is in the list of [a]. *)
Definition grows (a : nat) (nl nl' : list (list Z)) : Prop :=
  length nl' = length nl /\
  nl' !! a = nl !! a /\
  forall (x : nat) (row : list Z),
    nl !! x = Some row ->
    exists added,
      nl' !! x = Some (row ++ added) /\
      forall y, y ∈ added -> y = Z.of_nat a /\ neighbor nl a (Z.of_nat x).

(** The sites below [k] have their neighbours' lists repaired. *)
Definition repaired (k : nat) (nl : list (list Z)) : Prop :=
  forall a b : nat,
    (a < k)%nat -> neighbor nl a (Z.of_nat b) -> neighbor nl b (Z.of_nat a).

(** What the whole pass may do to the lists: keep their number and append
    site ids. *)
Definition extends (nl nl' : list (list Z)) : Prop :=
  length nl' = length nl /\
  forall (x : nat) (row : list Z),
    nl !! x = Some row ->
    exists added,
      nl' !! x = Some (row ++ added) /\
      forall y, y ∈ added -> 0 <= y < Z.of_nat (length nl).

(** What [malloc] hands out for the count [n], with its size kept: the null
    pointer for a negative count, a buffer of [n] cells otherwise. *)
Definition allocated {A} (p : ptr A) (n : Z) : Prop :=
  if n <? 0 then p = NULL else is_buf p (Z.to_nat n).

(** The local buffers handed over keep the sizes they were allocated with;
    the sample buffer is the null pointer when sampling is not asked for,
    and when the number of samples is negative (with at least one site). *)
Definition buffers_of (inp : inputs) (w : work) : Prop :=
  is_buf (vols w) (Z.to_nat (nsites inp)) /\
  is_buf (bb_m w) (Z.to_nat (nsites inp * 3)) /\
  is_buf (bb_M w) (Z.to_nat (nsites inp * 3)) /\
  (if with_sampling inp
   then allocated (spoints w) (nsites inp * n_samples inp * 3)
   else spoints w = NULL).

(** Reads at literal positions. *)
Ltac literal_reads :=
  unfold read; simpl Z.ltb; cbv iota;
  repeat match goal with
         | |- context [Z.to_nat ?z] =>
             let n := eval compute in (Z.to_nat z) in
             change (Z.to_nat z) with n
         end.

(** * Properties *)

(** ** Outcomes, reads and comparisons *)

Lemma Qltb_lt (x y : Q) : Qltb x y = true <-> (x < y)%Q.
Proof.
  unfold Qltb. rewrite negb_true_iff, <- not_true_iff_false, Qle_bool_iff.
  split; [apply Qnot_le_lt | apply Qlt_not_le].
Qed.

Lemma Qltb_ge (x y : Q) : Qltb x y = false <-> (y <= x)%Q.
Proof.
  unfold Qltb. rewrite negb_false_iff. apply Qle_bool_iff.
Qed.

Lemma read_Done {A} (arr : list A) (i : Z) (x : A) :
  read arr i = Done x <-> 0 <= i /\ arr !! Z.to_nat i = Some x.
Proof.
  unfold read. destruct (Z.ltb_spec i 0).
  - split; [discriminate | lia].
  - destruct (arr !! Z.to_nat i) eqn:E; split; intros H1; try discriminate.
    + injection H1 as ->. auto.
    + destruct H1 as [_ H1]. congruence.
    + destruct H1 as [_ H1]. discriminate.
Qed.

Lemma read_nat {A} (arr : list A) (n : nat) (x : A) :
  arr !! n = Some x -> read arr (Z.of_nat n) = Done x.
Proof.
  intros H. apply read_Done. rewrite Nat2Z.id. split; [lia | exact H].
Qed.

Lemma read_cases {A} (arr : list A) (i : Z) :
  (exists x, read arr i = Done x) \/ read arr i = Undefined.
Proof.
  unfold read. destruct (i <? 0); [now right |].
  destruct (arr !! Z.to_nat i); [left; eauto | now right].
Qed.

Lemma bind_Done {A B} (m : outcome A) (k : A -> outcome B) (b : B) :
  bind m k = Done b <-> exists a, m = Done a /\ k a = Done b.
Proof.
  destruct m; simpl; split; intros H; try discriminate; eauto.
  - destruct H as [a' [[= ->] H]]. exact H.
  - destruct H as [a' [[=] _]].
  - destruct H as [a' [[=] _]].
  - destruct H as [a' [[=] _]].
Qed.

(** Inversion of a bind that completed. *)
Ltac inv_bind H :=
  let x := fresh "x" in
  let Hx := fresh "H" x in
  apply bind_Done in H as (x & Hx & H).

(** ** Wall configurator *)

Lemma add_sphere_other con tag args n :
  tag <> "sphere" -> add_sphere con tag args n = Done con.
Proof.
  intros H. unfold add_sphere.
  destruct (String.eqb_spec tag "sphere"); [contradiction | reflexivity].
Qed.

Lemma add_cylinder_other con tag args n :
  tag <> "cylinder" -> add_cylinder con tag args n = Done con.
Proof.
  intros H. unfold add_cylinder.
  destruct (String.eqb_spec tag "cylinder"); [contradiction | reflexivity].
Qed.

Lemma add_sphere_throws con args n :
  (exists what, add_sphere con "sphere" args n = Throw what) <-> refused args n 4 3%nat.
Proof.
  unfold add_sphere, refused. simpl String.eqb. cbv iota.
  destruct (Z.eqb_spec n 4) as [-> | Hn]; simpl negb; cbv iota.
  - literal_reads.
    destruct (args !! 3%nat) as [r |] eqn:E3; simpl.
    + destruct (Qle_bool r 0) eqn:Er.
      * split; [| eauto]. intros _. right. exists r.
        split; [reflexivity | now apply Qle_bool_iff].
      * split.
        -- intros [what H].
           destruct (args !! 0%nat); simpl in H; [| discriminate].
           destruct (args !! 1%nat); simpl in H; [| discriminate].
           destruct (args !! 2%nat); simpl in H; discriminate.
        -- intros [H | [r' [[= <-] H]]]; [congruence |].
           apply Qle_bool_iff in H. congruence.
    + split; [intros [what H]; discriminate |].
      intros [H | [r' [[=] _]]]. congruence.
  - split; [auto | eauto].
Qed.

Lemma add_cylinder_throws con args n :
  (exists what, add_cylinder con "cylinder" args n = Throw what) <-> refused args n 7 6%nat.
Proof.
  unfold add_cylinder, refused. simpl String.eqb. cbv iota.
  destruct (Z.eqb_spec n 7) as [-> | Hn]; simpl negb; cbv iota.
  - literal_reads.
    destruct (args !! 6%nat) as [r |] eqn:E6; simpl.
    + destruct (Qle_bool r 0) eqn:Er.
      * split; [| eauto]. intros _. right. exists r.
        split; [reflexivity | now apply Qle_bool_iff].
      * split.
        -- intros [what H].
           repeat match type of H with
                  | context [?l !! ?k] =>
                      destruct (l !! k); simpl in H; [| discriminate]
                  end.
           discriminate.
        -- intros [H | [r' [[= <-] H]]]; [congruence |].
           apply Qle_bool_iff in H. congruence.
    + split; [intros [what H]; discriminate |].
      intros [H | [r' [[=] _]]]. congruence.
  - split; [auto | eauto].
Qed.

(** C6. [add_walls] raises exactly when the tag is "sphere" and the count
    is not 4 or the fourth parameter is at most 0, or the tag is "cylinder"
    and the count is not 7 or the seventh parameter is at most 0; any other
    tag leaves the container as it was, without an error. *)
Theorem add_walls_raises_iff (con : container) (tag : string) (args : list Q) (n : Z) :
  ((exists what, add_walls con tag args n = Throw what) <->
     (tag = "sphere" /\ refused args n 4 3%nat) \/
     (tag = "cylinder" /\ refused args n 7 6%nat)) /\
  (tag <> "sphere" -> tag <> "cylinder" -> add_walls con tag args n = Done con).
Proof.
  split.
  - unfold add_walls.
    destruct (String.eqb_spec tag "sphere") as [-> | Hs].
    + rewrite <- (add_sphere_throws con args n).
      split.
      * intros [what H]. left. split; [reflexivity |].
        destruct (add_sphere con "sphere" args n) eqn:E; [| eauto | |];
          simpl in H; discriminate.
      * intros [[_ [what H]] | [[=] _]]. exists what. now rewrite H.
    + rewrite add_sphere_other by assumption. simpl.
      destruct (String.eqb_spec tag "cylinder") as [-> | Hc].
      * rewrite add_cylinder_throws.
        split; [intros H; right; auto | intros [[[=] _] | [_ H]]; exact H].
      * rewrite add_cylinder_other by assumption.
        split; [intros [what H]; discriminate |].
        intros [[H _] | [H _]]; contradiction.
  - intros Hs Hc. unfold add_walls.
    rewrite add_sphere_other by assumption. simpl.
    now apply add_cylinder_other.
Qed.

(** A sphere with 3 or 5 parameters or a radius of 0 or below is refused;
    with 4 parameters and a positive radius the wall is added. *)
Example sphere_three_params (con : container) :
  add_walls con "sphere" [0; 0; 0]%Q 3 = Throw sphere_nargs_msg.
Proof. reflexivity. Qed.

Example sphere_five_params (con : container) :
  add_walls con "sphere" [0; 0; 0; 1; 1]%Q 5 = Throw sphere_nargs_msg.
Proof. reflexivity. Qed.

Example sphere_zero_radius (con : container) :
  add_walls con "sphere" [0; 0; 0; 0]%Q 4 = Throw sphere_radius_msg.
Proof. reflexivity. Qed.

Example sphere_negative_radius (con : container) :
  add_walls con "sphere" [0; 0; 0; -1]%Q 4 = Throw sphere_radius_msg.
Proof. reflexivity. Qed.

Example sphere_valid (con : container) :
  add_walls con "sphere" [0; 0; 0; 2]%Q 4 = Done (add_wall (wall_sphere 0 0 0 2) con).
Proof. reflexivity. Qed.

Example cylinder_valid (con : container) :
  add_walls con "cylinder" [0; 0; 0; 0; 0; 1; 2]%Q 7
  = Done (add_wall (wall_cylinder 0 0 0 0 0 1 2) con).
Proof. reflexivity. Qed.

Example plane_ignored (con : container) :
  add_walls con "plane" [0; 0; 1; 0]%Q 4 = Done con.
Proof. reflexivity. Qed.

(** ** Sampling inside a tetrahedron *)

Lemma fold_draws_simplex (s t u : Q) :
  (0 <= s < 1)%Q -> (0 <= t < 1)%Q -> (0 <= u < 1)%Q ->
  barycentric (fold_draws s t u).
Proof.
  intros Hs Ht Hu. unfold fold_draws, barycentric.
  destruct (Qltb 1 (s + t)) eqn:E1.
  - apply Qltb_lt in E1.
    destruct (Qltb 1 (1 - t + u)) eqn:E2.
    + apply Qltb_lt in E2. repeat split; lra.
    + apply Qltb_ge in E2.
      destruct (Qltb 1 (1 - s + (1 - t) + u)) eqn:E3.
      * apply Qltb_lt in E3. repeat split; lra.
      * apply Qltb_ge in E3. repeat split; lra.
  - apply Qltb_ge in E1.
    destruct (Qltb 1 (t + u)) eqn:E2.
    + apply Qltb_lt in E2. repeat split; lra.
    + apply Qltb_ge in E2.
      destruct (Qltb 1 (s + t + u)) eqn:E3.
      * apply Qltb_lt in E3. repeat split; lra.
      * apply Qltb_ge in E3. repeat split; lra.
Qed.

Lemma Qplus_nonneg (x y : Q) : (0 <= x)%Q -> (0 <= y)%Q -> (0 <= x + y)%Q.
Proof. intros. lra. Qed.

(** A weighted mean with barycentric weights stays between any bounds of
    the four values. *)
Lemma barycentric_between (a s t u c0 c1 c2 c3 lo hi : Q) :
  barycentric (a, s, t, u) ->
  (lo <= c0 <= hi)%Q -> (lo <= c1 <= hi)%Q ->
  (lo <= c2 <= hi)%Q -> (lo <= c3 <= hi)%Q ->
  (lo <= c0 * a + c1 * s + c2 * t + c3 * u <= hi)%Q.
Proof.
  unfold barycentric. intros (Ha & Hs & Ht & Hu & Hsum) H0 H1 H2 H3.
  assert (Hlo : (0 <= (c0 - lo) * a + (c1 - lo) * s + (c2 - lo) * t + (c3 - lo) * u)%Q).
  { repeat apply Qplus_nonneg; apply Qmult_le_0_compat; lra. }
  assert (Hhi : (0 <= (hi - c0) * a + (hi - c1) * s + (hi - c2) * t + (hi - c3) * u)%Q).
  { repeat apply Qplus_nonneg; apply Qmult_le_0_compat; lra. }
  assert (E1 : ((c0 - lo) * a + (c1 - lo) * s + (c2 - lo) * t + (c3 - lo) * u
                == c0 * a + c1 * s + c2 * t + c3 * u - lo * (a + s + t + u))%Q) by ring.
  assert (E2 : ((hi - c0) * a + (hi - c1) * s + (hi - c2) * t + (hi - c3) * u
                == hi * (a + s + t + u) - (c0 * a + c1 * s + c2 * t + c3 * u))%Q) by ring.
  rewrite E1 in Hlo. rewrite E2 in Hhi. rewrite Hsum in Hlo, Hhi.
  split; lra.
Qed.

Lemma weighted_Done (a s t u : Q) (p0 p1 p2 p3 : iter) (i : Z) (c0 c1 c2 c3 : Q) :
  iread p0 i = Done c0 -> iread p1 i = Done c1 ->
  iread p2 i = Done c2 -> iread p3 i = Done c3 ->
  weighted (a, s, t, u) p0 p1 p2 p3 i = Done (c0 * a + c1 * s + c2 * t + c3 * u)%Q.
Proof.
  intros H0 H1 H2 H3. unfold weighted. now rewrite H0, H1, H2, H3.
Qed.

(** C5. For draws [s], [t], [u] in [[0,1)] the folded coordinates
    [(a, s', t', u')] have [a = 1 - s' - t' - u'], lie in [[0,1]] and sum
    to 1; each coordinate of the point stored is the combination of the
    four vertices with these weights, and so lies between any bounds of
    the vertices' coordinates. *)
Theorem fold_draws_barycentric (s t u : Q) :
  (0 <= s < 1)%Q -> (0 <= t < 1)%Q -> (0 <= u < 1)%Q ->
  exists a s' t' u',
    fold_draws s t u = (a, s', t', u') /\
    a = (1 - s' - t' - u')%Q /\
    barycentric (a, s', t', u') /\
    forall (p0 p1 p2 p3 : iter) (i : Z) (c0 c1 c2 c3 : Q),
      iread p0 i = Done c0 -> iread p1 i = Done c1 ->
      iread p2 i = Done c2 -> iread p3 i = Done c3 ->
      weighted (fold_draws s t u) p0 p1 p2 p3 i
        = Done (c0 * a + c1 * s' + c2 * t' + c3 * u')%Q /\
      forall lo hi : Q,
        (lo <= c0 <= hi)%Q -> (lo <= c1 <= hi)%Q ->
        (lo <= c2 <= hi)%Q -> (lo <= c3 <= hi)%Q ->
        (lo <= c0 * a + c1 * s' + c2 * t' + c3 * u' <= hi)%Q.
Proof.
  intros Hs Ht Hu.
  pose proof (fold_draws_simplex s t u Hs Ht Hu) as Hb.
  destruct (fold_draws s t u) as [[[a s'] t'] u'] eqn:E.
  exists a, s', t', u'. split; [reflexivity |]. split.
  - unfold fold_draws in E.
    destruct (Qltb 1 (s + t));
      repeat match type of E with
             | context [if ?b then _ else _] => destruct b
             end;
      injection E as <- <- <- <-; reflexivity.
  - split; [exact Hb |].
    intros p0 p1 p2 p3 i c0 c1 c2 c3 H0 H1 H2 H3. split.
    + now apply weighted_Done.
    + intros lo hi. now apply barycentric_between.
Qed.

(** The witness: the draws 3/4, 3/4, 3/4 fold to the weights
    (1/2, 0, 1/4, 1/4). *)
Lemma fold_draws_barycentric_witness :
  exists a s' t' u',
    fold_draws (3 # 4) (3 # 4) (3 # 4) = (a, s', t', u') /\
    a = (1 - s' - t' - u')%Q /\
    barycentric (a, s', t', u') /\
    forall (p0 p1 p2 p3 : iter) (i : Z) (c0 c1 c2 c3 : Q),
      iread p0 i = Done c0 -> iread p1 i = Done c1 ->
      iread p2 i = Done c2 -> iread p3 i = Done c3 ->
      weighted (fold_draws (3 # 4) (3 # 4) (3 # 4)) p0 p1 p2 p3 i
        = Done (c0 * a + c1 * s' + c2 * t' + c3 * u')%Q /\
      forall lo hi : Q,
        (lo <= c0 <= hi)%Q -> (lo <= c1 <= hi)%Q ->
        (lo <= c2 <= hi)%Q -> (lo <= c3 <= hi)%Q ->
        (lo <= c0 * a + c1 * s' + c2 * t' + c3 * u' <= hi)%Q.
Proof.
  apply (fold_draws_barycentric (3 # 4) (3 # 4) (3 # 4)); split; discriminate || reflexivity.
Defined.

Lemma draw_range (RAND_MAX : Z) (rand_out : nat -> Z) (calls : nat) :
  0 <= RAND_MAX -> 0 <= rand_out calls <= RAND_MAX ->
  (0 <= fst (draw RAND_MAX rand_out calls) < 1)%Q /\
  snd (draw RAND_MAX rand_out calls) = S calls.
Proof.
  intros HM [Hr0 Hr1]. unfold draw, rand. simpl. split; [| reflexivity].
  assert (HD : (0 < inject_Z RAND_MAX + 1)%Q).
  { unfold Qlt, Qplus, inject_Z. simpl. lia. }
  split.
  - apply Qle_shift_div_l; [exact HD |].
    unfold Qle, Qmult, Qplus, inject_Z. simpl. lia.
  - apply Qlt_shift_div_r; [exact HD |].
    unfold Qlt, Qmult, Qplus, inject_Z. simpl. lia.
Qed.

(** With [std::rand] in its range, the point sampled in a tetrahedron whose
    vertices can be read is a barycentric combination of them, and three
    random integers have been consumed. *)
Lemma sample_point_in_tetra_inside (RAND_MAX : Z) (rand_out : nat -> Z) (calls : nat)
    (p0 p1 p2 p3 : iter) (q0 q1 q2 q3 : Z -> Q) :
  0 <= RAND_MAX ->
  (forall k, 0 <= rand_out k <= RAND_MAX) ->
  (forall i, 0 <= i < 3 -> iread p0 i = Done (q0 i)) ->
  (forall i, 0 <= i < 3 -> iread p1 i = Done (q1 i)) ->
  (forall i, 0 <= i < 3 -> iread p2 i = Done (q2 i)) ->
  (forall i, 0 <= i < 3 -> iread p3 i = Done (q3 i)) ->
  exists a s t u,
    barycentric (a, s, t, u) /\
    sample_point_in_tetra RAND_MAX rand_out calls p0 p1 p2 p3 =
      Done ((q0 0%Z * a + q1 0%Z * s + q2 0%Z * t + q3 0%Z * u,
             q0 1%Z * a + q1 1%Z * s + q2 1%Z * t + q3 1%Z * u,
             q0 2%Z * a + q1 2%Z * s + q2 2%Z * t + q3 2%Z * u)%Q, (calls + 3)%nat).
Proof.
  intros HM Hr H0 H1 H2 H3. unfold sample_point_in_tetra.
  pose proof (draw_range RAND_MAX rand_out calls HM (Hr _)) as [Hs Es].
  destruct (draw RAND_MAX rand_out calls) as [s c1]. simpl in Hs, Es. subst c1.
  pose proof (draw_range RAND_MAX rand_out (S calls) HM (Hr _)) as [Ht Et].
  destruct (draw RAND_MAX rand_out (S calls)) as [t c2]. simpl in Ht, Et. subst c2.
  pose proof (draw_range RAND_MAX rand_out (S (S calls)) HM (Hr _)) as [Hu Eu].
  destruct (draw RAND_MAX rand_out (S (S calls))) as [u c3]. simpl in Hu, Eu. subst c3.
  pose proof (fold_draws_simplex s t u Hs Ht Hu) as Hb.
  destruct (fold_draws s t u) as [[[a s'] t'] u'].
  exists a, s', t', u'. split; [exact Hb |].
  rewrite (weighted_Done a s' t' u' p0 p1 p2 p3 0 (q0 0) (q1 0) (q2 0) (q3 0))
    by (apply H0 || apply H1 || apply H2 || apply H3; lia).
  rewrite (weighted_Done a s' t' u' p0 p1 p2 p3 1 (q0 1) (q1 1) (q2 1) (q3 1))
    by (apply H0 || apply H1 || apply H2 || apply H3; lia).
  rewrite (weighted_Done a s' t' u' p0 p1 p2 p3 2 (q0 2) (q1 2) (q2 2) (q3 2))
    by (apply H0 || apply H1 || apply H2 || apply H3; lia).
  simpl. do 2 f_equal. lia.
Qed.

(** ** Block-grid sizer *)

Lemma trunc_nonneg (x : Q) : (0 <= x)%Q -> 0 <= trunc x.
Proof.
  intros H. unfold trunc. apply Z.quot_pos; [| lia].
  unfold Qle in H. simpl in H. lia.
Qed.

Lemma trunc_floor (x : Q) : (0 <= x)%Q -> trunc x = Qfloor x.
Proof.
  intros H. destruct x as [n d]. unfold trunc, Qfloor. simpl.
  apply Z.quot_div_nonneg; [| lia].
  unfold Qle in H. simpl in H. lia.
Qed.

Lemma trunc_below (x : Q) (n : Z) : (0 <= x)%Q -> (x < inject_Z n)%Q -> trunc x < n.
Proof.
  intros H0 Hn. rewrite trunc_floor by exact H0.
  pose proof (Qfloor_le x) as Hl.
  assert (H : (inject_Z (Qfloor x) < inject_Z n)%Q) by lra.
  now rewrite <- Zlt_Qlt in H.
Qed.

Lemma trunc_above (x : Q) (n : Z) : (inject_Z n <= x)%Q -> 0 <= n -> n <= trunc x.
Proof.
  intros Hn H0.
  assert (Hx : (0 <= x)%Q).
  { apply Qle_trans with (inject_Z n); [| exact Hn].
    change 0%Q with (inject_Z 0). now rewrite <- Zle_Qle. }
  rewrite trunc_floor by exact Hx.
  rewrite <- (Qfloor_Z n). now apply Qfloor_resp_le.
Qed.

Lemma block_value_nonneg (fl : Q -> Q) (extent vol_edge block_edge : Q) :
  (forall q, (0 <= q)%Q -> (0 <= fl q)%Q) ->
  (0 <= extent)%Q -> (0 < vol_edge)%Q -> (0 <= block_edge)%Q ->
  (0 <= block_value fl extent vol_edge block_edge)%Q.
Proof.
  intros Hfl He Hv Hb. unfold block_value, fmul, fdiv.
  apply Hfl, Qmult_le_0_compat; [| exact Hb].
  apply Hfl, Qle_shift_div_l; [exact Hv |]. lra.
Qed.

Lemma block_count_Done (fl : Q -> Q) (extent vol_edge block_edge : Q) :
  ~ (vol_edge == 0)%Q ->
  (0 <= block_value fl extent vol_edge block_edge)%Q ->
  (block_value fl extent vol_edge block_edge < inject_Z INT_MAX)%Q ->
  block_count fl extent vol_edge block_edge
    = Done (trunc (block_value fl extent vol_edge block_edge) + 1).
Proof.
  intros Hv H0 Hmax. unfold block_count.
  destruct (Qeq_bool vol_edge 0) eqn:E; [apply Qeq_bool_iff in E; contradiction |].
  pose proof (trunc_nonneg _ H0) as Hlo. pose proof (trunc_below _ _ H0 Hmax) as Hhi.
  unfold to_int, int_add, in_int, INT_MIN, INT_MAX in *.
  replace ((-2147483648 <=? trunc (block_value fl extent vol_edge block_edge))
           && (trunc (block_value fl extent vol_edge block_edge) <=? 2147483647))
    with true by (symmetry; apply andb_true_iff; split; apply Z.leb_le; lia).
  cbn [bind].
  replace ((-2147483648 <=? trunc (block_value fl extent vol_edge block_edge) + 1)
           && (trunc (block_value fl extent vol_edge block_edge) + 1 <=? 2147483647))
    with true by (symmetry; apply andb_true_iff; split; apply Z.leb_le; lia).
  reflexivity.
Qed.

Lemma block_count_out_of_range (fl : Q -> Q) (extent vol_edge block_edge : Q) :
  (inject_Z INT_MAX <= block_value fl extent vol_edge block_edge)%Q ->
  block_count fl extent vol_edge block_edge = Undefined.
Proof.
  intros Hmax. unfold block_count.
  destruct (Qeq_bool vol_edge 0); [reflexivity |].
  pose proof (trunc_above _ _ Hmax ltac:(discriminate)) as Hlo.
  unfold to_int, int_add, in_int, INT_MIN, INT_MAX in *.
  destruct ((-2147483648 <=? trunc (block_value fl extent vol_edge block_edge))
            && (trunc (block_value fl extent vol_edge block_edge) <=? 2147483647));
    [| reflexivity].
  cbn [bind].
  replace (trunc (block_value fl extent vol_edge block_edge) + 1 <=? 2147483647)
    with false by (symmetry; apply Z.leb_gt; lia).
  now rewrite andb_false_r.
Qed.

Lemma Qshift_nonneg (x : Q) (k : Z) : (0 <= x)%Q -> (0 <= Qshift x k)%Q.
Proof.
  intros H. unfold Qshift. destruct (0 <=? k) eqn:E.
  - apply Qmult_le_0_compat; [exact H |].
    change 0%Q with (inject_Z 0). rewrite <- Zle_Qle. apply Z.pow_nonneg. lia.
  - apply Qle_shift_div_l; [| lra].
    change 0%Q with (inject_Z 0). rewrite <- Zlt_Qlt.
    apply Z.pow_pos_nonneg; [lia |]. apply Z.leb_gt in E. lia.
Qed.

Lemma round_even_nonneg (x : Q) : (0 <= x)%Q -> 0 <= round_even x.
Proof.
  intros H. unfold round_even.
  assert (Hf : 0 <= Qfloor x).
  { rewrite <- (Qfloor_Z 0). now apply Qfloor_resp_le. }
  destruct (x - inject_Z (Qfloor x) ?= 1 # 2)%Q; [destruct (Z.even (Qfloor x)) | |]; lia.
Qed.

(** The stand-in for the rounding keeps the sign. *)
Lemma fl53_nonneg (q : Q) : (0 <= q)%Q -> (0 <= fl53 q)%Q.
Proof.
  intros H. unfold fl53. destruct (Qeq_bool q 0); [apply Qle_refl |].
  cbv zeta. rewrite Qred_correct.
  replace (Qle_bool 0 q) with true by (symmetry; now apply Qle_bool_iff).
  apply Qshift_nonneg. change 0%Q with (inject_Z 0). rewrite <- Zle_Qle.
  apply round_even_nonneg.
  apply Qshift_nonneg, Qabs_nonneg.
Qed.

(** C7, as amended.  For a domain with positive extents and at least one
    site, when the cube root is positive on the volume of the domain and
    not negative on [nsites / 5] and the three doubles
    (extent / cbrt(volume)) * cbrt(nsites / 5), as the machine computes
    them, are below the largest [int], each block count is the truncation
    toward zero of that double, plus 1, and each is at least 1. *)
Theorem block_grid_trunc (cbrt fl : Q -> Q) (xmin xmax ymin ymax zmin zmax : Q)
    (nsites : Z) :
  let vol_edge := vol_edge_of cbrt fl xmin xmax ymin ymax zmin zmax in
  let block_edge := block_edge_of cbrt fl nsites in
  let vx := block_value fl (fsub fl xmax xmin) vol_edge block_edge in
  let vy := block_value fl (fsub fl ymax ymin) vol_edge block_edge in
  let vz := block_value fl (fsub fl zmax zmin) vol_edge block_edge in
  (forall q, (0 <= q)%Q -> (0 <= fl q)%Q) ->
  (xmin < xmax)%Q -> (ymin < ymax)%Q -> (zmin < zmax)%Q -> 1 <= nsites ->
  (0 < vol_edge)%Q -> (0 <= block_edge)%Q ->
  (vx < inject_Z INT_MAX)%Q -> (vy < inject_Z INT_MAX)%Q -> (vz < inject_Z INT_MAX)%Q ->
  block_grid cbrt fl xmin xmax ymin ymax zmin zmax nsites
    = Done (trunc vx + 1, trunc vy + 1, trunc vz + 1) /\
  1 <= trunc vx + 1 /\ 1 <= trunc vy + 1 /\ 1 <= trunc vz + 1.
Proof.
  intros vol_edge block_edge vx vy vz Hfl Hx Hy Hz Hn Hv Hb Mx My Mz.
  assert (Hv0 : ~ (vol_edge == 0)%Q) by (intros E; rewrite E in Hv; lra).
  assert (Px : (0 <= vx)%Q).
  { apply block_value_nonneg; try assumption. apply Hfl. lra. }
  assert (Py : (0 <= vy)%Q).
  { apply block_value_nonneg; try assumption. apply Hfl. lra. }
  assert (Pz : (0 <= vz)%Q).
  { apply block_value_nonneg; try assumption. apply Hfl. lra. }
  split.
  - unfold block_grid. fold vol_edge block_edge.
    rewrite !block_count_Done by assumption. reflexivity.
  - pose proof (trunc_nonneg _ Px). pose proof (trunc_nonneg _ Py).
    pose proof (trunc_nonneg _ Pz). lia.
Qed.

(** The witness: the box 1 x 1 x 8 with 5 sites has the grid (1, 1, 5). *)
Lemma block_grid_trunc_witness :
  let vol_edge := vol_edge_of cbrt_fix fl53 0 1 0 1 0 8 in
  let block_edge := block_edge_of cbrt_fix fl53 5 in
  let vx := block_value fl53 (fsub fl53 1 0) vol_edge block_edge in
  let vy := block_value fl53 (fsub fl53 1 0) vol_edge block_edge in
  let vz := block_value fl53 (fsub fl53 8 0) vol_edge block_edge in
  block_grid cbrt_fix fl53 0 1 0 1 0 8 5
    = Done (trunc vx + 1, trunc vy + 1, trunc vz + 1) /\
  1 <= trunc vx + 1 /\ 1 <= trunc vy + 1 /\ 1 <= trunc vz + 1.
Proof.
  apply (block_grid_trunc cbrt_fix fl53 0 1 0 1 0 8 5);
    [exact fl53_nonneg | vm_compute; reflexivity || discriminate ..].
Defined.

(** C7, as stated, fails: in the box 1 x 1 x 8 with 5 sites the cube roots
    are 2 and 1, the x extent gives 1/2 * 1, the code computes
    (int)0.5 + 1 = 1 blocks and the rounding up of the claim 1 + 1 = 2. *)
Lemma block_grid_not_roundup :
  (vol_edge_of cbrt_fix fl53 0 1 0 1 0 8 == 2)%Q /\
  (block_edge_of cbrt_fix fl53 5 == 1)%Q /\
  block_grid cbrt_fix fl53 0 1 0 1 0 8 5 = Done (1, 1, 5) /\
  block_count_roundup (1 - 0) (vol_edge_of cbrt_fix fl53 0 1 0 1 0 8)
                      (block_edge_of cbrt_fix fl53 5) = 2.
Proof. vm_compute. repeat split. Qed.

(** A long thin box: the extents 2^-20, 2^-20 and 2^40 with 5 sites give the
    double 2^40 on the z axis, which no [int] holds. *)
Example block_grid_out_of_range :
  block_grid cbrt_fix fl53 0 (1 # 1048576) 0 (1 # 1048576) 0 1099511627776 5 = Undefined.
Proof. vm_compute. reflexivity. Qed.

(** ** Tetra decomposition *)

Lemma iread_valid (verts : list Q) (v : Z) (i : nat) :
  valid_vertex verts v = true -> (i < 3)%nat ->
  iread (verts, v * 3) (Z.of_nat i) = Done (coord verts v i).
Proof.
  unfold valid_vertex, iread, coord. simpl fst. simpl snd.
  intros H Hi. apply andb_true_iff in H as [H0 H1].
  apply Z.leb_le in H0, H1.
  apply read_Done. split; [lia |].
  replace (Z.to_nat (v * 3 + Z.of_nat i)) with (Z.to_nat (v * 3) + i)%nat by lia.
  destruct (nth_lookup_or_length verts (Z.to_nat (v * 3) + i) 0%Q) as [E | E];
    [exact E | lia].
Qed.

Lemma tetra_volume_valid (verts : list Q) (v0 v1 v2 v3 : Z) :
  valid_vertex verts v0 = true -> valid_vertex verts v1 = true ->
  valid_vertex verts v2 = true -> valid_vertex verts v3 = true ->
  tetra_volume (verts, v0 * 3) (verts, v1 * 3) (verts, v2 * 3) (verts, v3 * 3)
    = Done (volume_of verts v0 v1 v2 v3).
Proof.
  intros H0 H1 H2 H3. unfold tetra_volume.
  change 0 with (Z.of_nat 0). change 1 with (Z.of_nat 1). change 2 with (Z.of_nat 2).
  rewrite !iread_valid by (assumption || lia). reflexivity.
Qed.

Lemma det3_sarrus (a b c d e f g h i : Q) :
  (det3 a b c d e f g h i == det_sarrus a b c d e f g h i)%Q.
Proof. unfold det3, det_sarrus. ring. Qed.

Lemma volume_of_nonneg (verts : list Q) (v0 v1 v2 v3 : Z) :
  (0 <= volume_of verts v0 v1 v2 v3)%Q.
Proof.
  unfold volume_of. apply Qle_shift_div_l; [reflexivity |].
  rewrite Qmult_0_l. apply Qabs_nonneg.
Qed.

(** Reading the encoding of a face inside the face-vertex list. *)
Section Encoding.

Variables (pre post face : list Z).

Lemma enc_lt_size : lt_size (Z.of_nat (length pre)) (pre ++ Z.of_nat (length face) :: face ++ post) = true.
Proof.
  unfold lt_size. apply andb_true_iff.
  rewrite Z.leb_le, Z.ltb_lt, length_app. simpl. rewrite length_app. lia.
Qed.

Lemma enc_read_count : read (pre ++ Z.of_nat (length face) :: face ++ post) (Z.of_nat (length pre)) = Done (Z.of_nat (length face)).
Proof.
  apply read_nat. now apply list_lookup_middle.
Qed.

Lemma enc_read_vertex (i : nat) :
  (i < length face)%nat -> read (pre ++ Z.of_nat (length face) :: face ++ post)
       (Z.of_nat (length pre) + 1 + Z.of_nat i) = Done (nth i face 0).
Proof.
  intros Hi. apply read_Done. split; [lia |].
  replace (Z.to_nat (Z.of_nat (length pre) + 1 + Z.of_nat i))
    with (length pre + S i)%nat by lia.
  rewrite lookup_app_r by lia.
  replace (length pre + S i - length pre)%nat with (S i) by lia.
  simpl. rewrite lookup_app_l by exact Hi.
  destruct (nth_lookup_or_length face i 0) as [E | E]; [exact E | lia].
Qed.

Lemma enc_read_first :
  (0 < length face)%nat -> read (pre ++ Z.of_nat (length face) :: face ++ post) (Z.of_nat (length pre) + 1) = Done (nth 0 face 0).
Proof.
  intros H.
  replace (Z.of_nat (length pre) + 1) with (Z.of_nat (length pre) + 1 + Z.of_nat 0) by lia.
  now apply enc_read_vertex.
Qed.

Lemma enc_find :
  find_in (pre ++ Z.of_nat (length face) :: face ++ post) (Z.of_nat (length pre) + 1)
          (Z.of_nat (length pre) + 1 + Z.of_nat (length face)) 0 = Done (has_vertex0 face).
Proof.
  unfold find_in.
  replace ((Z.of_nat (length pre) + 1 <? 0)
           || (Z.of_nat (length pre) + 1 + Z.of_nat (length face) <? Z.of_nat (length pre) + 1)
           || (Z.of_nat (length (pre ++ Z.of_nat (length face) :: face ++ post))
               <? Z.of_nat (length pre) + 1 + Z.of_nat (length face)))
    with false.
  - f_equal. unfold has_vertex0. f_equal.
    replace (Z.to_nat (Z.of_nat (length pre) + 1 + Z.of_nat (length face)
                       - (Z.of_nat (length pre) + 1))) with (length face) by lia.
    replace (Z.to_nat (Z.of_nat (length pre) + 1)) with (length pre + 1)%nat by lia.
    rewrite <- drop_drop, drop_app_length. simpl. rewrite ?drop_0.
    now rewrite take_app_length.
  - symmetry. rewrite !orb_false_iff, !Z.ltb_ge, length_app. simpl.
    rewrite length_app. lia.
Qed.

End Encoding.

Lemma forallb_nth (verts : list Q) (face : list Z) (i : nat) :
  forallb (valid_vertex verts) face = true -> (i < length face)%nat ->
  valid_vertex verts (nth i face 0) = true.
Proof.
  intros H Hi. rewrite forallb_forall in H. apply H, nth_In, Hi.
Qed.

(** One turn of the fan loop at vertex [i] of the face emits the
    tetrahedron [(0, face[0], face[i], face[i+1])]. *)
Lemma fan_step_face (verts : list Q) (pre post face : list Z) (i : nat) (d : decomp) :
  valid_vertex verts 0 = true ->
  forallb (valid_vertex verts) face = true ->
  (S i < length face)%nat ->
  fan_step verts (pre ++ Z.of_nat (length face) :: face ++ post)
           (Z.of_nat (length pre)) (Z.of_nat (length pre) + 1 + Z.of_nat i) d
    = Done (push verts d (fan_tetra face i)).
Proof.
  intros H0 Hf Hi. unfold fan_step.
  rewrite enc_read_first by lia. cbn [bind].
  rewrite enc_read_vertex by lia. cbn [bind].
  replace (Z.of_nat (length pre) + 1 + Z.of_nat i + 1)
    with (Z.of_nat (length pre) + 1 + Z.of_nat (S i)) by lia.
  rewrite enc_read_vertex by lia. cbn [bind].
  change (verts, 0) with (verts, 0 * 3).
  rewrite tetra_volume_valid
    by (assumption || (apply forallb_nth; [assumption | lia])).
  reflexivity.
Qed.

Lemma fan_loop_face (verts : list Q) (pre post face : list Z) (n i : nat) (d : decomp) :
  valid_vertex verts 0 = true ->
  forallb (valid_vertex verts) face = true ->
  (0 < n -> i + n < length face)%nat ->
  fan_loop n verts (pre ++ Z.of_nat (length face) :: face ++ post)
           (Z.of_nat (length pre)) (Z.of_nat (length pre) + 1 + Z.of_nat i) d
    = Done (emit verts (map (fan_tetra face) (seq i n)) d).
Proof.
  intros H0 Hf. revert i d.
  induction n as [| n IH]; intros i d Hn; [reflexivity |].
  cbn [fan_loop]. rewrite fan_step_face by (assumption || lia). cbn [bind].
  replace (Z.of_nat (length pre) + 1 + Z.of_nat i + 1)
    with (Z.of_nat (length pre) + 1 + Z.of_nat (S i)) by lia.
  rewrite IH by lia. reflexivity.
Qed.

(** The walk over the encoded faces emits the fans of the retained faces,
    in order; the faces through vertex 0 emit nothing. *)
Lemma face_walk_faces (verts : list Q) (faces : list (list Z)) :
  valid_vertex verts 0 = true ->
  forallb (forallb (valid_vertex verts)) faces = true ->
  forall (fuel : nat) (pre : list Z) (d : decomp),
    face_walk fuel verts (pre ++ encode_faces faces) (Z.of_nat (length pre)) d
      = if (length faces <? fuel)%nat then Done (emit verts (tetrahedra faces) d)
        else OutOfFuel.
Proof.
  intros H0. induction faces as [| face faces IH]; intros Hf fuel pre d.
  - destruct fuel as [| fuel]; [reflexivity |].
    simpl. unfold lt_size. rewrite app_nil_r.
    replace (Z.of_nat (length pre) <? Z.of_nat (length pre)) with false
      by (symmetry; apply Z.ltb_ge; lia).
    now rewrite andb_false_r.
  - destruct fuel as [| fuel]; [reflexivity |].
    change (length (face :: faces) <? S fuel)%nat with (length faces <? fuel)%nat.
    simpl in Hf. apply andb_true_iff in Hf as [Hface Hfaces].
    change (encode_faces (face :: faces))
      with (Z.of_nat (length face) :: face ++ encode_faces faces).
    cbn [face_walk].
    rewrite enc_lt_size, enc_read_count. cbn [bind].
    rewrite enc_find. cbn [bind].
    assert (Enext : pre ++ Z.of_nat (length face) :: face ++ encode_faces faces
                    = (pre ++ Z.of_nat (length face) :: face) ++ encode_faces faces)
      by now rewrite <- app_assoc.
    assert (Ej : Z.of_nat (length pre) + (Z.of_nat (length face) + 1)
                 = Z.of_nat (length (pre ++ Z.of_nat (length face) :: face)))
      by (rewrite length_app; simpl; lia).
    unfold tetrahedra, retained. rewrite filter_cons.
    destruct (has_vertex0 face) eqn:E0.
    + rewrite decide_False by discriminate.
      rewrite Ej, Enext. apply IH. exact Hfaces.
    + rewrite decide_True by reflexivity.
      replace (Z.of_nat (length pre) + 2) with (Z.of_nat (length pre) + 1 + Z.of_nat 1) by lia.
      rewrite fan_loop_face by (assumption || lia). cbn [bind].
      rewrite Ej, Enext, IH by assumption.
      destruct (length faces <? fuel)%nat; [| reflexivity].
      simpl map. simpl concat. unfold emit at 3. rewrite fold_left_app.
      unfold fan.
      replace (Z.to_nat (Z.of_nat (length pre) + Z.of_nat (length face)
                         - (Z.of_nat (length pre) + 1 + Z.of_nat 1)))
        with (length face - 2)%nat by lia.
      reflexivity.
Qed.

Lemma emit_shape (verts : list Q) (tets : list (list Z)) (d : decomp) :
  t_vert (emit verts tets d) = t_vert d ++ concat tets /\
  c_vol (emit verts tets d)
    = c_vol d ++ running_sums (vol d) (map (tetra_vol verts) tets) /\
  vol (emit verts tets d) = fold_left Qplus (map (tetra_vol verts) tets) (vol d).
Proof.
  revert d. induction tets as [| tet tets IH]; intros d.
  - simpl. now rewrite !app_nil_r.
  - unfold emit in *. simpl fold_left.
    destruct (IH (push verts d tet)) as (E1 & E2 & E3).
    rewrite E1, E2, E3. simpl. now rewrite <- !app_assoc.
Qed.

Lemma valid_cell_parts (verts : list Q) (faces : list (list Z)) :
  valid_cell verts faces = true ->
  valid_vertex verts 0 = true /\ forallb (forallb (valid_vertex verts)) faces = true.
Proof. unfold valid_cell. intros H. now apply andb_true_iff in H. Qed.

(** The decomposition of a valid cell, in closed form. *)
Lemma face_walk_emit (verts : list Q) (faces : list (list Z)) (fuel : nat) :
  valid_cell verts faces = true -> (length faces < fuel)%nat ->
  face_walk fuel verts (encode_faces faces) 0 decomp_init
    = Done (emit verts (tetrahedra faces) decomp_init).
Proof.
  intros Hv Hfuel. apply valid_cell_parts in Hv as [H0 Hf].
  etransitivity; [exact (face_walk_faces verts faces H0 Hf fuel [] decomp_init) |].
  apply Nat.ltb_lt in Hfuel. now rewrite Hfuel.
Qed.

Lemma face_walk_starved (verts : list Q) (faces : list (list Z)) (fuel : nat) :
  valid_cell verts faces = true -> (fuel <= length faces)%nat ->
  face_walk fuel verts (encode_faces faces) 0 decomp_init = OutOfFuel.
Proof.
  intros Hv Hfuel. apply valid_cell_parts in Hv as [H0 Hf].
  etransitivity; [exact (face_walk_faces verts faces H0 Hf fuel [] decomp_init) |].
  apply Nat.ltb_ge in Hfuel. now rewrite Hfuel.
Qed.

Lemma has_vertex0_spec (face : list Z) : has_vertex0 face = false <-> 0 ∉ face.
Proof.
  unfold has_vertex0. rewrite <- not_true_iff_false, existsb_exists.
  split.
  - intros H Hin. apply H. exists 0. split; [| reflexivity].
    now apply list_elem_of_In.
  - intros H [x [Hin Hx]]. apply Z.eqb_eq in Hx. subst x.
    now apply H, list_elem_of_In.
Qed.

Lemma fan_length (face : list Z) : length (fan face) = (length face - 2)%nat.
Proof. unfold fan. now rewrite length_map, length_seq. Qed.

Lemma fan_lookup (face : list Z) (i : nat) :
  (1 <= i <= length face - 2)%nat ->
  fan face !! (i - 1)%nat = Some [0; nth 0 face 0; nth i face 0; nth (S i) face 0].
Proof.
  intros Hi. unfold fan. rewrite list_lookup_fmap.
  rewrite lookup_seq_lt by lia. replace (1 + (i - 1))%nat with i by lia.
  reflexivity.
Qed.

(** C3. The walk over the face-vertex list of a cell retains exactly the
    faces that do not contain vertex index 0, and emits for each retained
    face with k vertices, in the order of the walk, the k-2 tetrahedra
    (0, face[0], face[i], face[i+1]), i = 1..k-2. *)
Theorem face_walk_fans (verts : list Q) (faces : list (list Z)) (fuel : nat) :
  valid_cell verts faces = true -> (length faces < fuel)%nat ->
  exists d,
    face_walk fuel verts (encode_faces faces) 0 decomp_init = Done d /\
    t_vert d = concat (concat (map fan (retained faces))) /\
    (forall face, face ∈ retained faces <-> face ∈ faces /\ 0 ∉ face) /\
    (forall face,
        length (fan face) = (length face - 2)%nat /\
        forall i, (1 <= i <= length face - 2)%nat ->
          fan face !! (i - 1)%nat
            = Some [0; nth 0 face 0; nth i face 0; nth (S i) face 0]).
Proof.
  intros Hv Hfuel. exists (emit verts (tetrahedra faces) decomp_init).
  split; [now apply face_walk_emit |]. split.
  - destruct (emit_shape verts (tetrahedra faces) decomp_init) as (E & _).
    rewrite E. reflexivity.
  - split.
    + intros face. unfold retained. rewrite list_elem_of_filter, has_vertex0_spec. tauto.
    + intros face. split; [apply fan_length | apply fan_lookup].
Qed.

(** The witness: the unit cube, whose three faces away from vertex 0 give
    six tetrahedra. *)
Lemma face_walk_fans_witness :
  exists d,
    face_walk 7 cube_vertices (encode_faces cube_faces) 0 decomp_init = Done d /\
    t_vert d = concat (concat (map fan (retained cube_faces))) /\
    (forall face, face ∈ retained cube_faces <-> face ∈ cube_faces /\ 0 ∉ face) /\
    (forall face,
        length (fan face) = (length face - 2)%nat /\
        forall i, (1 <= i <= length face - 2)%nat ->
          fan face !! (i - 1)%nat
            = Some [0; nth 0 face 0; nth i face 0; nth (S i) face 0]).
Proof.
  apply (face_walk_fans cube_vertices cube_faces 7); [reflexivity | simpl; lia].
Defined.

Example cube_tetrahedra :
  tetrahedra cube_faces
    = [[0; 1; 3; 7]; [0; 1; 7; 5]; [0; 2; 6; 7]; [0; 2; 7; 3]; [0; 4; 5; 7]; [0; 4; 7; 6]].
Proof. reflexivity. Qed.

(** ** Cumulative volumes *)

Lemma running_sums_ge (acc : Q) (vols : list Q) :
  Forall (fun v => (0 <= v)%Q) vols ->
  forall x, x ∈ running_sums acc vols -> (acc <= x)%Q.
Proof.
  intros H. revert acc. induction H as [| v vols Hv _ IH]; intros acc x Hx.
  - inversion Hx.
  - simpl in Hx. apply elem_of_cons in Hx as [-> | Hx]; [lra |].
    apply IH in Hx. lra.
Qed.

Lemma running_sums_nondecreasing (acc : Q) (vols : list Q) :
  Forall (fun v => (0 <= v)%Q) vols -> nondecreasing (running_sums acc vols).
Proof.
  intros H. revert acc. induction H as [| v vols Hv Hvols IH]; intros acc i j x y Hij Hx Hy.
  - discriminate.
  - destruct i as [| i], j as [| j]; simpl in Hx, Hy.
    + injection Hx as <-. injection Hy as <-. lra.
    + injection Hx as <-.
      apply (running_sums_ge _ _ Hvols), list_elem_of_lookup. eauto.
    + lia.
    + apply (IH (acc + v)%Q i j x y); [lia | assumption | assumption].
Qed.

Lemma running_sums_last (acc : Q) (vols : list Q) (x : Q) :
  last (running_sums acc vols) = Some x -> (x == acc + Qsum vols)%Q.
Proof.
  revert acc. induction vols as [| v vols IH]; intros acc H; [discriminate |].
  simpl in H. destruct vols as [| v' vols].
  - injection H as <-. simpl. lra.
  - change (running_sums (acc + v) (v' :: vols))
      with ((acc + v + v')%Q :: running_sums (acc + v + v') vols) in H.
    rewrite last_cons_cons in H.
    change ((acc + v + v')%Q :: running_sums (acc + v + v') vols)
      with (running_sums (acc + v) (v' :: vols)) in H.
    apply IH in H. rewrite H. simpl. lra.
Qed.

Lemma running_sums_length (acc : Q) (vols : list Q) :
  length (running_sums acc vols) = length vols.
Proof.
  revert acc. induction vols as [| v vols IH]; intros acc; simpl; [| rewrite IH]; reflexivity.
Qed.

Lemma tetra_vols_nonneg (verts : list Q) (tets : list (list Z)) :
  Forall (fun v => (0 <= v)%Q) (map (tetra_vol verts) tets).
Proof.
  induction tets as [| tet tets IH]; cbn [map]; constructor;
    [unfold tetra_vol; apply volume_of_nonneg | exact IH].
Qed.

(** C4. [tetra_volume] returns |det(v1-v0, v2-v0, v3-v0)|/6, which is not
    negative; the cumulative volumes of a cell are the running sums of the
    volumes of its tetrahedra in emission order, they never decrease, and
    the last of them is the sum of all the volumes. *)
Theorem cumulative_volumes (verts : list Q) (faces : list (list Z)) (fuel : nat) :
  valid_cell verts faces = true -> (length faces < fuel)%nat ->
  (forall v0 v1 v2 v3 : Z,
      valid_vertex verts v0 = true -> valid_vertex verts v1 = true ->
      valid_vertex verts v2 = true -> valid_vertex verts v3 = true ->
      exists t_vol,
        tetra_volume (verts, v0 * 3) (verts, v1 * 3) (verts, v2 * 3) (verts, v3 * 3)
          = Done t_vol /\
        t_vol = volume_of verts v0 v1 v2 v3 /\
        (0 <= t_vol)%Q /\
        (t_vol ==
           Qabs (det_sarrus
                   (coord verts v1 0 - coord verts v0 0) (coord verts v1 1 - coord verts v0 1)
                   (coord verts v1 2 - coord verts v0 2)
                   (coord verts v2 0 - coord verts v0 0) (coord verts v2 1 - coord verts v0 1)
                   (coord verts v2 2 - coord verts v0 2)
                   (coord verts v3 0 - coord verts v0 0) (coord verts v3 1 - coord verts v0 1)
                   (coord verts v3 2 - coord verts v0 2)) / 6)%Q) /\
  exists d,
    face_walk fuel verts (encode_faces faces) 0 decomp_init = Done d /\
    let vols := map (tetra_vol verts) (tetrahedra faces) in
    c_vol d = running_sums 0 vols /\
    length (c_vol d) = length (tetrahedra faces) /\
    nondecreasing (c_vol d) /\
    (forall total, last (c_vol d) = Some total -> (total == Qsum vols)%Q).
Proof.
  intros Hv Hfuel. split.
  - intros v0 v1 v2 v3 H0 H1 H2 H3. exists (volume_of verts v0 v1 v2 v3).
    split; [now apply tetra_volume_valid |]. split; [reflexivity |].
    split; [apply volume_of_nonneg |].
    unfold volume_of. now rewrite det3_sarrus.
  - exists (emit verts (tetrahedra faces) decomp_init).
    split; [now apply face_walk_emit |].
    destruct (emit_shape verts (tetrahedra faces) decomp_init) as (_ & E & _).
    simpl in E. intros vols. fold vols in E. rewrite E.
    split; [reflexivity |]. split.
    + unfold vols. now rewrite running_sums_length, length_map.
    + split.
      * apply running_sums_nondecreasing, tetra_vols_nonneg.
      * intros total Ht. apply running_sums_last in Ht. rewrite Ht. lra.
Qed.

(** The witness: the unit cube; its six tetrahedra have volume 1/6 each. *)
Lemma cumulative_volumes_witness :
  exists d,
    face_walk 7 cube_vertices (encode_faces cube_faces) 0 decomp_init = Done d /\
    let vols := map (tetra_vol cube_vertices) (tetrahedra cube_faces) in
    c_vol d = running_sums 0 vols /\
    length (c_vol d) = length (tetrahedra cube_faces) /\
    nondecreasing (c_vol d) /\
    (forall total, last (c_vol d) = Some total -> (total == Qsum vols)%Q).
Proof.
  refine (proj2 (cumulative_volumes cube_vertices cube_faces 7 eq_refl _)).
  simpl. lia.
Defined.

Example cube_c_vol :
  Forall2 Qeq (running_sums 0 (map (tetra_vol cube_vertices) (tetrahedra cube_faces)))
          [1 # 6; 2 # 6; 3 # 6; 4 # 6; 5 # 6; 1]%Q.
Proof. repeat constructor. Qed.

(** ** Degenerate decompositions *)

Lemma Qsum_nonneg (vols : list Q) :
  Forall (fun v => (0 <= v)%Q) vols -> (0 <= Qsum vols)%Q.
Proof.
  induction 1 as [| v vols Hv _ IH]; simpl; [lra | lra].
Qed.

Lemma running_sums_le_total (acc : Q) (vols : list Q) :
  Forall (fun v => (0 <= v)%Q) vols ->
  forall x, x ∈ running_sums acc vols -> (x <= acc + Qsum vols)%Q.
Proof.
  intros H. revert acc. induction H as [| v vols Hv Hvols IH]; intros acc x Hx.
  - inversion Hx.
  - simpl in Hx. apply elem_of_cons in Hx as [-> | Hx].
    + pose proof (Qsum_nonneg vols Hvols). simpl. lra.
    + apply IH in Hx. simpl. lra.
Qed.

Lemma upper_bound_end (c_vol : list Q) (r_vol : Q) :
  (forall x, x ∈ c_vol -> (x <= r_vol)%Q) ->
  upper_bound c_vol r_vol = length c_vol.
Proof.
  induction c_vol as [| x c_vol IH]; intros H; [reflexivity |].
  simpl. assert (E : Qltb r_vol x = false).
  { apply Qltb_ge, H. now left. }
  rewrite E, IH; [reflexivity |]. intros y Hy. apply H. now right.
Qed.

(** With every cumulative volume at most 0 and a zero factor, each draw of
    the selection lands past the end and is repeated: the loop stores
    nothing and never finishes. *)
Lemma sample_loop_stuck (RAND_MAX : Z) (rand_out : nat -> Z) (verts : list Q)
    (d : decomp) (c_factor : Q) (idx n_samples i : Z) :
  (forall x, x ∈ c_vol d -> (x <= 0)%Q) -> (c_factor == 0)%Q -> i < n_samples ->
  forall (fuel calls : nat) (spoints : ptr dcell),
    sample_loop RAND_MAX rand_out fuel verts d c_factor idx n_samples i calls spoints
      = OutOfFuel.
Proof.
  intros Hle Hc Hi. induction fuel as [| fuel IH]; intros calls spoints; [reflexivity |].
  cbn [sample_loop]. apply Z.ltb_lt in Hi. rewrite Hi.
  unfold rand. cbv zeta.
  rewrite upper_bound_end.
  - rewrite Nat.eqb_refl. apply IH.
  - intros x Hx. apply Hle in Hx. rewrite Hc. lra.
Qed.

(** A decomposition that is not empty and has a total volume of at most 0:
    the last cumulative volume is 0 and every draw of the selection lands
    past the end. *)
Lemma degenerate_draws (RAND_MAX : Z) (verts : list Q) (faces : list (list Z))
    (fuel : nat) (d : decomp) :
  valid_cell verts faces = true ->
  tetrahedra faces <> [] ->
  (Qsum (map (tetra_vol verts) (tetrahedra faces)) <= 0)%Q ->
  face_walk fuel verts (encode_faces faces) 0 decomp_init = Done d ->
  exists total,
    back (c_vol d) = Done total /\ (total == 0)%Q /\
    (forall x, x ∈ c_vol d -> (x <= 0)%Q) /\
    forall r : Z,
      upper_bound (c_vol d) (inject_Z r * (total / (inject_Z RAND_MAX + 1)))%Q
      = length (c_vol d).
Proof.
  intros Hv Hne Htot Hd.
  destruct (Nat.le_gt_cases fuel (length faces)) as [Hfuel | Hfuel];
    [rewrite face_walk_starved in Hd by assumption; discriminate |].
  rewrite face_walk_emit in Hd by assumption. injection Hd as <-.
  destruct (emit_shape verts (tetrahedra faces) decomp_init) as (_ & E & _).
  simpl in E. rewrite E.
  set (vols := map (tetra_vol verts) (tetrahedra faces)) in *.
  assert (Hpos : Forall (fun v => (0 <= v)%Q) vols) by apply tetra_vols_nonneg.
  pose proof (Qsum_nonneg vols Hpos) as H0.
  assert (Hle : forall x, x ∈ running_sums 0 vols -> (x <= 0)%Q).
  { intros x Hx. apply (running_sums_le_total 0 vols Hpos) in Hx. lra. }
  destruct (last (running_sums 0 vols)) as [total |] eqn:El.
  - exists total. unfold back. rewrite El.
    pose proof (running_sums_last _ _ _ El) as Et.
    assert (Ez : (total == 0)%Q) by lra.
    split; [reflexivity |]. split; [exact Ez |]. split; [exact Hle |].
    intros r. apply upper_bound_end. intros x Hx. apply Hle in Hx.
    rewrite Ez. unfold Qdiv. rewrite Qmult_0_l, Qmult_0_r. exact Hx.
  - apply last_None in El. exfalso. apply Hne.
    assert (Hlen : length (running_sums 0 vols) = 0%nat) by now rewrite El.
    rewrite running_sums_length in Hlen. unfold vols in Hlen.
    rewrite length_map in Hlen. now apply nil_length_inv.
Qed.

(** The sampling of such a cell, lines 280-334, returns for no amount of
    fuel. *)
Lemma sample_cell_stuck (RAND_MAX : Z) (rand_out : nat -> Z) (verts : list Q)
    (faces : list (list Z)) (idx n_samples : Z) (calls : nat) (spoints : ptr dcell) :
  valid_cell verts faces = true ->
  tetrahedra faces <> [] ->
  (Qsum (map (tetra_vol verts) (tetrahedra faces)) <= 0)%Q ->
  1 <= n_samples ->
  forall fuel,
    sample_cell RAND_MAX rand_out fuel verts (encode_faces faces)
                idx n_samples calls spoints = OutOfFuel.
Proof.
  intros Hv Hne Htot Hn fuel. unfold sample_cell.
  destruct (face_walk fuel verts (encode_faces faces) 0 decomp_init) as [d | e | |] eqn:Ed.
  - destruct (degenerate_draws RAND_MAX verts faces fuel d Hv Hne Htot Ed)
      as (total & Eb & Ez & Hle & _).
    cbn [bind]. rewrite Eb. cbn [bind].
    apply sample_loop_stuck; [exact Hle | | lia].
    rewrite Ez. unfold Qdiv. apply Qmult_0_l.
  - destruct (Nat.le_gt_cases fuel (length faces)) as [Hfuel | Hfuel].
    + rewrite face_walk_starved in Ed by assumption. discriminate.
    + rewrite face_walk_emit in Ed by assumption. discriminate.
  - destruct (Nat.le_gt_cases fuel (length faces)) as [Hfuel | Hfuel].
    + rewrite face_walk_starved in Ed by assumption. discriminate.
    + rewrite face_walk_emit in Ed by assumption. discriminate.
  - reflexivity.
Qed.

(** C2, as amended.  When sampling a cell whose decomposition is not empty
    and has a total volume of at most 0, with at least one sample asked for,
    the last cumulative volume is 0, every draw of the selection lands past
    the end and is repeated, and the loop of lines 320-334 does not
    terminate: the sampling of the cell returns for no amount of fuel, and
    raises no error. *)
Theorem sample_cell_degenerate (RAND_MAX : Z) (rand_out : nat -> Z) (verts : list Q)
    (faces : list (list Z)) (idx n_samples : Z) (calls : nat) (spoints : ptr dcell) :
  valid_cell verts faces = true ->
  tetrahedra faces <> [] ->
  (Qsum (map (tetra_vol verts) (tetrahedra faces)) <= 0)%Q ->
  1 <= n_samples ->
  (forall (fuel : nat) (d : decomp),
      face_walk fuel verts (encode_faces faces) 0 decomp_init = Done d ->
      exists total,
        back (c_vol d) = Done total /\ (total == 0)%Q /\
        forall r : Z,
          upper_bound (c_vol d) (inject_Z r * (total / (inject_Z RAND_MAX + 1)))%Q
          = length (c_vol d)) /\
  never_returns (fun fuel =>
    sample_cell RAND_MAX rand_out fuel verts (encode_faces faces)
                idx n_samples calls spoints).
Proof.
  intros Hv Hne Htot Hn. split.
  - intros fuel d Hd.
    destruct (degenerate_draws RAND_MAX verts faces fuel d Hv Hne Htot Hd)
      as (total & Eb & Ez & _ & Hub).
    exists total. auto.
  - intros fuel. now apply sample_cell_stuck.
Qed.

(** The witness: the cell collapsed to a point, one sample asked for. *)
Lemma sample_cell_degenerate_witness :
  never_returns (fun fuel =>
    sample_cell RAND_MAX_glibc rand_lcg fuel flat_vertices (encode_faces cube_faces)
                0 1 0 (malloc Indet 3)).
Proof.
  refine (proj2 (sample_cell_degenerate RAND_MAX_glibc rand_lcg flat_vertices cube_faces
                                        0 1 0 (malloc Indet 3) eq_refl _ _ _)).
  - discriminate.
  - vm_compute. discriminate.
  - lia.
Defined.

(** The decomposition of a cell all of whose faces pass through vertex 0 is
    empty, and [c_vol.back()] is then undefined. *)
Lemma sample_cell_empty (RAND_MAX : Z) (rand_out : nat -> Z) (verts : list Q)
    (faces : list (list Z)) (idx n_samples : Z) (calls fuel : nat) (spoints : ptr dcell) :
  valid_cell verts faces = true -> tetrahedra faces = [] -> (length faces < fuel)%nat ->
  sample_cell RAND_MAX rand_out fuel verts (encode_faces faces)
              idx n_samples calls spoints = Undefined.
Proof.
  intros Hv He Hfuel. unfold sample_cell.
  rewrite face_walk_emit by assumption. now rewrite He.
Qed.

(** ** The wrapper: sampling a degenerate cell *)

Lemma cell_step_starved (RAND_MAX : Z) (rand_out : nat -> Z)
    (fuel : nat) (inp : inputs) (c : cell) (w w1 : work) :
  cell_geometry inp c w = Done w1 ->
  with_sampling inp = true ->
  sample_cell RAND_MAX rand_out fuel (c_vertices c) (c_face_vertices c)
              (c_idx c) (n_samples inp) (calls w1) (spoints w1) = OutOfFuel ->
  cell_step RAND_MAX rand_out fuel inp c w = OutOfFuel.
Proof.
  intros Hg Hs Hc. unfold cell_step. rewrite Hg. cbn [bind].
  rewrite Hs. cbn [negb]. now rewrite Hc.
Qed.

Lemma compute_starved (RAND_MAX : Z) (rand_out : nat -> Z) (cbrt fl : Q -> Q)
    (engine : container -> outcome (list cell)) (what : string)
    (fuel : nat) (inp : inputs) (con : container) (w : work) (c : cell) (rest : list cell) :
  prepare cbrt fl what inp = Done (con, w) ->
  engine con = Done (c :: rest) ->
  cell_step RAND_MAX rand_out fuel inp c w = OutOfFuel ->
  compute RAND_MAX rand_out cbrt fl engine what fuel inp = OutOfFuel.
Proof.
  intros Hp He Hc. unfold compute. rewrite Hp. cbn [bind fst snd].
  rewrite He. cbn [bind cells_loop]. now rewrite Hc.
Qed.

Lemma wrap_starved (RAND_MAX : Z) (rand_out : nat -> Z) (cbrt fl : Q -> Q)
    (engine : container -> outcome (list cell)) (what : string)
    (fuel : nat) (inp : inputs) (o : outputs) :
  compute RAND_MAX rand_out cbrt fl engine what fuel inp = OutOfFuel ->
  hyperion_voropp_wrap RAND_MAX rand_out cbrt fl engine what fuel inp o = (OutOfFuel, o).
Proof.
  intros H. unfold hyperion_voropp_wrap, try_block, bind_run, lift. now rewrite H.
Qed.

(** C2, as stated, fails.  One site in the unit box whose cell the engine
    yields collapsed to a point (a decomposition of six tetrahedra of
    volume 0), one sample asked for: the call returns for no amount of
    fuel, so no error message is ever returned. *)
Lemma wrap_degenerate_never_returns :
  valid_cell flat_vertices cube_faces = true /\
  length (tetrahedra cube_faces) = 6%nat /\
  (Qsum (map (tetra_vol flat_vertices) (tetrahedra cube_faces)) == 0)%Q /\
  never_returns (fun fuel =>
    fst (hyperion_voropp_wrap RAND_MAX_glibc rand_lcg cbrt_fix fl53 flat_engine
                              length_error_gnu fuel flat_inputs outputs0)).
Proof.
  split; [reflexivity |]. split; [reflexivity |]. split; [reflexivity |].
  intros fuel. rewrite wrap_starved; [reflexivity |].
  eapply compute_starved.
  - vm_compute. reflexivity.
  - reflexivity.
  - eapply cell_step_starved.
    + vm_compute. reflexivity.
    + reflexivity.
    + apply (sample_cell_stuck RAND_MAX_glibc rand_lcg flat_vertices cube_faces).
      * reflexivity.
      * discriminate.
      * vm_compute. discriminate.
      * cbn. lia.
Qed.

(** ** Neighbour symmetrizer *)

Lemma site_ids_P (n_list : list (list Z)) : site_ids n_list = true -> site_idsP n_list.
Proof.
  unfold site_ids, site_idsP. intros H x row v Hx Hv.
  rewrite forallb_forall in H.
  assert (Hrow : In row n_list) by (apply list_elem_of_In, list_elem_of_lookup; eauto).
  apply H in Hrow. rewrite forallb_forall in Hrow.
  apply list_elem_of_In in Hv. apply Hrow in Hv. now apply Z.ltb_lt.
Qed.

Lemma P_site_ids (n_list : list (list Z)) : site_idsP n_list -> site_ids n_list = true.
Proof.
  unfold site_ids, site_idsP. intros H.
  apply forallb_forall. intros row Hrow.
  apply list_elem_of_In, list_elem_of_lookup in Hrow as [x Hx].
  apply forallb_forall. intros v Hv. apply Z.ltb_lt.
  apply (H x row v Hx). now apply list_elem_of_In.
Qed.

Lemma existsb_eqb_elem (x : Z) (l : list Z) : existsb (Z.eqb x) l = true <-> x ∈ l.
Proof.
  rewrite existsb_exists. split.
  - intros [y [Hy E]]. apply Z.eqb_eq in E. subst y. now apply list_elem_of_In.
  - intros H. exists x. split; [now apply list_elem_of_In | apply Z.eqb_refl].
Qed.

Lemma grows_refl (a : nat) (nl : list (list Z)) : grows a nl nl.
Proof.
  split; [reflexivity |]. split; [reflexivity |].
  intros x row Hx. exists []. rewrite app_nil_r. split; [exact Hx |].
  intros y Hy. inversion Hy.
Qed.

Lemma grows_mono (a : nat) (nl nl' : list (list Z)) (x : nat) (y : Z) :
  grows a nl nl' -> neighbor nl x y -> neighbor nl' x y.
Proof.
  intros (_ & _ & Hg) [row [Hx Hy]].
  destruct (Hg x row Hx) as [added [Hx' _]].
  exists (row ++ added). split; [exact Hx' |].
  apply elem_of_app. now left.
Qed.

Lemma grows_new (a : nat) (nl nl' : list (list Z)) (x : nat) (y : Z) :
  grows a nl nl' -> neighbor nl' x y ->
  neighbor nl x y \/ (y = Z.of_nat a /\ neighbor nl a (Z.of_nat x)).
Proof.
  intros (Hlen & _ & Hg) [row' [Hx' Hy]].
  assert (Hlt : (x < length nl)%nat).
  { rewrite <- Hlen. apply lookup_lt_is_Some. eauto. }
  apply lookup_lt_is_Some in Hlt as [row Hx].
  destruct (Hg x row Hx) as [added [Hx'' Hadd]].
  rewrite Hx' in Hx''. injection Hx'' as ->.
  apply elem_of_app in Hy as [Hy | Hy].
  - left. exists row. auto.
  - right. now apply Hadd.
Qed.

Lemma grows_trans (a : nat) (nl nl1 nl2 : list (list Z)) :
  grows a nl nl1 -> grows a nl1 nl2 -> grows a nl nl2.
Proof.
  intros (L1 & A1 & G1) (L2 & A2 & G2).
  split; [congruence |]. split; [congruence |].
  intros x row Hx.
  destruct (G1 x row Hx) as [add1 [Hx1 Hadd1]].
  destruct (G2 x _ Hx1) as [add2 [Hx2 Hadd2]].
  exists (add1 ++ add2). rewrite app_assoc. split; [exact Hx2 |].
  intros y Hy. apply elem_of_app in Hy as [Hy | Hy]; [now apply Hadd1 |].
  destruct (Hadd2 y Hy) as [-> [row1 [Ha Hin]]].
  split; [reflexivity |]. exists row1. split; [congruence | exact Hin].
Qed.

Lemma grows_site_ids (a : nat) (nl nl' : list (list Z)) :
  (a < length nl)%nat -> grows a nl nl' -> site_idsP nl -> site_idsP nl'.
Proof.
  intros Ha Hg Hwf x row' v Hx' Hv.
  destruct Hg as (Hlen & Hrow & Hg). rewrite Hlen.
  assert (Hlt : (x < length nl)%nat).
  { rewrite <- Hlen. apply lookup_lt_is_Some. eauto. }
  apply lookup_lt_is_Some in Hlt as [row Hx].
  destruct (Hg x row Hx) as [added [Hx'' Hadd]].
  rewrite Hx' in Hx''. injection Hx'' as ->.
  apply elem_of_app in Hv as [Hv | Hv].
  - now apply (Hwf x row).
  - apply Hadd in Hv as [-> _]. lia.
Qed.

Lemma repaired_grows (a : nat) (nl nl' : list (list Z)) :
  grows a nl nl' -> repaired a nl -> repaired a nl'.
Proof.
  intros Hg Hr a' b Ha' Hn.
  destruct (grows_new a nl nl' a' (Z.of_nat b) Hg Hn) as [Hold | [Eb Hback]].
  - apply (grows_mono a nl nl'); [exact Hg |]. now apply Hr.
  - apply Nat2Z.inj in Eb. subst b. now apply (grows_mono a nl nl').
Qed.

(** One turn of the inner loop, at position [i] of the list of site [a]. *)
Lemma sym_step_grows (nl : list (list Z)) (a i : nat) (row : list Z) (v : Z) :
  site_idsP nl -> nl !! a = Some row -> row !! i = Some v ->
  exists nl',
    sym_step nl (Z.of_nat a) (Z.of_nat i) = Done nl' /\
    grows a nl nl' /\
    (0 <= v -> neighbor nl' (Z.to_nat v) (Z.of_nat a)).
Proof.
  intros Hwf Ha Hi. unfold sym_step.
  rewrite (read_nat nl a row Ha). cbn [bind].
  rewrite (read_nat row i v Hi). cbn [bind].
  destruct (Z.leb_spec 0 v) as [Hv | Hv].
  - assert (Hin : v ∈ row) by (apply list_elem_of_lookup; eauto).
    assert (Hlt : v < Z.of_nat (length nl)) by now apply (Hwf a row).
    assert (Hb : (Z.to_nat v < length nl)%nat) by lia.
    destruct (lookup_lt_is_Some_2 nl (Z.to_nat v) Hb) as [other Hother].
    assert (Er : read nl v = Done other) by (apply read_Done; auto).
    rewrite Er. cbn [bind].
    destruct (existsb (Z.eqb (Z.of_nat a)) other) eqn:Ex.
    + exists nl. split; [reflexivity |]. split; [apply grows_refl |].
      intros _. exists other. split; [exact Hother |].
      now apply existsb_eqb_elem.
    + assert (Hnot : Z.of_nat a ∉ other).
      { intros H. apply existsb_eqb_elem in H. congruence. }
      assert (Hne : Z.to_nat v <> a).
      { intros E. rewrite E in Hother. rewrite Ha in Hother. injection Hother as <-.
        apply Hnot. rewrite <- E. now rewrite Z2Nat.id. }
      exists (<[Z.to_nat v := other ++ [Z.of_nat a]]> nl).
      split.
      { unfold assign, lt_size.
        replace ((0 <=? v) && (v <? Z.of_nat (length nl))) with true; [reflexivity |].
        symmetry. apply andb_true_iff. rewrite Z.leb_le, Z.ltb_lt. lia. }
      split.
      * split; [apply length_insert |].
        split; [now apply list_lookup_insert_ne |].
        intros x rowx Hx. destruct (decide (x = Z.to_nat v)) as [-> | Hxv].
        -- rewrite Hother in Hx. injection Hx as <-.
           exists [Z.of_nat a]. split; [now apply list_lookup_insert_eq |].
           intros y Hy. apply list_elem_of_singleton in Hy as ->.
           split; [reflexivity |]. exists row. split; [exact Ha |].
           now rewrite Z2Nat.id.
        -- exists []. rewrite app_nil_r.
           split; [rewrite list_lookup_insert_ne; auto |].
           intros y Hy. inversion Hy.
      * intros _. exists (other ++ [Z.of_nat a]).
        split; [now apply list_lookup_insert_eq |].
        apply elem_of_app. right. now apply list_elem_of_singleton.
  - exists nl. split; [reflexivity |]. split; [apply grows_refl | lia].
Qed.

(** The inner loop over the list of site [a], from position [j] on. *)
Lemma sym_row_grows (a : nat) (row : list Z) (m : nat) :
  forall (j : nat) (nl : list (list Z)),
    (length row - j = m)%nat -> (j <= length row)%nat ->
    site_idsP nl -> nl !! a = Some row -> repaired a nl ->
    (forall i b : nat, (i < j)%nat -> row !! i = Some (Z.of_nat b) ->
                       neighbor nl b (Z.of_nat a)) ->
    exists nl',
      (forall fuel, (m < fuel)%nat ->
                    sym_row fuel nl (Z.of_nat a) (Z.of_nat j) = Done nl') /\
      grows a nl nl' /\ site_idsP nl' /\ repaired (S a) nl'.
Proof.
  induction m as [| m IH]; intros j nl Hm Hj Hwf Ha Hrep Hdone.
  - exists nl. split.
    + intros [| fuel] Hfuel; [lia |]. cbn [sym_row].
      rewrite (read_nat nl a row Ha). cbn [bind].
      replace (Z.of_nat j <? Z.of_nat (length row)) with false; [reflexivity |].
      symmetry. apply Z.ltb_ge. lia.
    + split; [apply grows_refl |]. split; [exact Hwf |].
      intros a' b Ha' Hn. destruct (decide (a' = a)) as [-> | Hne].
      * destruct Hn as [row' [Hrow' Hin]]. rewrite Ha in Hrow'. injection Hrow' as <-.
        apply list_elem_of_lookup in Hin as [i Hi].
        apply (Hdone i b); [| exact Hi].
        apply lookup_lt_Some in Hi. lia.
      * apply Hrep; [lia | exact Hn].
  - assert (Hlt : (j < length row)%nat) by lia.
    destruct (lookup_lt_is_Some_2 row j Hlt) as [v Hv].
    destruct (sym_step_grows nl a j row v Hwf Ha Hv) as (nl1 & Estep & Hg1 & Hback).
    assert (Hlen : (a < length nl)%nat) by (apply lookup_lt_is_Some; eauto).
    assert (Ha1 : nl1 !! a = Some row).
    { destruct Hg1 as (_ & E & _). now rewrite E. }
    destruct (IH (S j) nl1) as (nl' & Hrun & Hg & Hwf' & Hrep').
    + lia.
    + lia.
    + now apply (grows_site_ids a nl).
    + exact Ha1.
    + now apply (repaired_grows a nl).
    + intros i b Hi Hib. destruct (decide (i = j)) as [-> | Hne].
      * rewrite Hv in Hib. injection Hib as ->.
        rewrite <- (Nat2Z.id b). apply Hback. lia.
      * apply (grows_mono a nl nl1); [exact Hg1 |].
        apply (Hdone i b); [lia | exact Hib].
    + exists nl'. split.
      * intros [| fuel] Hfuel; [lia |]. cbn [sym_row].
        rewrite (read_nat nl a row Ha). cbn [bind].
        replace (Z.of_nat j <? Z.of_nat (length row)) with true
          by (symmetry; apply Z.ltb_lt; lia).
        rewrite Estep. cbn [bind].
        replace (Z.of_nat j + 1) with (Z.of_nat (S j)) by lia.
        apply Hrun. lia.
      * split; [now apply (grows_trans a nl nl1) |]. split; assumption.
Qed.

Lemma extends_refl (nl : list (list Z)) : extends nl nl.
Proof.
  split; [reflexivity |]. intros x row Hx. exists []. rewrite app_nil_r.
  split; [exact Hx |]. intros y Hy. inversion Hy.
Qed.

Lemma extends_trans (nl nl1 nl2 : list (list Z)) :
  extends nl nl1 -> extends nl1 nl2 -> extends nl nl2.
Proof.
  intros (L1 & G1) (L2 & G2). split; [congruence |].
  intros x row Hx.
  destruct (G1 x row Hx) as [add1 [Hx1 Hadd1]].
  destruct (G2 x _ Hx1) as [add2 [Hx2 Hadd2]].
  exists (add1 ++ add2). rewrite app_assoc. split; [exact Hx2 |].
  intros y Hy. apply elem_of_app in Hy as [Hy | Hy]; [now apply Hadd1 |].
  rewrite <- L1. now apply Hadd2.
Qed.

Lemma grows_extends (a : nat) (nl nl' : list (list Z)) :
  (a < length nl)%nat -> grows a nl nl' -> extends nl nl'.
Proof.
  intros Ha (Hlen & _ & Hg). split; [exact Hlen |].
  intros x row Hx. destruct (Hg x row Hx) as [added [Hx' Hadd]].
  exists added. split; [exact Hx' |].
  intros y Hy. apply Hadd in Hy as [-> _]. lia.
Qed.

(** The outer loop, from site [a] on, with [k] sites left. *)
Lemma sym_loop_repairs (k : nat) :
  forall (a : nat) (nl : list (list Z)),
    (a + k = length nl)%nat -> site_idsP nl -> repaired a nl ->
    exists fuel0 nl',
      (forall fuel, (fuel0 <= fuel)%nat ->
                    sym_loop k fuel nl (Z.of_nat a) = Done nl') /\
      extends nl nl' /\ site_idsP nl' /\ repaired (length nl) nl'.
Proof.
  induction k as [| k IH]; intros a nl Hk Hwf Hrep.
  - exists O, nl. split; [reflexivity |]. split; [apply extends_refl |].
    split; [exact Hwf |]. now replace (length nl) with a by lia.
  - assert (Ha : (a < length nl)%nat) by lia.
    destruct (lookup_lt_is_Some_2 nl a Ha) as [row Hrow].
    destruct (sym_row_grows a row (length row) O nl) as (nl1 & Hrun1 & Hg1 & Hwf1 & Hrep1);
      [lia | lia | exact Hwf | exact Hrow | exact Hrep | intros i b Hi; lia |].
    assert (Hlen1 : length nl1 = length nl) by apply Hg1.
    destruct (IH (S a) nl1) as (fuel1 & nl' & Hrun & Hext & Hwf' & Hrep');
      [lia | exact Hwf1 | exact Hrep1 |].
    exists (Nat.max (S (length row)) fuel1), nl'. split.
    + intros fuel Hfuel. cbn [sym_loop].
      change 0 with (Z.of_nat 0). rewrite Hrun1 by lia. cbn [bind].
      replace (Z.of_nat a + 1) with (Z.of_nat (S a)) by lia.
      apply Hrun. lia.
    + split.
      * apply (extends_trans nl nl1); [now apply (grows_extends a) | exact Hext].
      * split; [exact Hwf' |]. now rewrite <- Hlen1.
Qed.

(** C1. With enough fuel the pass over the raw neighbour lists returns, the
    lists it returns are symmetric on site ids (b is in the list of a if and
    only if a is in the list of b), and every list is the raw list followed
    by appended site ids, none of them negative. *)
Theorem symmetrize_symmetric (n_list : list (list Z)) :
  site_ids n_list = true ->
  exists (fuel0 : nat) (n_list' : list (list Z)),
    (forall fuel, (fuel0 <= fuel)%nat ->
       symmetrize fuel (Z.of_nat (length n_list)) n_list = Done n_list') /\
    length n_list' = length n_list /\
    site_ids n_list' = true /\
    (forall a b : nat,
        neighbor n_list' a (Z.of_nat b) <-> neighbor n_list' b (Z.of_nat a)) /\
    (forall (a : nat) (row : list Z),
        n_list !! a = Some row ->
        exists added,
          n_list' !! a = Some (row ++ added) /\
          forall y, y ∈ added -> 0 <= y < Z.of_nat (length n_list)).
Proof.
  intros Hwf. apply site_ids_P in Hwf.
  destruct (sym_loop_repairs (length n_list) O n_list)
    as (fuel0 & nl' & Hrun & (Hlen & Hext) & Hwf' & Hrep);
    [lia | exact Hwf | intros a b Ha; lia |].
  exists fuel0, nl'. split.
  - intros fuel Hfuel. unfold symmetrize. rewrite Nat2Z.id. now apply Hrun.
  - split; [exact Hlen |]. split; [now apply P_site_ids |]. split; [| exact Hext].
    assert (Hhalf : forall a b : nat,
               neighbor nl' a (Z.of_nat b) -> neighbor nl' b (Z.of_nat a)).
    { intros a b Hn. apply Hrep; [| exact Hn].
      destruct Hn as [row [Ha _]]. rewrite <- Hlen. apply lookup_lt_is_Some. eauto. }
    intros a b. split; apply Hhalf.
Qed.

(** The witness: site 0 lists sites 1 and 2 and a wall, site 1 lists
    nothing, site 2 lists site 0. *)
Lemma symmetrize_symmetric_witness :
  exists (fuel0 : nat) (n_list' : list (list Z)),
    (forall fuel, (fuel0 <= fuel)%nat ->
       symmetrize fuel 3 [[1; 2; -1]; []; [0]] = Done n_list') /\
    length n_list' = 3%nat /\
    site_ids n_list' = true /\
    (forall a b : nat,
        neighbor n_list' a (Z.of_nat b) <-> neighbor n_list' b (Z.of_nat a)) /\
    (forall (a : nat) (row : list Z),
        [[1; 2; -1]; []; [0]] !! a = Some row ->
        exists added,
          n_list' !! a = Some (row ++ added) /\
          forall y, y ∈ added -> 0 <= y < 3).
Proof.
  apply (symmetrize_symmetric [[1; 2; -1]; []; [0]]). reflexivity.
Defined.

Example symmetrize_three :
  symmetrize 4 3 [[1; 2; -1]; []; [0]] = Done [[1; 2; -1]; [0]; [0]].
Proof. reflexivity. Qed.

(** An id that is not a site takes the pass outside the vector. *)
Example symmetrize_stray :
  symmetrize 4 3 [[1; 2; -1]; []; [5]] = Undefined.
Proof. reflexivity. Qed.

(** ** Ragged-to-dense packer *)

Lemma max_element_fold {A} (rest : list (list A)) (x : list A) :
  length (fold_left (fun result y =>
                       if (length result <? length y)%nat then y else result) rest x)
  = Nat.max (length x) (max_list_with length rest).
Proof.
  revert x. induction rest as [| y rest IH]; intros x; simpl.
  - lia.
  - rewrite IH. destruct (Nat.ltb_spec (length x) (length y)); lia.
Qed.

Lemma max_size_cons {A} (x : list A) (rest : list (list A)) :
  max_size (x :: rest) = Done (Z.of_nat (max_list_with length (x :: rest))).
Proof.
  unfold max_size, max_element. now rewrite max_element_fold.
Qed.

Lemma max_size_nil {A} : max_size (@nil (list A)) = Undefined.
Proof. reflexivity. Qed.

Lemma max_list_with_ge {A} (v : list (list A)) (i : nat) (row : list A) :
  v !! i = Some row -> (length row <= max_list_with length v)%nat.
Proof.
  revert i. induction v as [| x v IH]; intros i H; [discriminate |].
  destruct i as [| i]; simpl in *.
  - injection H as ->. lia.
  - apply IH in H. lia.
Qed.

Lemma max_list_with_attained {A} (v : list (list A)) :
  v <> [] -> exists row, row ∈ v /\ length row = max_list_with length v.
Proof.
  induction v as [| x v IH]; intros H; [contradiction |].
  destruct v as [| y v].
  - exists x. split; [now left |]. simpl. lia.
  - destruct IH as [row [Hin Hlen]]; [discriminate |].
    destruct (Nat.le_gt_cases (max_list_with length (y :: v)) (length x)).
    + exists x. split; [now left |].
      change (max_list_with length (x :: y :: v))
        with (Nat.max (length x) (max_list_with length (y :: v))). lia.
    + exists row. split; [now right |].
      change (max_list_with length (x :: y :: v))
        with (Nat.max (length x) (max_list_with length (y :: v))). lia.
Qed.

Lemma copy_at_Done {A} (src buf : list A) (off : nat) :
  (off + length src <= length buf)%nat ->
  copy_at src (Z.of_nat off) buf
    = Done (take off buf ++ src ++ drop (off + length src) buf).
Proof.
  intros H. unfold copy_at.
  replace ((Z.of_nat off <? 0)
           || (Z.of_nat (length buf) <? Z.of_nat off + Z.of_nat (length src)))
    with false.
  - now rewrite Nat2Z.id.
  - symmetry. rewrite orb_false_iff, !Z.ltb_ge. lia.
Qed.

(** A row written and padded, lines 359-361. *)
Lemma store_fill {A} (src : list A) (pad : A) (width off : nat) (cells : list A) :
  (length src <= width)%nat -> (off + width <= length cells)%nat ->
  (let* buf := store_at src (Z.of_nat off) (Buf cells) in
   fill_ptr (Z.of_nat off + Z.of_nat (length src)) (Z.of_nat off + Z.of_nat width) pad buf)
  = Done (Buf (take off cells ++ (src ++ replicate (width - length src) pad)
                 ++ drop (off + width) cells)).
Proof.
  intros Hs Hw. unfold store_at.
  rewrite copy_at_Done by lia. cbn [bind]. unfold fill_ptr, fill_at.
  replace (Z.of_nat off + Z.of_nat width <? Z.of_nat off + Z.of_nat (length src))
    with false by (symmetry; apply Z.ltb_ge; lia).
  replace (Z.to_nat (Z.of_nat off + Z.of_nat width - (Z.of_nat off + Z.of_nat (length src))))
    with (width - length src)%nat by lia.
  replace (Z.of_nat off + Z.of_nat (length src)) with (Z.of_nat (off + length src)) by lia.
  set (cells1 := take off cells ++ src ++ drop (off + length src) cells).
  assert (Hlen1 : length cells1 = length cells).
  { unfold cells1. rewrite !length_app, length_take, length_drop. lia. }
  rewrite copy_at_Done by (rewrite length_replicate; lia).
  cbn [bind]. do 2 f_equal.
  assert (Etake : take (off + length src) cells1 = take off cells ++ src).
  { unfold cells1. rewrite app_assoc. apply take_app_length'.
    rewrite length_app, length_take. lia. }
  assert (Edrop : drop (off + length src + length (replicate (width - length src) pad)) cells1
                  = drop (off + width) cells).
  { unfold cells1. rewrite length_replicate, app_assoc.
    replace (off + length src + (width - length src))%nat
      with (length (take off cells ++ src) + (width - length src))%nat
      by (rewrite length_app, length_take; lia).
    rewrite drop_app_add, drop_drop. f_equal. lia. }
  rewrite Etake, Edrop. now rewrite <- !app_assoc.
Qed.

(** The filling loop from row [idx] on: every row from [idx] on holds its
    list followed by the padding, and the rows before [idx] are as they
    were. *)
Lemma pack_loop_rows {A B} (inj : A -> B) (pad : B) (width : nat) (rows : list (list A)) :
  (forall i row, rows !! i = Some row -> (length row <= width)%nat) ->
  forall (n idx : nat) (cells : list B),
    (idx + n = length rows)%nat -> length cells = (length rows * width)%nat ->
    exists cells',
      pack_loop n inj pad (Z.of_nat width) rows (Z.of_nat idx) (Buf cells)
        = Done (Buf cells') /\
      length cells' = length cells /\
      take (width * idx) cells' = take (width * idx) cells /\
      forall i row, (idx <= i)%nat -> rows !! i = Some row ->
        take width (drop (width * i) cells')
          = map inj row ++ replicate (width - length row) pad.
Proof.
  intros Hw. induction n as [| n IH]; intros idx cells Hn Hlen.
  - exists cells. split; [reflexivity |]. split; [reflexivity |]. split; [reflexivity |].
    intros i row Hi Hrow. apply lookup_lt_Some in Hrow. lia.
  - assert (Hidx : (idx < length rows)%nat) by lia.
    destruct (lookup_lt_is_Some_2 rows idx Hidx) as [row Hrow].
    pose proof (Hw idx row Hrow) as Hrw.
    assert (Hfit : (width * idx + width <= length cells)%nat) by nia.
    cbn [pack_loop]. rewrite (read_nat rows idx row Hrow). cbn [bind].
    replace (Z.of_nat width * Z.of_nat idx) with (Z.of_nat (width * idx)) by lia.
    pose proof (store_fill (map inj row) pad width (width * idx) cells) as Hsf.
    rewrite length_map in Hsf. specialize (Hsf Hrw Hfit).
    set (cells2 := take (width * idx) cells
                   ++ (map inj row ++ replicate (width - length row) pad)
                   ++ drop (width * idx + width) cells) in *.
    assert (Hlen2 : length cells2 = length cells).
    { unfold cells2. rewrite !length_app, length_take, length_drop, length_map,
        length_replicate. lia. }
    destruct (store_at (map inj row) (Z.of_nat (width * idx)) (Buf cells)) as [buf | | |];
      cbn [bind] in Hsf |- *; try discriminate.
    rewrite Hsf. cbn [bind].
    destruct (IH (S idx) cells2) as (cells' & Hrun & Hlen' & Hpre & Hrows);
      [lia | lia |].
    replace (Z.of_nat idx + 1) with (Z.of_nat (S idx)) by lia.
    exists cells'. split; [exact Hrun |]. split; [lia |].
    assert (Hpre2 : take (width * idx + width) cells'
                    = take (width * idx) cells
                      ++ map inj row ++ replicate (width - length row) pad).
    { replace (width * idx + width)%nat with (width * S idx)%nat by lia.
      rewrite Hpre. unfold cells2. rewrite app_assoc. apply take_app_length'.
      rewrite !length_app, length_take, length_map, length_replicate. lia. }
    split.
    + replace (take (width * idx) cells')
        with (take (width * idx) (take (width * idx + width) cells'))
        by (rewrite take_take; f_equal; lia).
      rewrite Hpre2. apply take_app_length'. rewrite length_take. lia.
    + intros i row' Hi Hrow'. destruct (decide (i = idx)) as [-> | Hne].
      * rewrite Hrow in Hrow'. injection Hrow' as <-.
        rewrite take_drop_commute, Hpre2.
        apply drop_app_length'. rewrite length_take. lia.
      * apply Hrows; [lia | exact Hrow'].
Qed.

Lemma malloc_nonneg {A} (indet : A) (n : Z) :
  0 <= n -> malloc indet n = Buf (replicate (Z.to_nat n) indet).
Proof.
  intros Hn. unfold malloc. now replace (n <? 0) with false by (symmetry; apply Z.ltb_ge; lia).
Qed.

(** The dense matrix of a ragged list of rows: the rows in order, each
    padded to the width of the longest. *)
Lemma pack_rows {A B} (inj : A -> B) (pad indet : B) (rows : list (list A)) :
  let n := Z.of_nat (length rows) in
  let width := max_list_with length rows in
  exists cells,
    pack_loop (Z.to_nat n) inj pad (Z.of_nat width) rows 0
              (malloc indet (n * Z.of_nat width)) = Done (Buf cells) /\
    length cells = (length rows * width)%nat /\
    forall (i : nat) (row : list A),
      rows !! i = Some row ->
      row_of (Z.of_nat width) (Z.of_nat i) (Buf cells)
        = map inj row ++ replicate (width - length row) pad.
Proof.
  intros n width. rewrite malloc_nonneg by (unfold n; lia).
  destruct (pack_loop_rows inj pad width rows
              (fun i row H => max_list_with_ge rows i row H)
              (length rows) O
              (replicate (Z.to_nat (n * Z.of_nat width)) indet))
    as (cells & Hrun & Hlen & _ & Hrows).
  - lia.
  - rewrite length_replicate. unfold n. lia.
  - exists cells. unfold n. rewrite Nat2Z.id. split; [exact Hrun |].
    split; [rewrite Hlen, length_replicate; lia |].
    intros i row Hrow. unfold row_of.
    rewrite Nat2Z.id.
    replace (Z.to_nat (Z.of_nat width * Z.of_nat i)) with (width * i)%nat by lia.
    apply Hrows; [lia | exact Hrow].
Qed.

(** ** The wrapper: shapes of the local buffers *)

Lemma new_vector_Done {A} (what : string) (n : Z) (x : A) (v : list A) :
  new_vector what n x = Done v -> 0 <= n /\ v = replicate (Z.to_nat n) x.
Proof.
  unfold new_vector. destruct (Z.ltb_spec n 0); [discriminate |].
  intros [= <-]. split; [lia | reflexivity].
Qed.

Lemma assign_length {A} (v v' : list A) (i : Z) (x : A) :
  assign v i x = Done v' -> length v' = length v.
Proof.
  unfold assign. destruct (lt_size i v); [| discriminate].
  intros [= <-]. apply length_insert.
Qed.

Lemma prepare_shape (cbrt fl : Q -> Q) (what : string) (inp : inputs)
    (con : container) (w : work) :
  prepare cbrt fl what inp = Done (con, w) ->
  0 <= nsites inp /\
  length (n_list w) = Z.to_nat (nsites inp) /\
  (with_vertices inp = true -> length (vertices_list w) = Z.to_nat (nsites inp)).
Proof.
  unfold prepare. intros H.
  inv_bind H. inv_bind H. inv_bind H. inv_bind H. inv_bind H.
  injection H as _ <-. cbn [n_list vertices_list].
  apply new_vector_Done in Hx0 as [Hn ->].
  split; [exact Hn |]. split; [apply length_replicate |].
  intros Hv. rewrite Hv in Hx1. apply new_vector_Done in Hx1 as [_ ->].
  apply length_replicate.
Qed.

Lemma cell_geometry_shape (inp : inputs) (c : cell) (w w1 : work) :
  cell_geometry inp c w = Done w1 ->
  length (n_list w1) = length (n_list w) /\
  length (vertices_list w1) = length (vertices_list w).
Proof.
  unfold cell_geometry. intros H.
  inv_bind H. inv_bind H. inv_bind H. inv_bind H. inv_bind H. inv_bind H. inv_bind H.
  injection H as <-. cbn [n_list vertices_list].
  split; [now apply assign_length in Hx0 |].
  destruct (with_vertices inp).
  - now apply assign_length in Hx2.
  - now injection Hx2 as <-.
Qed.

Lemma cell_step_shape (RAND_MAX : Z) (rand_out : nat -> Z) (fuel : nat)
    (inp : inputs) (c : cell) (w w' : work) :
  cell_step RAND_MAX rand_out fuel inp c w = Done w' ->
  length (n_list w') = length (n_list w) /\
  length (vertices_list w') = length (vertices_list w).
Proof.
  unfold cell_step. intros H. inv_bind H.
  apply cell_geometry_shape in Hx.
  destruct (negb (with_sampling inp)).
  - now injection H as <-.
  - inv_bind H. injection H as <-. exact Hx.
Qed.

Lemma cells_loop_shape (RAND_MAX : Z) (rand_out : nat -> Z) (fuel : nat)
    (inp : inputs) (cells : list cell) :
  forall w w' : work,
    cells_loop RAND_MAX rand_out fuel inp cells w = Done w' ->
    length (n_list w') = length (n_list w) /\
    length (vertices_list w') = length (vertices_list w).
Proof.
  induction cells as [| c cells IH]; intros w w' H.
  - now injection H as <-.
  - cbn [cells_loop] in H. inv_bind H.
    apply cell_step_shape in Hx as [E1 E2]. apply IH in H as [E3 E4].
    split; congruence.
Qed.

Lemma sym_step_length (nl nl' : list (list Z)) (idx j : Z) :
  sym_step nl idx j = Done nl' -> length nl' = length nl.
Proof.
  unfold sym_step. intros H. inv_bind H. inv_bind H.
  destruct (0 <=? x0).
  - inv_bind H. destruct (existsb (Z.eqb idx) x1).
    + now injection H as <-.
    + now apply assign_length in H.
  - now injection H as <-.
Qed.

Lemma sym_row_length (fuel : nat) :
  forall (nl nl' : list (list Z)) (idx j : Z),
    sym_row fuel nl idx j = Done nl' -> length nl' = length nl.
Proof.
  induction fuel as [| fuel IH]; intros nl nl' idx j H; [discriminate |].
  cbn [sym_row] in H. inv_bind H.
  destruct (j <? Z.of_nat (length x)).
  - inv_bind H. apply sym_step_length in Hx0. apply IH in H. congruence.
  - now injection H as <-.
Qed.

Lemma sym_loop_length (n fuel : nat) :
  forall (nl nl' : list (list Z)) (idx : Z),
    sym_loop n fuel nl idx = Done nl' -> length nl' = length nl.
Proof.
  induction n as [| n IH]; intros nl nl' idx H.
  - now injection H as <-.
  - cbn [sym_loop] in H. inv_bind H.
    apply sym_row_length in Hx. apply IH in H. congruence.
Qed.

(** When the computation completes there are [nsites] neighbour lists, the
    lists the symmetrizer returned, and as many vertex lists when vertices
    are asked for. *)
Lemma compute_shape (RAND_MAX : Z) (rand_out : nat -> Z) (cbrt fl : Q -> Q)
    (engine : container -> outcome (list cell)) (what : string)
    (fuel : nat) (inp : inputs) (w : work) :
  compute RAND_MAX rand_out cbrt fl engine what fuel inp = Done w ->
  0 <= nsites inp /\
  length (n_list w) = Z.to_nat (nsites inp) /\
  (with_vertices inp = true -> length (vertices_list w) = Z.to_nat (nsites inp)) /\
  exists raw, symmetrize fuel (nsites inp) raw = Done (n_list w).
Proof.
  unfold compute. intros H. inv_bind H. inv_bind H. inv_bind H. inv_bind H.
  injection H as <-. cbn [n_list vertices_list].
  destruct x as [con w0]. apply prepare_shape in Hx as (Hn & Hl & Hv).
  apply cells_loop_shape in Hx1 as [E1 E2]. cbn [snd] in E1, E2.
  pose proof (sym_loop_length _ _ _ _ _ Hx2) as E3.
  split; [exact Hn |]. split; [congruence |]. split.
  - intros Hwv. rewrite E2. now apply Hv.
  - eauto.
Qed.

Lemma copy_at_length {A} (src buf buf' : list A) (off : Z) :
  copy_at src off buf = Done buf' -> length buf' = length buf.
Proof.
  unfold copy_at.
  destruct ((off <? 0) || (Z.of_nat (length buf) <? off + Z.of_nat (length src))) eqn:E;
    [discriminate |].
  apply orb_false_iff in E as [E1 E2]. apply Z.ltb_ge in E1, E2.
  intros [= <-]. rewrite !length_app, length_take, length_drop. lia.
Qed.

Lemma store_at_buf {A} (src : list A) (off : Z) (p p' : ptr A) :
  store_at src off p = Done p' ->
  exists cells cells', p = Buf cells /\ p' = Buf cells' /\ length cells' = length cells.
Proof.
  unfold store_at. destruct p as [| cells]; [discriminate |].
  intros H. inv_bind H. injection H as <-.
  apply copy_at_length in Hx. eauto.
Qed.

Lemma store_at_is_buf {A} (src : list A) (off : Z) (p p' : ptr A) (n : nat) :
  store_at src off p = Done p' -> is_buf p n -> is_buf p' n.
Proof.
  intros H [cells [-> Hn]].
  apply store_at_buf in H as (c & c' & [= <-] & -> & Hlen).
  exists c'. split; [reflexivity | congruence].
Qed.

Lemma malloc_is_buf {A} (indet : A) (n : Z) :
  0 <= n -> is_buf (malloc indet n) (Z.to_nat n).
Proof.
  intros Hn. rewrite malloc_nonneg by exact Hn.
  exists (replicate (Z.to_nat n) indet). split; [reflexivity | apply length_replicate].
Qed.

Lemma malloc_allocated {A} (indet : A) (n : Z) : allocated (malloc indet n) n.
Proof.
  unfold allocated. destruct (n <? 0) eqn:E.
  - unfold malloc. now rewrite E.
  - apply malloc_is_buf. now apply Z.ltb_ge.
Qed.

Lemma store_at_allocated {A} (src : list A) (off : Z) (p p' : ptr A) (n : Z) :
  store_at src off p = Done p' -> allocated p n -> allocated p' n.
Proof.
  unfold allocated. intros H Hp. destruct (n <? 0).
  - subst p. discriminate.
  - now apply (store_at_is_buf _ _ _ _ _ H).
Qed.

Lemma prepare_buffers (cbrt fl : Q -> Q) (what : string) (inp : inputs)
    (con : container) (w : work) :
  prepare cbrt fl what inp = Done (con, w) -> buffers_of inp w.
Proof.
  unfold prepare. intros H.
  inv_bind H. inv_bind H. inv_bind H. inv_bind H. inv_bind H.
  injection H as _ <-. unfold buffers_of. cbn [vols bb_m bb_M spoints].
  apply new_vector_Done in Hx0 as [Hn _].
  split; [apply malloc_is_buf; lia |]. split; [apply malloc_is_buf; lia |].
  split; [apply malloc_is_buf; lia |].
  destruct (with_sampling inp); [apply malloc_allocated | reflexivity].
Qed.

Lemma cell_geometry_buffers (inp : inputs) (c : cell) (w w1 : work) :
  cell_geometry inp c w = Done w1 -> buffers_of inp w ->
  buffers_of inp w1 /\ spoints w1 = spoints w.
Proof.
  unfold cell_geometry. intros H (Hv & Hm & HM & Hs).
  inv_bind H. inv_bind H. inv_bind H. inv_bind H. inv_bind H. inv_bind H. inv_bind H.
  injection H as <-. unfold buffers_of. cbn [vols bb_m bb_M spoints].
  split; [| reflexivity].
  split; [now apply (store_at_is_buf _ _ _ _ _ Hx1) |].
  split; [now apply (store_at_is_buf _ _ _ _ _ Hx4) |].
  split; [now apply (store_at_is_buf _ _ _ _ _ Hx5) | exact Hs].
Qed.

Lemma sample_loop_buffer (RAND_MAX : Z) (rand_out : nat -> Z) (verts : list Q)
    (d : decomp) (c_factor : Q) (idx n_samples : Z) (n : Z) (fuel : nat) :
  forall (i : Z) (calls : nat) (sp : ptr dcell) (res : ptr dcell * nat),
    sample_loop RAND_MAX rand_out fuel verts d c_factor idx n_samples i calls sp = Done res ->
    allocated sp n -> allocated (fst res) n.
Proof.
  induction fuel as [| fuel IH]; intros i calls sp res H Hsp; [discriminate |].
  cbn [sample_loop] in H. destruct (i <? n_samples).
  - unfold rand in H. cbv zeta in H.
    destruct (upper_bound (c_vol d) (inject_Z (rand_out calls) * c_factor)
              =? length (c_vol d))%nat.
    + now apply IH in H.
    + inv_bind H. inv_bind H. inv_bind H. inv_bind H. inv_bind H.
      destruct x3 as [[[px py] pz] calls']. inv_bind H.
      apply IH in H; [exact H |].
      now apply (store_at_allocated _ _ _ _ _ Hx4).
  - now injection H as <-.
Qed.

Lemma cell_step_buffers (RAND_MAX : Z) (rand_out : nat -> Z) (fuel : nat)
    (inp : inputs) (c : cell) (w w' : work) :
  cell_step RAND_MAX rand_out fuel inp c w = Done w' ->
  buffers_of inp w -> buffers_of inp w'.
Proof.
  unfold cell_step. intros H Hb. inv_bind H.
  destruct (cell_geometry_buffers inp c w x Hx Hb) as [(Hv & Hm & HM & Hs) _].
  destruct (with_sampling inp) eqn:Es; cbn [negb] in H.
  - inv_bind H. injection H as <-. unfold buffers_of. rewrite Es.
    cbn [vols bb_m bb_M spoints]. repeat split; try assumption.
    unfold sample_cell in Hx0. inv_bind Hx0. inv_bind Hx0.
    now apply (sample_loop_buffer _ _ _ _ _ _ _ _ _ _ _ _ _ Hx0).
  - injection H as <-. unfold buffers_of. now rewrite Es.
Qed.

Lemma cells_loop_buffers (RAND_MAX : Z) (rand_out : nat -> Z) (fuel : nat)
    (inp : inputs) (cells : list cell) :
  forall w w' : work,
    cells_loop RAND_MAX rand_out fuel inp cells w = Done w' ->
    buffers_of inp w -> buffers_of inp w'.
Proof.
  induction cells as [| c cells IH]; intros w w' H Hb.
  - now injection H as <-.
  - cbn [cells_loop] in H. inv_bind H.
    apply (IH x w' H). now apply (cell_step_buffers _ _ _ _ _ _ _ Hx).
Qed.

Lemma compute_buffers (RAND_MAX : Z) (rand_out : nat -> Z) (cbrt fl : Q -> Q)
    (engine : container -> outcome (list cell)) (what : string)
    (fuel : nat) (inp : inputs) (w : work) :
  compute RAND_MAX rand_out cbrt fl engine what fuel inp = Done w -> buffers_of inp w.
Proof.
  unfold compute. intros H. inv_bind H. inv_bind H. inv_bind H. inv_bind H.
  injection H as <-. destruct x as [con w0].
  apply prepare_buffers in Hx.
  apply (cells_loop_buffers _ _ _ _ _ _ _ Hx1) in Hx.
  exact Hx.
Qed.

(** ** The wrapper: the hand-over of the results *)

Lemma max_size_nonempty {A} (v : list (list A)) :
  (0 < length v)%nat -> max_size v = Done (Z.of_nat (max_list_with length v)).
Proof.
  destruct v as [| x rest]; [simpl; lia |]. intros _. apply max_size_cons.
Qed.

Lemma pack_neighbours_rows (nsites : Z) (n_list : list (list Z)) :
  0 <= nsites -> length n_list = Z.to_nat nsites ->
  let width := max_list_with length n_list in
  exists neighs,
    pack_neighbours nsites (Z.of_nat width) n_list = Done (Buf neighs) /\
    length neighs = (length n_list * width)%nat /\
    forall (i : nat) (row : list Z),
      n_list !! i = Some row ->
      row_of (Z.of_nat width) (Z.of_nat i) (Buf neighs)
        = map Int row ++ replicate (width - length row) (Int sentinel).
Proof.
  intros Hn Hlen width.
  assert (En : nsites = Z.of_nat (length n_list)) by lia.
  unfold pack_neighbours. rewrite En.
  apply (pack_rows Int (Int sentinel) IIndet n_list).
Qed.

Lemma pack_vertices_rows (nsites : Z) (vertices_list : list (list Q)) :
  0 <= nsites -> length vertices_list = Z.to_nat nsites ->
  let width := max_list_with length vertices_list in
  exists verts,
    pack_vertices nsites (Z.of_nat width) vertices_list = Done (Buf verts) /\
    length verts = (length vertices_list * width)%nat /\
    forall (i : nat) (row : list Q),
      vertices_list !! i = Some row ->
      row_of (Z.of_nat width) (Z.of_nat i) (Buf verts)
        = map Fin row ++ replicate (width - length row) NaN.
Proof.
  intros Hn Hlen width.
  assert (En : nsites = Z.of_nat (length vertices_list)) by lia.
  unfold pack_vertices. rewrite En.
  apply (pack_rows Fin NaN Indet vertices_list).
Qed.

(** With at least one site the hand-over completes, and stores the packed
    matrices, their widths and the local buffers. *)
Lemma hand_over_Done (inp : inputs) (w : work) (o : outputs) :
  1 <= nsites inp ->
  length (n_list w) = Z.to_nat (nsites inp) ->
  (with_vertices inp = true -> length (vertices_list w) = Z.to_nat (nsites inp)) ->
  let nn := Z.of_nat (max_list_with length (n_list w)) in
  let nv := Z.of_nat (max_list_with length (vertices_list w)) in
  exists neighs verts,
    pack_neighbours (nsites inp) nn (n_list w) = Done neighs /\
    (with_vertices inp = true ->
     pack_vertices (nsites inp) nv (vertices_list w) = Done verts) /\
    hand_over inp w o
    = (Done tt,
       mk_outputs neighs nn (vols w) (bb_m w) (bb_M w)
                  (if with_vertices inp then verts else vertices o)
                  (if with_vertices inp then nv else 0)
                  (spoints w)).
Proof.
  intros Hn Hl Hv nn nv.
  destruct (pack_neighbours_rows (nsites inp) (n_list w)) as (neighs & Hrun & _);
    [lia | exact Hl |].
  fold nn in Hrun.
  assert (Hmax : max_size (n_list w) = Done nn).
  { apply max_size_nonempty. lia. }
  unfold hand_over, bind_run, lift, store.
  rewrite Hmax, Hrun.
  destruct (with_vertices inp) eqn:Ev.
  - specialize (Hv eq_refl).
    destruct (pack_vertices_rows (nsites inp) (vertices_list w)) as (verts & Hrunv & _);
      [lia | exact Hv |].
    fold nv in Hrunv.
    assert (Hmaxv : max_size (vertices_list w) = Done nv).
    { apply max_size_nonempty. lia. }
    exists (Buf neighs), (Buf verts).
    split; [reflexivity |]. split; [intros _; exact Hrunv |].
    rewrite Hmaxv. cbn [set_max_nn set_max_nv max_nn max_nv neighbours volumes
                        bb_min bb_max vertices sample_points].
    rewrite Hrunv. reflexivity.
  - exists (Buf neighs), NULL.
    split; [reflexivity |]. split; [discriminate |]. reflexivity.
Qed.

(** Without a site the first reduction dereferences [end()]. *)
Lemma hand_over_no_site (inp : inputs) (w : work) (o : outputs) :
  n_list w = [] -> hand_over inp w o = (Undefined, o).
Proof.
  intros H. unfold hand_over, bind_run, lift. now rewrite H.
Qed.

Lemma wrap_unfold (RAND_MAX : Z) (rand_out : nat -> Z) (cbrt fl : Q -> Q)
    (engine : container -> outcome (list cell)) (what : string)
    (fuel : nat) (inp : inputs) (o : outputs) :
  hyperion_voropp_wrap RAND_MAX rand_out cbrt fl engine what fuel inp o
  = match compute RAND_MAX rand_out cbrt fl engine what fuel inp with
    | Done w =>
        match hand_over inp w o with
        | (Done _, o') => (Done RNull, o')
        | (Throw e, o') => (Done (RMessage (error_message e)), o')
        | (Undefined, o') => (Undefined, o')
        | (OutOfFuel, o') => (OutOfFuel, o')
        end
    | Throw e => (Done (RMessage (error_message e)), o)
    | Undefined => (Undefined, o)
    | OutOfFuel => (OutOfFuel, o)
    end.
Proof.
  unfold hyperion_voropp_wrap, try_block, bind_run, lift.
  now destruct (compute RAND_MAX rand_out cbrt fl engine what fuel inp).
Qed.

(** The call, by the outcome of the computation. *)
Lemma wrap_cases (RAND_MAX : Z) (rand_out : nat -> Z) (cbrt fl : Q -> Q)
    (engine : container -> outcome (list cell)) (what : string)
    (fuel : nat) (inp : inputs) (o : outputs) :
  let r := hyperion_voropp_wrap RAND_MAX rand_out cbrt fl engine what fuel inp o in
  match compute RAND_MAX rand_out cbrt fl engine what fuel inp with
  | Done w =>
      if nsites inp <? 1 then r = (Undefined, o)
      else
        exists neighs verts,
          let nn := Z.of_nat (max_list_with length (n_list w)) in
          let nv := Z.of_nat (max_list_with length (vertices_list w)) in
          pack_neighbours (nsites inp) nn (n_list w) = Done neighs /\
          (with_vertices inp = true ->
           pack_vertices (nsites inp) nv (vertices_list w) = Done verts) /\
          r = (Done RNull,
               mk_outputs neighs nn (vols w) (bb_m w) (bb_M w)
                          (if with_vertices inp then verts else vertices o)
                          (if with_vertices inp then nv else 0)
                          (spoints w))
  | Throw e => r = (Done (RMessage (error_message e)), o)
  | Undefined => r = (Undefined, o)
  | OutOfFuel => r = (OutOfFuel, o)
  end.
Proof.
  intros r. subst r. rewrite wrap_unfold.
  destruct (compute RAND_MAX rand_out cbrt fl engine what fuel inp) as [w | e | |] eqn:E;
    try reflexivity.
  apply compute_shape in E as (Hn & Hl & Hv & _).
  destruct (Z.ltb_spec (nsites inp) 1) as [H0 | H1].
  - rewrite hand_over_no_site; [reflexivity |].
    apply nil_length_inv. lia.
  - destruct (hand_over_Done inp w o H1 Hl Hv) as (neighs & verts & Hp & Hpv & Hrun).
    exists neighs, verts. cbv zeta. split; [exact Hp |]. split; [exact Hpv |].
    now rewrite Hrun.
Qed.

(** C9, as amended.  The call returns the null pointer exactly when the
    computation completed (no exception, at least one site); the caller then
    holds the local buffers, the packed matrices and their widths.  It
    returns a message exactly when the computation raised an exception, the
    message built from that exception, and the caller's output variables
    are then what they were before the call.  No exception leaves the call.
    A failure that is no exception returns neither: the call is undefined
    exactly when the computation is, or completed without a site, and it
    runs out of fuel exactly when the computation does. *)
Theorem wrap_all_or_nothing (RAND_MAX : Z) (rand_out : nat -> Z) (cbrt fl : Q -> Q)
    (engine : container -> outcome (list cell)) (what : string)
    (fuel : nat) (inp : inputs) (o : outputs) :
  let r := hyperion_voropp_wrap RAND_MAX rand_out cbrt fl engine what fuel inp o in
  let computed := compute RAND_MAX rand_out cbrt fl engine what fuel inp in
  (fst r = Done RNull <-> exists w, computed = Done w /\ 1 <= nsites inp) /\
  (forall w, computed = Done w -> 1 <= nsites inp ->
     buffers_of inp w /\
     volumes (snd r) = vols w /\ bb_min (snd r) = bb_m w /\ bb_max (snd r) = bb_M w /\
     sample_points (snd r) = spoints w /\
     pack_neighbours (nsites inp) (max_nn (snd r)) (n_list w) = Done (neighbours (snd r)) /\
     (if with_vertices inp
      then pack_vertices (nsites inp) (max_nv (snd r)) (vertices_list w)
           = Done (vertices (snd r))
      else vertices (snd r) = vertices o /\ max_nv (snd r) = 0)) /\
  (forall msg, fst r = Done (RMessage msg) <->
               exists e, computed = Throw e /\ msg = error_message e) /\
  (forall msg, fst r = Done (RMessage msg) -> snd r = o) /\
  (forall e, fst r <> Throw e) /\
  (fst r = Undefined <->
   computed = Undefined \/ exists w, computed = Done w /\ nsites inp < 1) /\
  (fst r = OutOfFuel <-> computed = OutOfFuel).
Proof.
  intros r computed.
  pose proof (wrap_cases RAND_MAX rand_out cbrt fl engine what fuel inp o) as Hc.
  cbv zeta in Hc. fold r computed in Hc.
  destruct computed as [w | e | |] eqn:E.
  - destruct (Z.ltb_spec (nsites inp) 1) as [H0 | H1].
    + rewrite Hc. cbn [fst snd].
      split; [split; [discriminate | intros (w' & _ & H'); lia] |].
      split; [intros w' _ H'; lia |].
      split; [intros msg; split; [discriminate | intros (e & [=] & _)] |].
      split; [discriminate |]. split; [discriminate |].
      split; [split; [intros _; right; eauto | reflexivity] |].
      split; discriminate.
    + destruct Hc as (neighs & verts & Hp & Hpv & ->). cbn [fst snd].
      split; [split; [eauto | reflexivity] |].
      split.
      * intros w' [= <-] _.
        cbn [volumes bb_min bb_max sample_points max_nn max_nv neighbours vertices].
        split; [apply (compute_buffers _ _ _ _ _ _ _ _ _ E) |].
        repeat (split; [reflexivity |]).
        split; [exact Hp |].
        destruct (with_vertices inp); [now apply Hpv | split; reflexivity].
      * split; [intros msg; split; [discriminate | intros (e & [=] & _)] |].
        split; [discriminate |]. split; [discriminate |].
        split; [split; [discriminate | intros [[=] | (w' & [= <-] & H')]; lia] |].
        split; discriminate.
  - rewrite Hc. cbn [fst snd].
    split; [split; [discriminate | intros (w' & [=] & _)] |].
    split; [intros w' [=] |].
    split.
    + intros msg. split.
      * intros [= <-]. eauto.
      * intros (e' & [= <-] & ->). reflexivity.
    + split; [reflexivity |]. split; [discriminate |].
      split; [split; [discriminate | intros [[=] | (w' & [=] & _)]] |].
      split; discriminate.
  - rewrite Hc. cbn [fst snd].
    split; [split; [discriminate | intros (w' & [=] & _)] |].
    split; [intros w' [=] |].
    split; [intros msg; split; [discriminate | intros (e & [=] & _)] |].
    split; [discriminate |]. split; [discriminate |].
    split; [split; [intros _; now left | reflexivity] |].
    split; discriminate.
  - rewrite Hc. cbn [fst snd].
    split; [split; [discriminate | intros (w' & [=] & _)] |].
    split; [intros w' [=] |].
    split; [intros msg; split; [discriminate | intros (e & [=] & _)] |].
    split; [discriminate |]. split; [discriminate |].
    split; [split; [discriminate | intros [[=] | (w' & [=] & _)]] |].
    split; reflexivity.
Qed.

(** C9, as stated, fails: a call without sites fails, the longest of no
    neighbour list is read, and it returns neither the null pointer nor a
    message. *)
Lemma wrap_failure_without_message :
  let r := hyperion_voropp_wrap RAND_MAX_glibc rand_lcg cbrt_fix fl53 no_site_engine
                                length_error_gnu 1 no_site_inputs outputs0 in
  fst r = Undefined /\
  fst r <> Done RNull /\
  (forall msg, fst r <> Done (RMessage msg)).
Proof. vm_compute. repeat split; intros; discriminate. Qed.

(** Both returns occur: three sites, with and without sampling, and a
    sphere wall of radius 0. *)
Example wrap_three_sites :
  fst (hyperion_voropp_wrap RAND_MAX_glibc rand_lcg cbrt_fix fl53 three_engine
                            length_error_gnu 10 three_inputs_sampling outputs0)
  = Done RNull.
Proof. vm_compute. reflexivity. Qed.

Example wrap_bad_wall :
  hyperion_voropp_wrap RAND_MAX_glibc rand_lcg cbrt_fix fl53 three_engine
                       length_error_gnu 10 bad_wall_inputs outputs0
  = (Done (RMessage (error_message sphere_radius_msg)), outputs0).
Proof. vm_compute. reflexivity. Qed.

(** A negative number of samples: the size of the sample buffer wraps
    around, [malloc] returns the null pointer, the sampling loop makes no
    turn, and the null pointer is handed over. *)
Example wrap_negative_samples :
  let r := hyperion_voropp_wrap RAND_MAX_glibc rand_lcg cbrt_fix fl53 three_engine
             length_error_gnu 10
             (mk_inputs 0 3 0 1 0 1
                        [1 # 2; 1 # 2; 1 # 2;  3 # 2; 1 # 2; 1 # 2;  5 # 2; 1 # 2; 1 # 2]%Q
                        3 true "" [] 0 true (-1) false) outputs0 in
  fst r = Done RNull /\ sample_points (snd r) = NULL.
Proof. vm_compute. split; reflexivity. Qed.

(** C8. When the call succeeds, [max_nn] is the length of the longest
    neighbour list the symmetrizer returned, row [i] of the neighbour matrix
    is the list of site [i] in order followed by the sentinel -10 in the
    remaining slots, and, when vertices are asked for, [max_nv] is the
    largest number of vertex coordinates and row [i] of the vertex matrix
    the coordinates of site [i] followed by not-a-number. *)
Theorem wrap_dense_rows (RAND_MAX : Z) (rand_out : nat -> Z) (cbrt fl : Q -> Q)
    (engine : container -> outcome (list cell)) (what : string)
    (fuel : nat) (inp : inputs) (o : outputs) :
  let r := hyperion_voropp_wrap RAND_MAX rand_out cbrt fl engine what fuel inp o in
  fst r = Done RNull ->
  exists w,
    compute RAND_MAX rand_out cbrt fl engine what fuel inp = Done w /\
    (exists raw, symmetrize fuel (nsites inp) raw = Done (n_list w)) /\
    length (n_list w) = Z.to_nat (nsites inp) /\
    (forall i row, n_list w !! i = Some row -> Z.of_nat (length row) <= max_nn (snd r)) /\
    (exists row, row ∈ n_list w /\ Z.of_nat (length row) = max_nn (snd r)) /\
    (forall (i : nat) (row : list Z),
        n_list w !! i = Some row ->
        row_of (max_nn (snd r)) (Z.of_nat i) (neighbours (snd r))
          = map Int row
            ++ replicate (Z.to_nat (max_nn (snd r)) - length row) (Int sentinel)) /\
    sentinel = -10 /\
    (with_vertices inp = true ->
     (forall i row, vertices_list w !! i = Some row ->
                    Z.of_nat (length row) <= max_nv (snd r)) /\
     (exists row, row ∈ vertices_list w /\ Z.of_nat (length row) = max_nv (snd r)) /\
     forall (i : nat) (row : list Q),
       vertices_list w !! i = Some row ->
       row_of (max_nv (snd r)) (Z.of_nat i) (vertices (snd r))
         = map Fin row ++ replicate (Z.to_nat (max_nv (snd r)) - length row) NaN).
Proof.
  intros r Hr.
  pose proof (wrap_cases RAND_MAX rand_out cbrt fl engine what fuel inp o) as Hc.
  cbv zeta in Hc. fold r in Hc.
  destruct (compute RAND_MAX rand_out cbrt fl engine what fuel inp) as [w | e | |] eqn:E;
    try (rewrite Hc in Hr; discriminate).
  destruct (Z.ltb_spec (nsites inp) 1) as [H0 | H1];
    [rewrite Hc in Hr; discriminate |].
  destruct Hc as (neighs & verts & Hp & Hpv & Er). rewrite Er. cbn [snd max_nn max_nv neighbours vertices].
  destruct (compute_shape _ _ _ _ _ _ _ _ _ E) as (Hn & Hl & Hv & Hsym).
  exists w. split; [reflexivity |]. split; [exact Hsym |]. split; [exact Hl |].
  destruct (pack_neighbours_rows (nsites inp) (n_list w) Hn Hl) as (cells & Hp' & _ & Hrows).
  cbv zeta in Hp', Hrows. rewrite Hp in Hp'. injection Hp' as ->.
  split; [intros i row Hi; apply inj_le, (max_list_with_ge _ i row Hi) |].
  split.
  { destruct (max_list_with_attained (n_list w)) as [row [Hin Hrow]].
    - intros En. rewrite En in Hl. simpl in Hl. lia.
    - exists row. split; [exact Hin | now rewrite Hrow]. }
  split.
  { intros i row Hi. rewrite Nat2Z.id. now apply Hrows. }
  split; [reflexivity |].
  intros Hwv. rewrite Hwv. specialize (Hv Hwv). specialize (Hpv Hwv).
  destruct (pack_vertices_rows (nsites inp) (vertices_list w) Hn Hv) as (vcells & Hpv' & _ & Hvrows).
  cbv zeta in Hpv', Hvrows. rewrite Hpv in Hpv'. injection Hpv' as ->.
  split; [intros i row Hi; apply inj_le, (max_list_with_ge _ i row Hi) |].
  split.
  { destruct (max_list_with_attained (vertices_list w)) as [row [Hin Hrow]].
    - intros En. rewrite En in Hv. simpl in Hv. lia.
    - exists row. split; [exact Hin | now rewrite Hrow]. }
  intros i row Hi. rewrite Nat2Z.id. now apply Hvrows.
Qed.

(** The witness: three sites whose neighbour lists have the lengths 2, 5
    and 3, and whose vertex lists have 24, 12 and 24 coordinates. *)
Lemma wrap_dense_rows_witness :
  let r := hyperion_voropp_wrap RAND_MAX_glibc rand_lcg cbrt_fix fl53 three_engine
                                length_error_gnu 10 three_inputs outputs0 in
  exists w,
    compute RAND_MAX_glibc rand_lcg cbrt_fix fl53 three_engine length_error_gnu 10 three_inputs
      = Done w /\
    (exists raw, symmetrize 10 (nsites three_inputs) raw = Done (n_list w)) /\
    length (n_list w) = Z.to_nat (nsites three_inputs) /\
    (forall i row, n_list w !! i = Some row -> Z.of_nat (length row) <= max_nn (snd r)) /\
    (exists row, row ∈ n_list w /\ Z.of_nat (length row) = max_nn (snd r)) /\
    (forall (i : nat) (row : list Z),
        n_list w !! i = Some row ->
        row_of (max_nn (snd r)) (Z.of_nat i) (neighbours (snd r))
          = map Int row
            ++ replicate (Z.to_nat (max_nn (snd r)) - length row) (Int sentinel)) /\
    sentinel = -10 /\
    (with_vertices three_inputs = true ->
     (forall i row, vertices_list w !! i = Some row ->
                    Z.of_nat (length row) <= max_nv (snd r)) /\
     (exists row, row ∈ vertices_list w /\ Z.of_nat (length row) = max_nv (snd r)) /\
     forall (i : nat) (row : list Q),
       vertices_list w !! i = Some row ->
       row_of (max_nv (snd r)) (Z.of_nat i) (vertices (snd r))
         = map Fin row ++ replicate (Z.to_nat (max_nv (snd r)) - length row) NaN).
Proof.
  apply (wrap_dense_rows RAND_MAX_glibc rand_lcg cbrt_fix fl53 three_engine
                         length_error_gnu 10 three_inputs outputs0).
  vm_compute. reflexivity.
Defined.

(** The neighbour matrix and its width for lists of lengths 2, 5 and 3. *)
Example wrap_three_sites_neighbours :
  let r := hyperion_voropp_wrap RAND_MAX_glibc rand_lcg cbrt_fix fl53 three_engine
                                length_error_gnu 10 three_inputs outputs0 in
  max_nn (snd r) = 5 /\
  neighbours (snd r)
  = Buf (map Int [1; 2; -10; -10; -10;  0; 2; -1; -2; -3;  0; 1; -1; -10; -10]) /\
  max_nv (snd r) = 24 /\
  row_of 24 1 (vertices (snd r))
  = map Fin tetra_vertices ++ replicate 12 NaN.
Proof. vm_compute. repeat split. Qed.

(** C10. When the computation completes there are as many neighbour lists
    as sites (and as many vertex lists, when vertices are asked for).  The
    reduction [max_element(...)->size()] is undefined exactly on an empty
    list of lists: with no site the call is undefined, with at least one
    site both reductions are defined and the call succeeds. *)
Theorem max_element_needs_a_site (RAND_MAX : Z) (rand_out : nat -> Z) (cbrt fl : Q -> Q)
    (engine : container -> outcome (list cell)) (what : string)
    (fuel : nat) (inp : inputs) (w : work) :
  compute RAND_MAX rand_out cbrt fl engine what fuel inp = Done w ->
  (forall v : list (list Z), max_size v = Undefined <-> v = []) /\
  (forall v : list (list Q), max_size v = Undefined <-> v = []) /\
  length (n_list w) = Z.to_nat (nsites inp) /\
  (with_vertices inp = true -> length (vertices_list w) = Z.to_nat (nsites inp)) /\
  (nsites inp = 0 \/ 1 <= nsites inp) /\
  (nsites inp = 0 ->
   max_size (n_list w) = Undefined /\
   forall o, hyperion_voropp_wrap RAND_MAX rand_out cbrt fl engine what fuel inp o
             = (Undefined, o)) /\
  (1 <= nsites inp ->
   (exists nn, max_size (n_list w) = Done nn) /\
   (with_vertices inp = true -> exists nv, max_size (vertices_list w) = Done nv) /\
   forall o, fst (hyperion_voropp_wrap RAND_MAX rand_out cbrt fl engine what fuel inp o)
             = Done RNull).
Proof.
  intros E.
  assert (Hund : forall A (v : list (list A)), max_size v = Undefined <-> v = []).
  { intros A [| x rest]; split; reflexivity || discriminate. }
  destruct (compute_shape _ _ _ _ _ _ _ _ _ E) as (Hn & Hl & Hv & _).
  split; [apply Hund |]. split; [apply Hund |].
  split; [exact Hl |]. split; [exact Hv |]. split; [lia |]. split.
  - intros H0. assert (En : n_list w = []) by (apply nil_length_inv; lia).
    split; [now rewrite En |].
    intros o. rewrite wrap_unfold, E. now rewrite hand_over_no_site.
  - intros H1. split; [| split].
    + eexists. apply max_size_nonempty. lia.
    + intros Hwv. eexists. apply max_size_nonempty. specialize (Hv Hwv). lia.
    + intros o.
      pose proof (wrap_cases RAND_MAX rand_out cbrt fl engine what fuel inp o) as Hc.
      cbv zeta in Hc. rewrite E in Hc.
      destruct (Z.ltb_spec (nsites inp) 1) as [H0 | _]; [lia |].
      destruct Hc as (neighs & verts & _ & _ & ->). reflexivity.
Qed.

(** The witness: a call with no site. *)
Lemma max_element_needs_a_site_witness :
  exists w,
    compute RAND_MAX_glibc rand_lcg cbrt_fix fl53 no_site_engine length_error_gnu 1 no_site_inputs
      = Done w /\
    max_size (n_list w) = Undefined /\
    forall o, hyperion_voropp_wrap RAND_MAX_glibc rand_lcg cbrt_fix fl53 no_site_engine
                                   length_error_gnu 1 no_site_inputs o
              = (Undefined, o).
Proof.
  eexists. split; [vm_compute; reflexivity |].
  refine (proj1 (proj2 (proj2 (proj2 (proj2 (proj2
            (max_element_needs_a_site RAND_MAX_glibc rand_lcg cbrt_fix fl53 no_site_engine
               length_error_gnu 1 no_site_inputs _ _)))))) _);
    reflexivity.
Defined.

(** * Further properties of the code *)

(** ** Volumes of degenerate tetrahedra *)

Lemma Qabs_zero_div (x : Q) : (x == 0)%Q -> (Qabs x / 6 == 0)%Q.
Proof.
  intros H. rewrite H. reflexivity.
Qed.

(** X1. [tetra_volume] returns 0 when one of the vertices [v1], [v2], [v3]
    is the vertex [v0]: the differences of lines 123-131 for that vertex
    are zero, so a row of the matrix is zero and every product of the
    expansion of line 135 has a zero factor.  (No rounding is involved: the
    difference of a double with itself and its products with finite
    doubles are exactly zero.)  This is the tetrahedron a face through
    vertex 0 would give. *)
Theorem tetra_volume_coincident (verts : list Q) (v0 v1 v2 v3 : Z) :
  valid_vertex verts v0 = true -> valid_vertex verts v1 = true ->
  valid_vertex verts v2 = true -> valid_vertex verts v3 = true ->
  v1 = v0 \/ v2 = v0 \/ v3 = v0 ->
  exists t_vol,
    tetra_volume (verts, v0 * 3) (verts, v1 * 3) (verts, v2 * 3) (verts, v3 * 3)
      = Done t_vol /\ (t_vol == 0)%Q.
Proof.
  intros H0 H1 H2 H3 Heq. exists (volume_of verts v0 v1 v2 v3).
  split; [now apply tetra_volume_valid |].
  unfold volume_of. apply Qabs_zero_div. unfold det3.
  destruct Heq as [-> | [-> | ->]]; ring.
Qed.

Lemma tetra_volume_coincident_witness :
  exists t_vol,
    tetra_volume (cube_vertices, 0 * 3) (cube_vertices, 3 * 3)
                 (cube_vertices, 0 * 3) (cube_vertices, 5 * 3)
      = Done t_vol /\ (t_vol == 0)%Q.
Proof.
  apply (tetra_volume_coincident cube_vertices 0 3 0 5); try reflexivity.
  right. left. reflexivity.
Defined.

(** ** The fold of the draws *)

(** X2. Draws that already lie in the unit simplex are left as they are:
    the fold moves only the points of the cube outside it. *)
Theorem fold_draws_inside (s t u : Q) :
  (0 <= s)%Q -> (0 <= t)%Q -> (0 <= u)%Q -> (s + t + u <= 1)%Q ->
  fold_draws s t u = ((1 - s - t - u)%Q, s, t, u).
Proof.
  intros Hs Ht Hu Hsum. unfold fold_draws.
  assert (E1 : Qltb 1 (s + t) = false) by (apply Qltb_ge; lra).
  assert (E2 : Qltb 1 (t + u) = false) by (apply Qltb_ge; lra).
  assert (E3 : Qltb 1 (s + t + u) = false) by (apply Qltb_ge; lra).
  now rewrite E1, E2, E3.
Qed.

Lemma fold_draws_inside_witness :
  fold_draws (1 # 4) (1 # 4) (1 # 4)
  = ((1 - (1 # 4) - (1 # 4) - (1 # 4))%Q, 1 # 4, 1 # 4, 1 # 4).
Proof.
  apply (fold_draws_inside (1 # 4) (1 # 4) (1 # 4)); discriminate.
Defined.

(** ** The block count of one axis *)

(** X3. The block count of an axis, for a volume edge that is not zero and
    a double [x] to convert that is not negative: when [x] is below the
    largest [int], the count [n] is the integer with [n - 1 <= x < n], it is
    at least 1 and an [int]; from the largest [int] on, the conversion or
    the addition of 1 leaves the range of [int], and the count is
    undefined. *)
Theorem block_count_brackets (fl : Q -> Q) (extent vol_edge block_edge : Q) :
  let x := block_value fl extent vol_edge block_edge in
  ~ (vol_edge == 0)%Q -> (0 <= x)%Q ->
  ((x < inject_Z INT_MAX)%Q ->
   exists n,
     block_count fl extent vol_edge block_edge = Done n /\
     (inject_Z n - 1 <= x)%Q /\ (x < inject_Z n)%Q /\ 1 <= n <= INT_MAX) /\
  ((inject_Z INT_MAX <= x)%Q ->
   block_count fl extent vol_edge block_edge = Undefined).
Proof.
  intros x Hv Hx. split.
  - intros Hmax. exists (trunc x + 1). split; [now apply block_count_Done |].
    pose proof (trunc_nonneg _ Hx) as Hlo. pose proof (trunc_below _ _ Hx Hmax) as Hhi.
    rewrite trunc_floor in * by exact Hx.
    pose proof (Qfloor_le x) as Hl. pose proof (Qlt_floor x) as Hu.
    rewrite inject_Z_plus in Hu |- *. change (inject_Z 1) with 1%Q in Hu |- *.
    split; [lra |]. split; [exact Hu | lia].
  - apply block_count_out_of_range.
Qed.

Lemma block_count_brackets_witness :
  let x := block_value fl53 3 2 1 in
  ((x < inject_Z INT_MAX)%Q ->
   exists n,
     block_count fl53 3 2 1 = Done n /\
     (inject_Z n - 1 <= x)%Q /\ (x < inject_Z n)%Q /\ 1 <= n <= INT_MAX) /\
  ((inject_Z INT_MAX <= x)%Q -> block_count fl53 3 2 1 = Undefined).
Proof.
  apply (block_count_brackets fl53 3 2 1); vm_compute; discriminate.
Defined.

(** ** Bounding-box reducer *)

Lemma read_coord (verts : list Q) (k j : nat) :
  (k * 3 + 3 <= length verts)%nat -> (j < 3)%nat ->
  read verts (Z.of_nat k * 3 + Z.of_nat j) = Done (coord verts (Z.of_nat k) j).
Proof.
  intros Hk Hj.
  apply (iread_valid verts (Z.of_nat k) j); [| exact Hj].
  unfold valid_vertex. apply andb_true_iff. rewrite !Z.leb_le. lia.
Qed.

Lemma read_triplet (verts : list Q) (k : nat) :
  (k * 3 + 3 <= length verts)%nat ->
  read verts (Z.of_nat k * 3) = Done (coord verts (Z.of_nat k) 0) /\
  read verts (Z.of_nat k * 3 + 1) = Done (coord verts (Z.of_nat k) 1) /\
  read verts (Z.of_nat k * 3 + 2) = Done (coord verts (Z.of_nat k) 2).
Proof.
  intros Hk. split; [| split].
  - rewrite <- (read_coord verts k 0) by lia. f_equal. lia.
  - now apply (read_coord verts k 1); lia.
  - now apply (read_coord verts k 2); lia.
Qed.

Lemma bb_min1_cases (v m : Q) :
  (bb_min1 v m <= v)%Q /\ (bb_min1 v m <= m)%Q /\ (bb_min1 v m = v \/ bb_min1 v m = m).
Proof.
  unfold bb_min1. destruct (Qltb v m) eqn:E.
  - apply Qltb_lt in E. repeat split; [lra | lra | now left].
  - apply Qltb_ge in E. repeat split; [lra | lra | now right].
Qed.

Lemma bb_max1_cases (v m : Q) :
  (v <= bb_max1 v m)%Q /\ (m <= bb_max1 v m)%Q /\ (bb_max1 v m = v \/ bb_max1 v m = m).
Proof.
  unfold bb_max1. destruct (Qltb m v) eqn:E.
  - apply Qltb_lt in E. repeat split; [lra | lra | now left].
  - apply Qltb_ge in E. repeat split; [lra | lra | now right].
Qed.

(** One more vertex taken into the box. *)
Lemma tight_box_step (verts : list Q) (i : nat) (lo hi : Q * Q * Q) :
  tight_box verts i lo hi ->
  let p := point_of verts (Z.of_nat i) in
  tight_box verts (S i)
    (bb_min1 (axis p 0) (axis lo 0), bb_min1 (axis p 1) (axis lo 1),
     bb_min1 (axis p 2) (axis lo 2))
    (bb_max1 (axis p 0) (axis hi 0), bb_max1 (axis p 1) (axis hi 1),
     bb_max1 (axis p 2) (axis hi 2)).
Proof.
  intros H p j Hj. destruct (H j Hj) as (Hb & (kl & Hkl & El) & (kh & Hkh & Eh)).
  assert (Ep : axis p j = coord verts (Z.of_nat i) j).
  { unfold p, point_of. destruct j as [| [| [| j]]]; reflexivity || lia. }
  assert (Emin : axis (bb_min1 (axis p 0) (axis lo 0), bb_min1 (axis p 1) (axis lo 1),
                       bb_min1 (axis p 2) (axis lo 2)) j
                 = bb_min1 (axis p j) (axis lo j)).
  { destruct j as [| [| [| j]]]; reflexivity || lia. }
  assert (Emax : axis (bb_max1 (axis p 0) (axis hi 0), bb_max1 (axis p 1) (axis hi 1),
                       bb_max1 (axis p 2) (axis hi 2)) j
                 = bb_max1 (axis p j) (axis hi j)).
  { destruct j as [| [| [| j]]]; reflexivity || lia. }
  rewrite Emin, Emax, Ep.
  destruct (bb_min1_cases (coord verts (Z.of_nat i) j) (axis lo j)) as (L1 & L2 & L3).
  destruct (bb_max1_cases (coord verts (Z.of_nat i) j) (axis hi j)) as (M1 & M2 & M3).
  split; [| split].
  - intros k Hk. destruct (decide (k = i)) as [-> | Hne].
    + split; assumption.
    + assert (Hk' : (k < i)%nat) by lia. specialize (Hb k Hk'). split; lra.
  - destruct L3 as [-> | ->].
    + exists i. split; [lia | reflexivity].
    + exists kl. split; [lia | exact El].
  - destruct M3 as [-> | ->].
    + exists i. split; [lia | reflexivity].
    + exists kh. split; [lia | exact Eh].
Qed.

Lemma bb_loop_tight (verts : list Q) (n : nat) :
  forall (i : nat) (lo hi : Q * Q * Q),
    ((i + n) * 3 <= length verts)%nat ->
    tight_box verts i lo hi ->
    exists lo' hi',
      bb_loop n verts (Z.of_nat i) lo hi = Done (lo', hi') /\
      tight_box verts (i + n) lo' hi'.
Proof.
  induction n as [| n IH]; intros i lo hi Hlen Hbox.
  - exists lo, hi. split; [reflexivity |]. now rewrite Nat.add_0_r.
  - cbn [bb_loop].
    destruct (read_triplet verts i) as (R0 & R1 & R2); [lia |].
    rewrite R0, R1, R2. cbn [bind].
    destruct lo as [[lx ly] lz], hi as [[hx hy] hz].
    replace (Z.of_nat i + 1) with (Z.of_nat (S i)) by lia.
    pose proof (tight_box_step verts i (lx, ly, lz) (hx, hy, hz) Hbox) as Hstep.
    cbv zeta in Hstep. unfold point_of in Hstep. cbn [axis] in Hstep.
    destruct (IH (S i) _ _ ltac:(lia) Hstep) as (lo' & hi' & Hrun & Hbox').
    exists lo', hi'. split; [exact Hrun |].
    now replace (i + S n)%nat with (S i + n)%nat by lia.
Qed.

Lemma bounding_box_Done (tmp_vertices : list Q) :
  (3 <= length tmp_vertices)%nat ->
  exists lo hi,
    bounding_box tmp_vertices = Done (lo, hi) /\
    tight_box tmp_vertices (length tmp_vertices / 3) lo hi.
Proof.
  intros Hlen. unfold bounding_box.
  assert (Hdiv : (1 <= length tmp_vertices / 3)%nat).
  { apply Nat.div_le_lower_bound; lia. }
  assert (Hmul : (length tmp_vertices / 3 * 3 <= length tmp_vertices)%nat).
  { rewrite Nat.mul_comm. apply Nat.Div0.mul_div_le. }
  destruct (read_triplet tmp_vertices 0) as (R0 & R1 & R2); [lia |].
  change (Z.of_nat 0 * 3) with 0 in R0. change (Z.of_nat 0 * 3 + 1) with 1 in R1.
  change (Z.of_nat 0 * 3 + 2) with 2 in R2. change (Z.of_nat 0) with 0 in R0, R1, R2.
  rewrite R0, R1, R2. cbn [bind].
  replace (Z.to_nat (Z.of_nat (length tmp_vertices) / 3 - 1))
    with (length tmp_vertices / 3 - 1)%nat.
  - change 1 with (Z.of_nat 1).
    destruct (bb_loop_tight tmp_vertices (length tmp_vertices / 3 - 1) 1
                (point_of tmp_vertices 0) (point_of tmp_vertices 0))
      as (lo & hi & Hrun & Hbox).
    + lia.
    + intros j Hj. split; [| split].
      * intros k Hk. assert (k = 0)%nat as -> by lia.
        destruct j as [| [| [| j]]]; try lia; cbn; split; apply Qle_refl.
      * exists 0%nat. split; [lia |]. destruct j as [| [| [| j]]]; try lia; reflexivity.
      * exists 0%nat. split; [lia |]. destruct j as [| [| [| j]]]; try lia; reflexivity.
    + exists lo, hi. split; [exact Hrun |].
      now replace (length tmp_vertices / 3)%nat
        with (1 + (length tmp_vertices / 3 - 1))%nat by lia.
  - rewrite <- (Nat2Z.inj_div _ 3). lia.
Qed.

(** X4. The bounding box of a cell with at least one vertex: on every
    axis the two corners stored bound the coordinates of all the vertices,
    and each is the coordinate of some vertex.  A trailing incomplete
    triplet is not looked at. *)
Theorem bounding_box_tight (tmp_vertices : list Q) :
  (3 <= length tmp_vertices)%nat ->
  exists lo hi,
    bounding_box tmp_vertices = Done (lo, hi) /\
    tight_box tmp_vertices (length tmp_vertices / 3) lo hi.
Proof. exact (bounding_box_Done tmp_vertices). Qed.

Lemma bounding_box_tight_witness :
  exists lo hi,
    bounding_box cube_vertices = Done (lo, hi) /\
    tight_box cube_vertices (length cube_vertices / 3) lo hi.
Proof.
  apply (bounding_box_tight cube_vertices). simpl. lia.
Defined.

Example bounding_box_cube : bounding_box cube_vertices = Done ((0, 0, 0), (1, 1, 1))%Q.
Proof. reflexivity. Qed.

(** X5. The bounding box is defined exactly for a vertex list with at
    least three coordinates; on a shorter one, the empty list among them,
    the copy of the first vertex reads past the end. *)
Theorem bounding_box_defined_iff (tmp_vertices : list Q) :
  ((exists box, bounding_box tmp_vertices = Done box) <-> (3 <= length tmp_vertices)%nat) /\
  ((length tmp_vertices < 3)%nat <-> bounding_box tmp_vertices = Undefined).
Proof.
  destruct (Nat.le_gt_cases 3 (length tmp_vertices)) as [H | H].
  - destruct (bounding_box_Done tmp_vertices H) as (lo & hi & E & _).
    split; split; intros H'; try lia; eauto.
    rewrite E in H'. discriminate.
  - assert (E : bounding_box tmp_vertices = Undefined).
    { unfold bounding_box.
      destruct tmp_vertices as [| a [| b [| c rest]]]; try reflexivity.
      simpl in H. lia. }
    split; split; intros H'; try lia; try exact E.
    destruct H' as [box H']. rewrite E in H'. discriminate.
Qed.

(** ** Filling the container *)

Lemma put_loop_sites (points : list Q) (n : nat) :
  forall (i : nat) (con : container),
    ((i + n) * 3 <= length points)%nat ->
    put_loop n points (Z.of_nat i) con
    = Done (mk_container (con_box con) (con_blocks con)
                         (con_sites con ++ sites_of points i n) (con_walls con)).
Proof.
  induction n as [| n IH]; intros i con Hlen.
  - cbn [put_loop]. unfold sites_of. simpl. rewrite app_nil_r. now destruct con.
  - cbn [put_loop].
    destruct (read_triplet points i) as (R0 & R1 & R2); [lia |].
    rewrite R0, R1, R2. cbn [bind].
    replace (Z.of_nat i + 1) with (Z.of_nat (S i)) by lia.
    rewrite IH by lia. unfold put, sites_of. cbn [con_box con_blocks con_sites con_walls].
    cbn [seq map]. now rewrite <- app_assoc.
Qed.

Lemma put_loop_short (points : list Q) (n : nat) :
  forall (i : nat) (con : container),
    (i * 3 <= length points)%nat ->
    (length points < (i + n) * 3)%nat ->
    put_loop n points (Z.of_nat i) con = Undefined.
Proof.
  induction n as [| n IH]; intros i con Hpre Hlen; [lia |].
  cbn [put_loop].
  destruct (Nat.le_gt_cases (i * 3 + 3) (length points)) as [Hin | Hout].
  - destruct (read_triplet points i) as (R0 & R1 & R2); [lia |].
    rewrite R0, R1, R2. cbn [bind].
    replace (Z.of_nat i + 1) with (Z.of_nat (S i)) by lia.
    apply IH; lia.
  - destruct (read_cases points (Z.of_nat i * 3)) as [[x Ex] | Ex];
      [| now rewrite Ex].
    rewrite Ex. cbn [bind].
    destruct (read_cases points (Z.of_nat i * 3 + 1)) as [[y Ey] | Ey];
      [| now rewrite Ey].
    rewrite Ey. cbn [bind].
    destruct (read_cases points (Z.of_nat i * 3 + 2)) as [[z Ez] | Ez];
      [| now rewrite Ez].
    apply read_Done in Ez as [_ Ez]. apply lookup_lt_Some in Ez. lia.
Qed.

Lemma put_loop_all (points : list Q) (n : nat) (con : container) :
  (n * 3 <= length points)%nat ->
  put_loop n points 0 con
  = Done (mk_container (con_box con) (con_blocks con)
                       (con_sites con ++ sites_of points 0 n) (con_walls con)).
Proof.
  intros H. now apply (put_loop_sites points n 0 con).
Qed.

(** X6. The container is filled exactly when the array of points holds
    three coordinates for every site: it then receives the sites
    0 .. nsites-1 in order, site [i] at the position
    (points[3i], points[3i+1], points[3i+2]), and its box, its blocks and
    its walls are left alone; with fewer coordinates the loop reads past
    the array. *)
Theorem put_loop_fills (points : list Q) (n : nat) (con : container) :
  ((n * 3 <= length points)%nat ->
   put_loop n points 0 con
   = Done (mk_container (con_box con) (con_blocks con)
                        (con_sites con ++ sites_of points 0 n) (con_walls con))) /\
  ((length points < n * 3)%nat -> put_loop n points 0 con = Undefined).
Proof.
  split; intros H.
  - now apply put_loop_all.
  - apply (put_loop_short points n 0 con); [simpl; lia | exact H].
Qed.

Example put_loop_two :
  put_loop 2 [1; 2; 3; 4; 5; 6]%Q 0 (mk_container (0, 1, 0, 1, 0, 1)%Q (1, 1, 1) [] [])
  = Done (mk_container (0, 1, 0, 1, 0, 1)%Q (1, 1, 1)
                       [(0, (1, 2, 3)%Q); (1, (4, 5, 6)%Q)] []).
Proof. reflexivity. Qed.

(** ** Failures before the engine runs *)

Lemma wrap_throw (RAND_MAX : Z) (rand_out : nat -> Z) (cbrt fl : Q -> Q)
    (engine : container -> outcome (list cell)) (what : string)
    (fuel : nat) (inp : inputs) (o : outputs) (e : string) :
  prepare cbrt fl what inp = Throw e ->
  hyperion_voropp_wrap RAND_MAX rand_out cbrt fl engine what fuel inp o
  = (Done (RMessage (error_message e)), o).
Proof.
  intros H. rewrite wrap_unfold. unfold compute. now rewrite H.
Qed.

(** X7. A negative number of sites, when the sizer before it is defined:
    the construction of the vector of neighbour lists raises a length
    error, and the call returns the message built from it, for any engine,
    with the caller's output variables untouched. *)
Theorem wrap_negative_nsites (RAND_MAX : Z) (rand_out : nat -> Z) (cbrt fl : Q -> Q)
    (engine : container -> outcome (list cell)) (what : string)
    (fuel : nat) (inp : inputs) (o : outputs) (blocks : Z * Z * Z) :
  nsites inp < 0 ->
  block_grid cbrt fl (xmin inp) (xmax inp) (ymin inp) (ymax inp)
             (zmin inp) (zmax inp) (nsites inp) = Done blocks ->
  hyperion_voropp_wrap RAND_MAX rand_out cbrt fl engine what fuel inp o
  = (Done (RMessage (error_message what)), o).
Proof.
  intros Hn Hv. apply wrap_throw. unfold prepare. rewrite Hv. cbn [bind].
  unfold new_vector. apply Z.ltb_lt in Hn. now rewrite Hn.
Qed.

Lemma wrap_negative_nsites_witness :
  hyperion_voropp_wrap RAND_MAX_glibc rand_lcg cbrt_fix fl53 three_engine length_error_gnu 5
    (mk_inputs 0 1 0 1 0 1 [] (-1) true "" [] 0 false 0 false) outputs0
  = (Done (RMessage (error_message length_error_gnu)), outputs0).
Proof.
  apply (wrap_negative_nsites RAND_MAX_glibc rand_lcg cbrt_fix fl53 three_engine
           length_error_gnu 5
           (mk_inputs 0 1 0 1 0 1 [] (-1) true "" [] 0 false 0 false) outputs0
           (1, 1, 1)).
  - reflexivity.
  - vm_compute. reflexivity.
Defined.

(** X8. A wall the configurator refuses: when the sizer and the filling of
    the container complete, the call returns the message of the
    configurator's exception whatever the engine would yield, and the
    caller's output variables are untouched. *)
Theorem wrap_refused_wall (RAND_MAX : Z) (rand_out : nat -> Z) (cbrt fl : Q -> Q)
    (engine : container -> outcome (list cell)) (what : string)
    (fuel : nat) (inp : inputs) (o : outputs) (e : string) (blocks : Z * Z * Z) :
  0 <= nsites inp ->
  (Z.to_nat (nsites inp) * 3 <= length (points inp))%nat ->
  block_grid cbrt fl (xmin inp) (xmax inp) (ymin inp) (ymax inp)
             (zmin inp) (zmax inp) (nsites inp) = Done blocks ->
  (forall con, add_walls con (wall_str inp) (wall_args_arr inp) (n_wall_args inp)
               = Throw e) ->
  hyperion_voropp_wrap RAND_MAX rand_out cbrt fl engine what fuel inp o
  = (Done (RMessage (error_message e)), o).
Proof.
  intros Hn Hp Hv Hw. apply wrap_throw. unfold prepare. rewrite Hv. cbn [bind].
  unfold new_vector. replace (nsites inp <? 0) with false
    by (symmetry; apply Z.ltb_ge; lia).
  cbn [bind]. destruct (with_vertices inp); cbn [bind].
  - rewrite put_loop_all by exact Hp. cbn [bind]. now rewrite Hw.
  - rewrite put_loop_all by exact Hp. cbn [bind]. now rewrite Hw.
Qed.

Lemma wrap_refused_wall_witness :
  hyperion_voropp_wrap RAND_MAX_glibc rand_lcg cbrt_fix fl53 three_engine length_error_gnu 5
                       bad_wall_inputs outputs0
  = (Done (RMessage (error_message sphere_radius_msg)), outputs0).
Proof.
  apply (wrap_refused_wall RAND_MAX_glibc rand_lcg cbrt_fix fl53 three_engine
           length_error_gnu 5 bad_wall_inputs outputs0 sphere_radius_msg (2, 1, 1)).
  - discriminate.
  - simpl. lia.
  - vm_compute. reflexivity.
  - intros con. reflexivity.
Defined.

(** ** Neighbour symmetrizer: what a pass keeps *)

Lemma read_elem {A} (arr : list A) (i : Z) (x : A) : read arr i = Done x -> x ∈ arr.
Proof.
  intros H. apply read_Done in H as [_ H]. apply list_elem_of_lookup. eauto.
Qed.

Lemma sym_step_nodup (nl nl' : list (list Z)) (idx j : Z) :
  sym_step nl idx j = Done nl' -> Forall NoDup nl -> Forall NoDup nl'.
Proof.
  unfold sym_step. intros H Hnd. inv_bind H. inv_bind H.
  destruct (0 <=? x0); [| now injection H as <-].
  inv_bind H. destruct (existsb (Z.eqb idx) x1) eqn:Ex; [now injection H as <- |].
  unfold assign in H. destruct (lt_size x0 nl); [| discriminate].
  injection H as <-. apply Forall_insert; [exact Hnd |].
  apply NoDup_app. split; [| split].
  - rewrite Forall_forall in Hnd. apply Hnd. now apply (read_elem nl x0).
  - intros y Hy Hy'. apply list_elem_of_singleton in Hy'. subst y.
    apply existsb_eqb_elem in Hy. congruence.
  - apply NoDup_singleton.
Qed.

Lemma sym_row_nodup (fuel : nat) :
  forall (nl nl' : list (list Z)) (idx j : Z),
    sym_row fuel nl idx j = Done nl' -> Forall NoDup nl -> Forall NoDup nl'.
Proof.
  induction fuel as [| fuel IH]; intros nl nl' idx j H Hnd; [discriminate |].
  cbn [sym_row] in H. inv_bind H.
  destruct (j <? Z.of_nat (length x)); [| now injection H as <-].
  inv_bind H. apply (IH _ _ _ _ H). now apply (sym_step_nodup nl _ idx j).
Qed.

Lemma sym_loop_nodup (n fuel : nat) :
  forall (nl nl' : list (list Z)) (idx : Z),
    sym_loop n fuel nl idx = Done nl' -> Forall NoDup nl -> Forall NoDup nl'.
Proof.
  induction n as [| n IH]; intros nl nl' idx H Hnd; [now injection H as <- |].
  cbn [sym_loop] in H. inv_bind H.
  apply (IH _ _ _ H). now apply (sym_row_nodup fuel nl _ idx 0).
Qed.

(** X9. The pass appends a site to a list only when it is not in it yet:
    lists without repeated entries stay without repeated entries. *)
Theorem symmetrize_no_duplicates (fuel : nat) (nsites : Z) (n_list n_list' : list (list Z)) :
  symmetrize fuel nsites n_list = Done n_list' ->
  Forall NoDup n_list -> Forall NoDup n_list'.
Proof.
  unfold symmetrize. apply sym_loop_nodup.
Qed.

Lemma symmetrize_no_duplicates_witness : Forall NoDup [[1; 2; -1]; [0]; [0]].
Proof.
  apply (symmetrize_no_duplicates 4 3 [[1; 2; -1]; []; [0]]); [reflexivity |].
  apply (bool_decide_unpack _). vm_compute. exact I.
Defined.

(** ** Neighbour symmetrizer: a symmetric relation is a fixed point *)

Lemma sym_step_fixed (nl : list (list Z)) (a i : nat) (row : list Z) (v : Z) :
  site_idsP nl -> symmetric nl -> nl !! a = Some row -> row !! i = Some v ->
  sym_step nl (Z.of_nat a) (Z.of_nat i) = Done nl.
Proof.
  intros Hwf Hsym Ha Hi. unfold sym_step.
  rewrite (read_nat nl a row Ha). cbn [bind].
  rewrite (read_nat row i v Hi). cbn [bind].
  destruct (Z.leb_spec 0 v) as [Hv | Hv]; [| reflexivity].
  assert (Hin : v ∈ row) by (apply list_elem_of_lookup; eauto).
  assert (Hn : neighbor nl a (Z.of_nat (Z.to_nat v))).
  { exists row. split; [exact Ha |]. now rewrite Z2Nat.id. }
  apply Hsym in Hn as [other [Hother Hback]].
  assert (Er : read nl v = Done other) by (apply read_Done; auto).
  rewrite Er. cbn [bind].
  apply existsb_eqb_elem in Hback. now rewrite Hback.
Qed.

Lemma sym_row_fixed (nl : list (list Z)) (a : nat) (row : list Z) (m : nat) :
  site_idsP nl -> symmetric nl -> nl !! a = Some row ->
  forall (j fuel : nat),
    (length row - j = m)%nat -> (j <= length row)%nat -> (m < fuel)%nat ->
    sym_row fuel nl (Z.of_nat a) (Z.of_nat j) = Done nl.
Proof.
  intros Hwf Hsym Ha. induction m as [| m IH]; intros j fuel Hm Hj Hfuel.
  - destruct fuel as [| fuel]; [lia |]. cbn [sym_row].
    rewrite (read_nat nl a row Ha). cbn [bind].
    replace (Z.of_nat j <? Z.of_nat (length row)) with false; [reflexivity |].
    symmetry. apply Z.ltb_ge. lia.
  - destruct fuel as [| fuel]; [lia |]. cbn [sym_row].
    rewrite (read_nat nl a row Ha). cbn [bind].
    replace (Z.of_nat j <? Z.of_nat (length row)) with true
      by (symmetry; apply Z.ltb_lt; lia).
    assert (Hlt : (j < length row)%nat) by lia.
    destruct (lookup_lt_is_Some_2 row j Hlt) as [v Hv].
    rewrite (sym_step_fixed nl a j row v Hwf Hsym Ha Hv). cbn [bind].
    replace (Z.of_nat j + 1) with (Z.of_nat (S j)) by lia.
    apply IH; lia.
Qed.

Lemma sym_loop_fixed (nl : list (list Z)) (fuel : nat) :
  site_idsP nl -> symmetric nl -> (max_list_with length nl < fuel)%nat ->
  forall (n a : nat),
    (a + n = length nl)%nat -> sym_loop n fuel nl (Z.of_nat a) = Done nl.
Proof.
  intros Hwf Hsym Hfuel. induction n as [| n IH]; intros a Hn; [reflexivity |].
  cbn [sym_loop].
  assert (Ha : (a < length nl)%nat) by lia.
  destruct (lookup_lt_is_Some_2 nl a Ha) as [row Hrow].
  pose proof (max_list_with_ge nl a row Hrow) as Hmax.
  change 0 with (Z.of_nat 0).
  rewrite (sym_row_fixed nl a row (length row) Hwf Hsym Hrow 0 fuel) by lia.
  cbn [bind]. replace (Z.of_nat a + 1) with (Z.of_nat (S a)) by lia.
  apply IH. lia.
Qed.

(** X10. Neighbour lists that are already symmetric on site ids are
    returned as they are: nothing is appended to any list. *)
Theorem symmetrize_fixed_point (n_list : list (list Z)) (fuel : nat) :
  site_ids n_list = true -> symmetric n_list ->
  (max_list_with length n_list < fuel)%nat ->
  symmetrize fuel (Z.of_nat (length n_list)) n_list = Done n_list.
Proof.
  intros Hwf Hsym Hfuel. unfold symmetrize. rewrite Nat2Z.id.
  change 0 with (Z.of_nat 0).
  apply sym_loop_fixed; [now apply site_ids_P | exact Hsym | exact Hfuel | lia].
Qed.

Lemma symmetric_pair : symmetric [[1; -1]; [0; -2]].
Proof.
  intros a b [row [Ha Hb]].
  destruct a as [| [| a]]; [| | discriminate]; injection Ha as <-.
  - apply elem_of_cons in Hb as [Hb | Hb].
    + assert (b = 1%nat) as -> by lia. exists [0; -2].
      split; [reflexivity | apply elem_of_cons; now left].
    + apply list_elem_of_singleton in Hb. lia.
  - apply elem_of_cons in Hb as [Hb | Hb].
    + assert (b = 0%nat) as -> by lia. exists [1; -1].
      split; [reflexivity | apply elem_of_cons; now left].
    + apply list_elem_of_singleton in Hb. lia.
Qed.

Lemma symmetrize_fixed_point_witness :
  symmetrize 3 (Z.of_nat (length [[1; -1]; [0; -2]])) [[1; -1]; [0; -2]]
  = Done [[1; -1]; [0; -2]].
Proof.
  apply (symmetrize_fixed_point [[1; -1]; [0; -2]] 3);
    [reflexivity | exact symmetric_pair | simpl; lia].
Defined.

(** X11. A second pass changes nothing: with enough fuel the pass over
    the lists a pass returned returns the same lists. *)
Theorem symmetrize_idempotent (n_list : list (list Z)) :
  site_ids n_list = true ->
  exists (fuel0 : nat) (n_list' : list (list Z)),
    forall fuel, (fuel0 <= fuel)%nat ->
      symmetrize fuel (Z.of_nat (length n_list)) n_list = Done n_list' /\
      symmetrize fuel (Z.of_nat (length n_list)) n_list' = Done n_list'.
Proof.
  intros Hwf. apply site_ids_P in Hwf.
  destruct (sym_loop_repairs (length n_list) O n_list)
    as (fuel0 & nl' & Hrun & (Hlen & _) & Hwf' & Hrep);
    [lia | exact Hwf | intros a b Ha; lia |].
  assert (Hsym : symmetric nl').
  { intros a b Hn. apply Hrep; [| exact Hn].
    destruct Hn as [row [Ha _]]. rewrite <- Hlen. apply lookup_lt_is_Some. eauto. }
  exists (Nat.max fuel0 (S (max_list_with length nl'))), nl'.
  intros fuel Hfuel. split.
  - unfold symmetrize. rewrite Nat2Z.id. apply Hrun. lia.
  - unfold symmetrize. rewrite Nat2Z.id, <- Hlen. change 0 with (Z.of_nat 0).
    apply sym_loop_fixed; [exact Hwf' | exact Hsym | lia | lia].
Qed.

Lemma symmetrize_idempotent_witness :
  exists (fuel0 : nat) (n_list' : list (list Z)),
    forall fuel, (fuel0 <= fuel)%nat ->
      symmetrize fuel 3 [[1; 2; -1]; []; [0]] = Done n_list' /\
      symmetrize fuel 3 n_list' = Done n_list'.
Proof.
  apply (symmetrize_idempotent [[1; 2; -1]; []; [0]]). reflexivity.
Defined.

(** ** Neighbour symmetrizer: every id met has to be a site *)

Lemma rows_prefix_refl (nl : list (list Z)) : rows_prefix nl nl.
Proof.
  split; [reflexivity |]. intros x row Hx. exists []. now rewrite app_nil_r.
Qed.

Lemma rows_prefix_trans (nl nl1 nl2 : list (list Z)) :
  rows_prefix nl nl1 -> rows_prefix nl1 nl2 -> rows_prefix nl nl2.
Proof.
  intros (L1 & G1) (L2 & G2). split; [congruence |].
  intros x row Hx. destruct (G1 x row Hx) as [add1 Hx1].
  destruct (G2 x _ Hx1) as [add2 Hx2].
  exists (add1 ++ add2). now rewrite app_assoc.
Qed.

Lemma read_lt {A} (arr : list A) (i : Z) (x : A) :
  read arr i = Done x -> 0 <= i < Z.of_nat (length arr).
Proof.
  intros H. apply read_Done in H as [H0 H]. apply lookup_lt_Some in H. lia.
Qed.

Lemma sym_step_checked (nl nl' : list (list Z)) (idx j : Z) :
  sym_step nl idx j = Done nl' ->
  rows_prefix nl nl' /\
  exists row v, read nl idx = Done row /\ read row j = Done v /\
                v < Z.of_nat (length nl).
Proof.
  unfold sym_step. intros H. inv_bind H. inv_bind H.
  destruct (Z.leb_spec 0 x0) as [Hv | Hv].
  - inv_bind H. pose proof (read_lt _ _ _ Hx1) as Hlt.
    assert (Hres : exists row v, read nl idx = Done row /\ read row j = Done v /\
                                 v < Z.of_nat (length nl)).
    { exists x, x0. repeat split; try assumption. lia. }
    destruct (existsb (Z.eqb idx) x1).
    + injection H as <-. split; [apply rows_prefix_refl | exact Hres].
    + unfold assign in H. destruct (lt_size x0 nl); [| discriminate].
      injection H as <-. split; [| exact Hres].
      split; [apply length_insert |].
      intros y row Hy. destruct (decide (y = Z.to_nat x0)) as [-> | Hne].
      * apply read_Done in Hx1 as [_ Hx1]. rewrite Hx1 in Hy. injection Hy as <-.
        exists [idx]. apply list_lookup_insert_eq. lia.
      * exists []. rewrite app_nil_r. rewrite list_lookup_insert_ne; auto.
  - injection H as <-. split; [apply rows_prefix_refl |].
    exists x, x0. repeat split; try assumption. lia.
Qed.

Lemma sym_row_checked (fuel : nat) :
  forall (nl nl' : list (list Z)) (a j : nat) (row : list Z),
    sym_row fuel nl (Z.of_nat a) (Z.of_nat j) = Done nl' ->
    nl !! a = Some row ->
    rows_prefix nl nl' /\
    forall (i : nat) (v : Z), (j <= i)%nat -> row !! i = Some v ->
                              v < Z.of_nat (length nl).
Proof.
  induction fuel as [| fuel IH]; intros nl nl' a j row H Ha; [discriminate |].
  cbn [sym_row] in H. rewrite (read_nat nl a row Ha) in H. cbn [bind] in H.
  destruct (Z.ltb_spec (Z.of_nat j) (Z.of_nat (length row))) as [Hj | Hj].
  - inv_bind H. apply sym_step_checked in Hx as (Hpre & row0 & v0 & Er & Ev & Hv0).
    rewrite (read_nat nl a row Ha) in Er. injection Er as <-.
    destruct Hpre as (Hlen & Hrows). destruct (Hrows a row Ha) as [added Ha1].
    replace (Z.of_nat j + 1) with (Z.of_nat (S j)) in H by lia.
    destruct (IH x nl' a (S j) (row ++ added) H Ha1) as (Hpre' & Hlater).
    split; [apply (rows_prefix_trans nl x nl'); [split |]; assumption |].
    intros i v Hi Hiv. destruct (decide (i = j)) as [-> | Hne].
    + apply read_Done in Ev as [_ Ev]. rewrite Nat2Z.id in Ev. congruence.
    + rewrite <- Hlen. apply (Hlater i v); [lia |].
      now apply lookup_app_l_Some.
  - injection H as <-. split; [apply rows_prefix_refl |].
    intros i v Hi Hiv. apply lookup_lt_Some in Hiv. lia.
Qed.

Lemma sym_loop_checked (n fuel : nat) :
  forall (nl nl' : list (list Z)) (a : nat),
    sym_loop n fuel nl (Z.of_nat a) = Done nl' ->
    (a + n <= length nl)%nat ->
    rows_prefix nl nl' /\
    forall (x : nat) (row : list Z) (v : Z),
      (a <= x < a + n)%nat -> nl !! x = Some row -> v ∈ row ->
      v < Z.of_nat (length nl).
Proof.
  induction n as [| n IH]; intros nl nl' a H Hn.
  - injection H as <-. split; [apply rows_prefix_refl |]. intros x row v Hx. lia.
  - cbn [sym_loop] in H. inv_bind H.
    assert (Ha : (a < length nl)%nat) by lia.
    destruct (lookup_lt_is_Some_2 nl a Ha) as [rowa Hrowa].
    change 0 with (Z.of_nat 0) in Hx.
    destruct (sym_row_checked fuel nl x a 0 rowa Hx Hrowa) as (Hpre & Hrow).
    replace (Z.of_nat a + 1) with (Z.of_nat (S a)) in H by lia.
    destruct Hpre as (Hlen & Hrows).
    destruct (IH x nl' (S a) H ltac:(lia)) as (Hpre' & Hrest).
    split; [apply (rows_prefix_trans nl x nl'); [split |]; assumption |].
    intros y row v Hy Hrowy Hv. destruct (decide (y = a)) as [-> | Hne].
    + rewrite Hrowa in Hrowy. injection Hrowy as <-.
      apply list_elem_of_lookup in Hv as [i Hi]. apply (Hrow i v); [lia | exact Hi].
    + destruct (Hrows y row Hrowy) as [added Hy1].
      rewrite <- Hlen. apply (Hrest y (row ++ added) v); [lia | exact Hy1 |].
      apply elem_of_app. now left.
Qed.

(** X12. The pass completes only on neighbour lists whose entries are wall
    markers or site ids: an id that is no site is used as an index into the
    lists before anything is returned. *)
Theorem symmetrize_requires_site_ids (fuel : nat) (n_list n_list' : list (list Z)) :
  symmetrize fuel (Z.of_nat (length n_list)) n_list = Done n_list' ->
  site_ids n_list = true.
Proof.
  unfold symmetrize. rewrite Nat2Z.id. change 0 with (Z.of_nat 0). intros H.
  destruct (sym_loop_checked _ _ _ _ _ H ltac:(lia)) as (_ & Hall).
  apply P_site_ids. intros x row v Hx Hv.
  apply (Hall x row v); [| exact Hx | exact Hv].
  apply lookup_lt_Some in Hx. lia.
Qed.

Lemma symmetrize_requires_site_ids_witness : site_ids [[1; 2; -1]; []; [0]] = true.
Proof.
  apply (symmetrize_requires_site_ids 4 [[1; 2; -1]; []; [0]] [[1; 2; -1]; [0]; [0]]).
  reflexivity.
Defined.

(** ** Ragged-to-dense packer: the whole matrix *)

Lemma chunks_concat {B} (width : nat) (chunks : list (list B)) :
  forall l : list B,
    length l = (length chunks * width)%nat ->
    (forall (i : nat) (c : list B),
        chunks !! i = Some c -> take width (drop (width * i) l) = c) ->
    l = concat chunks.
Proof.
  induction chunks as [| c chunks IH]; intros l Hlen Hrows.
  - now apply nil_length_inv.
  - rewrite <- (take_drop width l). cbn [concat]. f_equal.
    + specialize (Hrows O c eq_refl). now rewrite Nat.mul_0_r in Hrows.
    + apply IH.
      * rewrite length_drop, Hlen. simpl. lia.
      * intros i c' Hi. rewrite drop_drop.
        replace (width + width * i)%nat with (width * S i)%nat by lia.
        now apply Hrows.
Qed.

Lemma pack_rows_concat {A B} (inj : A -> B) (pad indet : B) (rows : list (list A)) :
  let width := max_list_with length rows in
  pack_loop (Z.to_nat (Z.of_nat (length rows))) inj pad (Z.of_nat width) rows 0
            (malloc indet (Z.of_nat (length rows) * Z.of_nat width))
  = Done (Buf (concat (map (padded inj pad width) rows))).
Proof.
  intros width.
  destruct (pack_rows inj pad indet rows) as (cells & Hrun & Hlen & Hrows).
  fold width in Hrun, Hlen, Hrows. rewrite Hrun. do 2 f_equal.
  apply (chunks_concat width).
  - now rewrite length_map.
  - intros i c Hi. rewrite list_lookup_fmap in Hi.
    destruct (rows !! i) as [row |] eqn:Erow; [| discriminate].
    injection Hi as <-. specialize (Hrows i row Erow).
    unfold row_of in Hrows. rewrite Nat2Z.id in Hrows.
    replace (Z.to_nat (Z.of_nat width * Z.of_nat i)) with (width * i)%nat in Hrows by lia.
    exact Hrows.
Qed.

(** X13. With one list per site, the neighbour matrix is the concatenation
    of the lists, each padded with the sentinel to the length of the
    longest, and the vertex matrix the concatenation of the coordinate
    lists padded with not-a-number: [nsites * width] cells, none of them
    left as allocated. *)
Theorem pack_matrices_whole (nsites : Z) (n_list : list (list Z))
    (vertices_list : list (list Q)) :
  0 <= nsites ->
  length n_list = Z.to_nat nsites -> length vertices_list = Z.to_nat nsites ->
  let max_nn := max_list_with length n_list in
  let max_nv := max_list_with length vertices_list in
  let neighs := concat (map (padded Int (Int sentinel) max_nn) n_list) in
  let verts := concat (map (padded Fin NaN max_nv) vertices_list) in
  pack_neighbours nsites (Z.of_nat max_nn) n_list = Done (Buf neighs) /\
  pack_vertices nsites (Z.of_nat max_nv) vertices_list = Done (Buf verts) /\
  length neighs = (Z.to_nat nsites * max_nn)%nat /\
  length verts = (Z.to_nat nsites * max_nv)%nat /\
  Forall (fun c => c <> IIndet) neighs /\
  Forall (fun c => c <> Indet) verts.
Proof.
  intros Hn Hl Hv max_nn max_nv neighs verts.
  assert (En : nsites = Z.of_nat (length n_list)) by lia.
  assert (Ev : nsites = Z.of_nat (length vertices_list)) by lia.
  assert (Hpn : pack_neighbours nsites (Z.of_nat max_nn) n_list = Done (Buf neighs)).
  { unfold pack_neighbours. rewrite En. apply pack_rows_concat. }
  assert (Hpv : pack_vertices nsites (Z.of_nat max_nv) vertices_list = Done (Buf verts)).
  { unfold pack_vertices. rewrite Ev. apply pack_rows_concat. }
  split; [exact Hpn |]. split; [exact Hpv |].
  destruct (pack_neighbours_rows nsites n_list Hn Hl) as (cells & Hp & Hlen & _).
  fold max_nn in Hp, Hlen. rewrite Hpn in Hp. injection Hp as <-.
  destruct (pack_vertices_rows nsites vertices_list Hn Hv) as (vcells & Hp & Hvlen & _).
  fold max_nv in Hp, Hvlen. rewrite Hpv in Hp. injection Hp as <-.
  split; [now rewrite Hlen, Hl |]. split; [now rewrite Hvlen, Hv |].
  split.
  - apply Forall_concat, Forall_forall. intros c Hc.
    apply list_elem_of_fmap in Hc as [row [-> _]].
    unfold padded. apply Forall_app. split.
    + apply Forall_forall. intros x Hx. apply list_elem_of_fmap in Hx as [z [-> _]].
      discriminate.
    + apply Forall_forall. intros x Hx. apply elem_of_replicate in Hx as [-> _].
      discriminate.
  - apply Forall_concat, Forall_forall. intros c Hc.
    apply list_elem_of_fmap in Hc as [row [-> _]].
    unfold padded. apply Forall_app. split.
    + apply Forall_forall. intros x Hx. apply list_elem_of_fmap in Hx as [z [-> _]].
      discriminate.
    + apply Forall_forall. intros x Hx. apply elem_of_replicate in Hx as [-> _].
      discriminate.
Qed.

Lemma pack_matrices_whole_witness :
  pack_neighbours 3 5 [[1; 2]; [0; 2; -1; -2; -3]; [0; 1; -1]]
  = Done (Buf (map Int [1; 2; -10; -10; -10;  0; 2; -1; -2; -3;  0; 1; -1; -10; -10])).
Proof.
  refine (proj1 (pack_matrices_whole 3 [[1; 2]; [0; 2; -1; -2; -3]; [0; 1; -1]]
                                     [[]; []; []] _ eq_refl eq_refl)).
  discriminate.
Defined.

(** ** Volume-proportional sampling of a cell with positive volume *)

Lemma splice_lookup {A} (src buf : list A) (off : nat) :
  (off + length src <= length buf)%nat ->
  let buf' := take off buf ++ src ++ drop (off + length src) buf in
  length buf' = length buf /\
  (forall k, (k < off \/ off + length src <= k)%nat -> buf' !! k = buf !! k) /\
  (forall j, (j < length src)%nat -> buf' !! (off + j)%nat = src !! j).
Proof.
  intros H buf'. subst buf'. split; [| split].
  - rewrite !length_app, length_take, length_drop. lia.
  - intros k [Hk | Hk].
    + rewrite lookup_app_l by (rewrite length_take; lia).
      now apply lookup_take_lt.
    + rewrite lookup_app_r by (rewrite length_take; lia).
      rewrite length_take, lookup_app_r by lia.
      rewrite lookup_drop. f_equal. lia.
  - intros j Hj.
    rewrite lookup_app_r by (rewrite length_take; lia).
    rewrite length_take.
    replace (off + j - off `min` length buf)%nat with j by lia.
    now apply lookup_app_l.
Qed.

Lemma upper_bound_lt (c_vol : list Q) (r_vol x : Q) :
  x ∈ c_vol -> (r_vol < x)%Q -> (upper_bound c_vol r_vol < length c_vol)%nat.
Proof.
  induction c_vol as [| y c_vol IH]; intros Hin Hlt; [inversion Hin |].
  simpl. destruct (Qltb r_vol y) eqn:E; [lia |].
  apply elem_of_cons in Hin as [-> | Hin].
  - apply Qltb_ge in E. lra.
  - specialize (IH Hin Hlt). lia.
Qed.

(** The draw of the selection lies below the total volume. *)
Lemma r_vol_below (RAND_MAX r : Z) (total : Q) :
  0 <= r <= RAND_MAX -> (0 < total)%Q ->
  (inject_Z r * (total / (inject_Z RAND_MAX + 1)) < total)%Q.
Proof.
  intros Hr Ht.
  assert (HD : (0 < inject_Z RAND_MAX + 1)%Q).
  { unfold Qlt, Qplus, inject_Z. simpl. lia. }
  assert (Hr1 : (inject_Z r / (inject_Z RAND_MAX + 1) < 1)%Q).
  { apply Qlt_shift_div_r; [exact HD |].
    unfold Qlt, Qmult, Qplus, inject_Z. simpl. lia. }
  assert (E : (inject_Z r * (total / (inject_Z RAND_MAX + 1))
               == total * (inject_Z r / (inject_Z RAND_MAX + 1)))%Q).
  { field. lra. }
  rewrite E. apply Qlt_le_trans with (total * 1)%Q.
  - now apply Qmult_lt_l.
  - rewrite Qmult_1_r. apply Qle_refl.
Qed.

Lemma concat_lookup_4 {A} (tets : list (list A)) :
  Forall (fun tet => length tet = 4%nat) tets ->
  forall (i k : nat) (tet : list A),
    tets !! i = Some tet -> (k < 4)%nat ->
    concat tets !! (i * 4 + k)%nat = tet !! k.
Proof.
  induction 1 as [| t tets Ht _ IH]; intros i k tet Hi Hk; [discriminate |].
  cbn [concat]. destruct i as [| i].
  - injection Hi as <-. simpl. apply lookup_app_l. lia.
  - rewrite lookup_app_r by lia. rewrite Ht.
    replace (S i * 4 + k - 4)%nat with (i * 4 + k)%nat by lia.
    now apply IH.
Qed.

Lemma fan_valid (verts : list Q) (face : list Z) :
  valid_vertex verts 0 = true -> forallb (valid_vertex verts) face = true ->
  Forall (valid_tet verts) (fan face).
Proof.
  intros H0 Hf. unfold fan. apply Forall_forall. intros tet Hin.
  apply list_elem_of_fmap in Hin as [i [-> Hi]].
  apply list_elem_of_In, in_seq in Hi.
  split; [reflexivity |].
  intros k Hk. unfold fan_tetra.
  destruct k as [| [| [| [| k]]]]; try lia; cbn [nth].
  - exact H0.
  - apply forallb_nth; [exact Hf | lia].
  - apply forallb_nth; [exact Hf | lia].
  - apply forallb_nth; [exact Hf | lia].
Qed.

Lemma tetrahedra_valid (verts : list Q) (faces : list (list Z)) :
  valid_cell verts faces = true -> Forall (valid_tet verts) (tetrahedra faces).
Proof.
  intros Hv. apply valid_cell_parts in Hv as [H0 Hf].
  unfold tetrahedra. apply Forall_concat, Forall_forall. intros l Hl.
  apply list_elem_of_fmap in Hl as [face [-> Hface]].
  apply fan_valid; [exact H0 |].
  unfold retained in Hface. apply list_elem_of_filter in Hface as [_ Hface].
  rewrite forallb_forall in Hf. apply Hf. now apply list_elem_of_In.
Qed.

Lemma rand_lcg_range (k : nat) : 0 <= rand_lcg k <= RAND_MAX_glibc.
Proof.
  unfold rand_lcg.
  pose proof (Z.mod_pos_bound (1103515245 * (Z.of_nat k + 12345) + 12345)
                              (RAND_MAX_glibc + 1) ltac:(reflexivity)).
  lia.
Qed.

Lemma sample_point_tet (RAND_MAX : Z) (rand_out : nat -> Z) (calls : nat)
    (verts : list Q) (tet : list Z) :
  0 <= RAND_MAX -> (forall k, 0 <= rand_out k <= RAND_MAX) ->
  valid_tet verts tet ->
  exists p,
    in_tetra verts tet p /\
    sample_point_in_tetra RAND_MAX rand_out calls
      (verts, nth 0 tet 0 * 3) (verts, nth 1 tet 0 * 3)
      (verts, nth 2 tet 0 * 3) (verts, nth 3 tet 0 * 3)
    = Done (p, (calls + 3)%nat).
Proof.
  intros HM Hr [_ Hv].
  assert (Hread : forall k, (k < 4)%nat -> forall i, 0 <= i < 3 ->
            iread (verts, nth k tet 0 * 3) i
            = Done (coord verts (nth k tet 0) (Z.to_nat i))).
  { intros k Hk i Hi. rewrite <- (Z2Nat.id i) at 1 by lia.
    apply iread_valid; [now apply Hv | lia]. }
  destruct (sample_point_in_tetra_inside RAND_MAX rand_out calls
              (verts, nth 0 tet 0 * 3) (verts, nth 1 tet 0 * 3)
              (verts, nth 2 tet 0 * 3) (verts, nth 3 tet 0 * 3)
              (fun i => coord verts (nth 0 tet 0) (Z.to_nat i))
              (fun i => coord verts (nth 1 tet 0) (Z.to_nat i))
              (fun i => coord verts (nth 2 tet 0) (Z.to_nat i))
              (fun i => coord verts (nth 3 tet 0) (Z.to_nat i))
              HM Hr (Hread 0%nat ltac:(lia)) (Hread 1%nat ltac:(lia))
              (Hread 2%nat ltac:(lia)) (Hread 3%nat ltac:(lia)))
    as (a & s & t & u & Hb & Hrun).
  exists (combination verts tet (a, s, t, u)).
  split; [exists (a, s, t, u); split; [exact Hb | reflexivity] |].
  exact Hrun.
Qed.

Lemma read_tet (verts : list Q) (tets : list (list Z)) (t : nat) (tet : list Z) :
  Forall (valid_tet verts) tets -> tets !! t = Some tet ->
  read (concat tets) (Z.of_nat t * 4) = Done (nth 0 tet 0) /\
  read (concat tets) (Z.of_nat t * 4 + 1) = Done (nth 1 tet 0) /\
  read (concat tets) (Z.of_nat t * 4 + 2) = Done (nth 2 tet 0) /\
  read (concat tets) (Z.of_nat t * 4 + 3) = Done (nth 3 tet 0).
Proof.
  intros Hv Ht.
  assert (H4 : Forall (fun tet => length tet = 4%nat) tets).
  { eapply Forall_impl; [exact Hv |]. now intros x [Hx _]. }
  assert (Hlen : length tet = 4%nat).
  { rewrite Forall_forall in H4. apply H4, list_elem_of_lookup. eauto. }
  assert (Hk : forall k, (k < 4)%nat ->
            read (concat tets) (Z.of_nat (t * 4 + k)) = Done (nth k tet 0)).
  { intros k Hk. apply read_nat. rewrite (concat_lookup_4 tets H4 t k tet Ht Hk).
    destruct (nth_lookup_or_length tet k 0) as [E | E]; [exact E | lia]. }
  repeat split.
  - rewrite <- (Hk 0%nat) by lia. f_equal. lia.
  - rewrite <- (Hk 1%nat) by lia. f_equal. lia.
  - rewrite <- (Hk 2%nat) by lia. f_equal. lia.
  - rewrite <- (Hk 3%nat) by lia. f_equal. lia.
Qed.

(** The sampling loop on a decomposition of positive total volume: every
    draw of the selection is accepted. *)
Lemma sample_loop_healthy (RAND_MAX : Z) (rand_out : nat -> Z) (verts : list Q)
    (tets : list (list Z)) (d : decomp) (total : Q) (idx n : nat) :
  0 <= RAND_MAX -> (forall k, 0 <= rand_out k <= RAND_MAX) ->
  Forall (valid_tet verts) tets ->
  t_vert d = concat tets -> length (c_vol d) = length tets ->
  total ∈ c_vol d -> (0 < total)%Q ->
  forall (m i calls : nat) (cells : list dcell) (fuel : nat),
    (i + m = n)%nat -> (m < fuel)%nat ->
    (idx * n * 3 + n * 3 <= length cells)%nat ->
    exists cells',
      sample_loop RAND_MAX rand_out fuel verts d (total / (inject_Z RAND_MAX + 1))
                  (Z.of_nat idx) (Z.of_nat n) (Z.of_nat i) calls (Buf cells)
      = Done (Buf cells', (calls + 4 * m)%nat) /\
      length cells' = length cells /\
      (forall k, (k < idx * n * 3 + i * 3 \/ idx * n * 3 + n * 3 <= k)%nat ->
                 cells' !! k = cells !! k) /\
      (forall m', (i <= m' < n)%nat ->
         exists tet p, tet ∈ tets /\ in_tetra verts tet p /\ sample_at cells' idx n m' p).
Proof.
  intros HM Hr Hv Etv Elen Htot Hpos.
  induction m as [| m IH]; intros i calls cells fuel Him Hfuel Hfit.
  - destruct fuel as [| fuel]; [lia |]. cbn [sample_loop].
    replace (Z.of_nat i <? Z.of_nat n) with false by (symmetry; apply Z.ltb_ge; lia).
    exists cells. split; [do 2 f_equal; lia |]. split; [reflexivity |].
    split; [reflexivity |]. intros m' Hm'. lia.
  - destruct fuel as [| fuel]; [lia |]. cbn [sample_loop].
    replace (Z.of_nat i <? Z.of_nat n) with true by (symmetry; apply Z.ltb_lt; lia).
    unfold rand. cbv zeta.
    set (r_vol := (inject_Z (rand_out calls) * (total / (inject_Z RAND_MAX + 1)))%Q).
    assert (Hub : (upper_bound (c_vol d) r_vol < length (c_vol d))%nat).
    { apply (upper_bound_lt _ _ total Htot). now apply r_vol_below. }
    set (t := upper_bound (c_vol d) r_vol) in *.
    replace (t =? length (c_vol d))%nat with false
      by (symmetry; apply Nat.eqb_neq; lia).
    assert (Ht : (t < length tets)%nat) by lia.
    destruct (lookup_lt_is_Some_2 tets t Ht) as [tet Htet].
    destruct (read_tet verts tets t tet Hv Htet) as (R0 & R1 & R2 & R3).
    rewrite Etv, R0, R1, R2, R3. cbn [bind].
    assert (Hvt : valid_tet verts tet).
    { rewrite Forall_forall in Hv. apply Hv, list_elem_of_lookup. eauto. }
    destruct (sample_point_tet RAND_MAX rand_out (S calls) verts tet HM Hr Hvt)
      as (p & Hp & Hrun).
    rewrite Hrun. cbn [bind]. destruct p as [[x y] z].
    set (off := (idx * n * 3 + i * 3)%nat).
    replace (Z.of_nat idx * Z.of_nat n * 3 + Z.of_nat i * 3) with (Z.of_nat off)
      by (unfold off; lia).
    unfold store_at. rewrite copy_at_Done by (simpl; unfold off; lia). cbn [bind].
    destruct (splice_lookup [Fin x; Fin y; Fin z] cells off ltac:(simpl; unfold off; lia))
      as (Hlen1 & Hout1 & Hin1).
    cbv zeta in Hlen1, Hout1, Hin1.
    set (cells1 := take off cells ++ [Fin x; Fin y; Fin z]
                   ++ drop (off + length [Fin x; Fin y; Fin z]) cells) in *.
    replace (Z.of_nat i + 1) with (Z.of_nat (S i)) by lia.
    destruct (IH (S i) (S calls + 3)%nat cells1 fuel ltac:(lia) ltac:(lia) ltac:(lia))
      as (cells' & Hrun' & Hlen' & Hout' & Hin').
    exists cells'. split; [rewrite Hrun'; do 2 f_equal; lia |].
    split; [lia |]. split.
    + intros k Hk. rewrite Hout' by lia. apply Hout1. simpl. unfold off. lia.
    + intros m' Hm'. destruct (decide (m' = i)) as [-> | Hne].
      * exists tet, (x, y, z). split; [apply list_elem_of_lookup; eauto |].
        split; [exact Hp |].
        intros j Hj. rewrite Hout' by lia.
        fold off. rewrite (Hin1 j) by (simpl; lia).
        destruct j as [| [| [| j]]]; try lia; reflexivity.
      * apply Hin'. lia.
Qed.

Lemma tetrahedra_none (faces : list (list Z)) :
  Forall (fun face => has_vertex0 face = true \/ (length face < 3)%nat) faces ->
  tetrahedra faces = [].
Proof.
  unfold tetrahedra, retained. induction 1 as [| face faces Hface _ IH]; [reflexivity |].
  rewrite filter_cons. destruct (decide (has_vertex0 face = false)) as [E | E].
  - destruct Hface as [Hface | Hface]; [congruence |].
    cbn [map concat]. rewrite IH. unfold fan.
    replace (length face - 2)%nat with 0%nat by lia. reflexivity.
  - exact IH.
Qed.

(** X14. [sample_point_in_tetra] on four vertices of the cell takes three
    values of [rand()] and returns a convex combination of the four
    vertices: a point of the closed tetrahedron. *)
Theorem sample_point_in_tetra_point (RAND_MAX : Z) (rand_out : nat -> Z) (calls : nat)
    (verts : list Q) (v0 v1 v2 v3 : Z) :
  0 <= RAND_MAX -> (forall k, 0 <= rand_out k <= RAND_MAX) ->
  valid_vertex verts v0 = true -> valid_vertex verts v1 = true ->
  valid_vertex verts v2 = true -> valid_vertex verts v3 = true ->
  exists p,
    in_tetra verts [v0; v1; v2; v3] p /\
    sample_point_in_tetra RAND_MAX rand_out calls
      (verts, v0 * 3) (verts, v1 * 3) (verts, v2 * 3) (verts, v3 * 3)
    = Done (p, (calls + 3)%nat).
Proof.
  intros HM Hr H0 H1 H2 H3.
  apply (sample_point_tet RAND_MAX rand_out calls verts [v0; v1; v2; v3] HM Hr).
  split; [reflexivity |].
  intros [| [| [| [| k]]]] Hk; try assumption. lia.
Qed.

Lemma sample_point_in_tetra_point_witness :
  exists p,
    in_tetra cube_vertices [0; 1; 2; 4] p /\
    sample_point_in_tetra RAND_MAX_glibc rand_lcg 0
      (cube_vertices, 0 * 3) (cube_vertices, 1 * 3)
      (cube_vertices, 2 * 3) (cube_vertices, 4 * 3)
    = Done (p, (0 + 3)%nat).
Proof.
  apply (sample_point_in_tetra_point RAND_MAX_glibc rand_lcg 0 cube_vertices 0 1 2 4);
    [discriminate | exact rand_lcg_range | reflexivity ..].
Defined.

(** X15. A cell all of whose faces pass through vertex 0 (or have fewer than
    three vertices) gives no tetrahedron: line 319 then reads [back()] of an
    empty vector, which is undefined, whatever the number of samples. *)
Theorem sample_cell_no_tetrahedra (RAND_MAX : Z) (rand_out : nat -> Z) (verts : list Q)
    (faces : list (list Z)) (idx n_samples : Z) (calls fuel : nat) (spoints : ptr dcell) :
  valid_cell verts faces = true ->
  Forall (fun face => has_vertex0 face = true \/ (length face < 3)%nat) faces ->
  (length faces < fuel)%nat ->
  sample_cell RAND_MAX rand_out fuel verts (encode_faces faces)
              idx n_samples calls spoints = Undefined.
Proof.
  intros Hv Hf Hfuel. unfold sample_cell.
  rewrite face_walk_emit by assumption.
  now rewrite (tetrahedra_none faces Hf).
Qed.

Lemma sample_cell_no_tetrahedra_witness :
  sample_cell RAND_MAX_glibc rand_lcg 3 tetra_vertices
              (encode_faces [[0; 1; 2]; [0; 2; 3]]) 0 0 0 NULL = Undefined.
Proof.
  apply (sample_cell_no_tetrahedra RAND_MAX_glibc rand_lcg tetra_vertices
           [[0; 1; 2]; [0; 2; 3]] 0 0 0%nat 3%nat NULL).
  - reflexivity.
  - repeat constructor.
  - simpl. lia.
Defined.

(** X16. Sampling a cell whose tetrahedra have positive total volume, with
    room for the samples of the site in the buffer: the loop of lines 320-334
    stores [n_samples] points and stops, it takes four values of [rand()]
    for each of them (no draw is rejected), it writes only the cells of the
    site, and every stored point lies in one of the tetrahedra of the
    decomposition. *)
Theorem sample_cell_healthy (RAND_MAX : Z) (rand_out : nat -> Z) (verts : list Q)
    (faces : list (list Z)) (idx n calls : nat) (cells : list dcell) (fuel : nat) :
  0 <= RAND_MAX -> (forall k, 0 <= rand_out k <= RAND_MAX) ->
  valid_cell verts faces = true ->
  (0 < Qsum (map (tetra_vol verts) (tetrahedra faces)))%Q ->
  (length faces < fuel)%nat -> (n < fuel)%nat ->
  (idx * n * 3 + n * 3 <= length cells)%nat ->
  exists cells',
    sample_cell RAND_MAX rand_out fuel verts (encode_faces faces)
                (Z.of_nat idx) (Z.of_nat n) calls (Buf cells)
    = Done (Buf cells', (calls + 4 * n)%nat) /\
    length cells' = length cells /\
    (forall k, (k < idx * n * 3 \/ idx * n * 3 + n * 3 <= k)%nat ->
               cells' !! k = cells !! k) /\
    (forall m, (m < n)%nat ->
       exists tet p,
         tet ∈ tetrahedra faces /\ in_tetra verts tet p /\ sample_at cells' idx n m p).
Proof.
  intros HM Hr Hv Hpos Hfuel Hn Hfit. unfold sample_cell.
  rewrite face_walk_emit by assumption. cbn [bind].
  destruct (emit_shape verts (tetrahedra faces) decomp_init) as (Etv & Ecv & _).
  cbn [decomp_init t_vert c_vol vol app] in Etv, Ecv.
  set (d := emit verts (tetrahedra faces) decomp_init) in *.
  unfold back.
  destruct (last (c_vol d)) as [total |] eqn:Elast.
  - cbn [bind].
    assert (Htot : (0 < total)%Q).
    { rewrite Ecv in Elast. apply running_sums_last in Elast. rewrite Elast. lra. }
    destruct (sample_loop_healthy RAND_MAX rand_out verts (tetrahedra faces) d total idx n
                HM Hr (tetrahedra_valid verts faces Hv) Etv
                ltac:(rewrite Ecv, running_sums_length, length_map; reflexivity)
                ltac:(apply last_Some_elem_of; exact Elast) Htot
                n 0%nat calls cells fuel ltac:(lia) Hn Hfit)
      as (cells' & Hrun & Hlen & Hout & Hin).
    exists cells'. split; [exact Hrun |]. split; [exact Hlen |]. split.
    + intros k Hk. apply Hout. lia.
    + intros m Hm. apply Hin. lia.
  - exfalso. apply last_None in Elast. rewrite Ecv in Elast.
    destruct (tetrahedra faces); [simpl in Hpos; lra | discriminate].
Qed.

Lemma sample_cell_healthy_witness :
  exists cells',
    sample_cell RAND_MAX_glibc rand_lcg 7 cube_vertices (encode_faces cube_faces)
                (Z.of_nat 1) (Z.of_nat 2) 0 (Buf (replicate 12 Indet))
    = Done (Buf cells', (0 + 4 * 2)%nat) /\
    length cells' = length (replicate 12 Indet) /\
    (forall k, (k < 1 * 2 * 3 \/ 1 * 2 * 3 + 2 * 3 <= k)%nat ->
               cells' !! k = replicate 12 Indet !! k) /\
    (forall m, (m < 2)%nat ->
       exists tet p,
         tet ∈ tetrahedra cube_faces /\ in_tetra cube_vertices tet p /\
         sample_at cells' 1 2 m p).
Proof.
  apply (sample_cell_healthy RAND_MAX_glibc rand_lcg cube_vertices cube_faces
           1 2 0 (replicate 12 Indet) 7).
  - discriminate.
  - exact rand_lcg_range.
  - reflexivity.
  - vm_compute. reflexivity.
  - simpl. lia.
  - lia.
  - simpl. lia.
Defined.

(** ** The owning pointer *)

(** X17. Whatever is called on a [ptr_raii] before it is destroyed, the
    pointer it was built with is handed out by [release] or passed to
    [std::free] by the destructor, once and not both; a null pointer is
    never freed; after a [release] the destructor frees nothing, and
    without one the calls hand out nothing. *)
Theorem ptr_raii_owns_once {A : Type} (calls : list raii_call) (p : ptr_raii A) :
  let r := raii_calls calls p in
  fst r ++ destroy (snd r) = destroy p /\
  (CallRelease ∈ calls -> destroy (snd r) = []) /\
  (CallRelease ∉ calls -> r = ([], p)).
Proof.
  revert p. induction calls as [| [|] calls IH]; intros p; cbn zeta.
  - cbn [raii_calls fst snd app]. split; [reflexivity |].
    split; [intros H; inversion H | reflexivity].
  - cbn [raii_calls]. destruct (IH p) as (E1 & E2 & E3). split; [exact E1 |]. split.
    + intros H. apply elem_of_cons in H as [H | H]; [discriminate | now apply E2].
    + intros H. apply E3. intros Hin. apply H. now right.
  - cbn [raii_calls release]. destruct (IH (mk_ptr_raii None)) as (E1 & E2 & E3).
    destruct (raii_calls calls (mk_ptr_raii None)) as [outs p''] eqn:Er.
    cbn [fst snd] in *. cbn [destroy m_ptr app] in E1.
    split; [| split].
    + destruct p as [[a |]]; cbn [m_ptr destroy]; [| exact E1].
      change ((a :: outs) ++ destroy p'') with (a :: (outs ++ destroy p'')).
      now rewrite E1.
    + intros _. destruct (destroy p'') eqn:Ed; [reflexivity |].
      destruct outs; discriminate.
    + intros H. exfalso. apply H. now left.
Qed.

(** ** The data of the cells in the local buffers *)

Lemma assign_lookup {A} (v v' : list A) (i : Z) (x : A) :
  assign v i x = Done v' ->
  0 <= i /\ v' !! Z.to_nat i = Some x /\
  forall k, k <> Z.to_nat i -> v' !! k = v !! k.
Proof.
  unfold assign, lt_size. destruct (0 <=? i) eqn:E0; [| discriminate].
  destruct (i <? Z.of_nat (length v)) eqn:E1; [| discriminate].
  cbn [andb]. intros [= <-]. apply Z.leb_le in E0. apply Z.ltb_lt in E1.
  split; [exact E0 |]. split.
  - apply list_lookup_insert_eq. lia.
  - intros k Hk. apply list_lookup_insert_ne. congruence.
Qed.

Lemma store_at_lookup {A} (src : list A) (off : Z) (p p' : ptr A) :
  store_at src off p = Done p' ->
  0 <= off /\
  (forall j, (j < length src)%nat -> cell_at p' (Z.to_nat off + j) = src !! j) /\
  (forall k, (k < Z.to_nat off \/ Z.to_nat off + length src <= k)%nat ->
             cell_at p' k = cell_at p k).
Proof.
  unfold store_at. destruct p as [| cells]; [discriminate |].
  unfold copy_at. destruct (off <? 0) eqn:E0; [discriminate |].
  destruct (Z.of_nat (length cells) <? off + Z.of_nat (length src)) eqn:E1;
    [discriminate |].
  cbn [orb bind]. intros [= <-]. apply Z.ltb_ge in E0, E1.
  destruct (splice_lookup src cells (Z.to_nat off) ltac:(lia)) as (_ & Hout & Hin).
  cbv zeta in Hout, Hin. cbn [cell_at]. split; [exact E0 |]. split; assumption.
Qed.

Lemma cell_geometry_records (inp : inputs) (c : cell) (w w1 : work) :
  cell_geometry inp c w = Done w1 ->
  0 <= c_idx c /\ recorded inp c w1 /\
  spoints w1 = spoints w /\ calls w1 = calls w /\
  forall i, i <> Z.to_nat (c_idx c) -> same_site w w1 i.
Proof.
  unfold cell_geometry. intros H.
  inv_bind H. inv_bind H. inv_bind H. inv_bind H. inv_bind H. inv_bind H. inv_bind H.
  injection H as <-.
  apply assign_lookup in Hx0 as (Hidx & Hn & Hn').
  apply store_at_lookup in Hx1 as (_ & Hv & Hv').
  apply store_at_lookup in Hx4 as (_ & Hm & Hm').
  apply store_at_lookup in Hx5 as (_ & HM & HM').
  destruct x3 as [lo hi]. cbn [fst snd] in Hm, HM, Hm', HM'.
  replace (Z.to_nat (c_idx c * 3)) with (Z.to_nat (c_idx c) * 3)%nat in * by lia.
  assert (Hlo : forall j, (j < 3)%nat -> triple lo !! j = Some (Fin (axis lo j))).
  { destruct lo as [[lx ly] lz]. intros [| [| [| j]]] Hj; try lia; reflexivity. }
  assert (Hhi : forall j, (j < 3)%nat -> triple hi !! j = Some (Fin (axis hi j))).
  { destruct hi as [[hx hy] hz]. intros [| [| [| j]]] Hj; try lia; reflexivity. }
  assert (L3 : forall q, length (triple q) = 3%nat) by (now intros [[? ?] ?]).
  rewrite L3 in Hm, HM, Hm', HM'.
  split; [exact Hidx |]. split; [| split; [reflexivity | split; [reflexivity |]]].
  - unfold recorded. cbn [n_list vols vertices_list bb_m bb_M]. split; [exact Hn |].
    split; [specialize (Hv 0%nat ltac:(simpl; lia)); rewrite Nat.add_0_r in Hv; exact Hv |].
    split.
    + intros Ev. rewrite Ev in Hx2. now apply assign_lookup in Hx2 as (_ & Hx2 & _).
    + exists lo, hi. split; [exact Hx3 |].
      intros j Hj. rewrite Hm, HM by exact Hj. split; [now apply Hlo | now apply Hhi].
  - intros i Hi. unfold same_site. cbn [n_list vols vertices_list bb_m bb_M].
    split; [now apply Hn' |]. split; [| split].
    + destruct (with_vertices inp).
      * apply assign_lookup in Hx2 as (_ & _ & Hx2). now apply Hx2.
      * now injection Hx2 as <-.
    + apply Hv'. cbn [length]. lia.
    + intros j Hj. split; [apply Hm' | apply HM']; lia.
Qed.

Lemma cell_step_records (RAND_MAX : Z) (rand_out : nat -> Z) (fuel : nat)
    (inp : inputs) (c : cell) (w w' : work) :
  cell_step RAND_MAX rand_out fuel inp c w = Done w' ->
  0 <= c_idx c /\ recorded inp c w' /\
  forall i, i <> Z.to_nat (c_idx c) -> same_site w w' i.
Proof.
  unfold cell_step. intros H. inv_bind H.
  apply cell_geometry_records in Hx as (Hidx & Hrec & _ & _ & Hsame).
  destruct (negb (with_sampling inp)).
  - injection H as <-. auto.
  - inv_bind H. injection H as <-. auto.
Qed.

Lemma same_site_trans (w w1 w2 : work) (i : nat) :
  same_site w w1 i -> same_site w1 w2 i -> same_site w w2 i.
Proof.
  intros (A1 & A2 & A3 & A4) (B1 & B2 & B3 & B4).
  split; [congruence |]. split; [congruence |]. split; [congruence |].
  intros j Hj. destruct (A4 j Hj), (B4 j Hj). split; congruence.
Qed.

Lemma recorded_same_site (inp : inputs) (c : cell) (w w' : work) :
  recorded inp c w -> same_site w w' (Z.to_nat (c_idx c)) -> recorded inp c w'.
Proof.
  intros (A1 & A2 & A3 & lo & hi & A4 & A5) (B1 & B2 & B3 & B4).
  split; [congruence |]. split; [congruence |].
  split; [intros Ev; rewrite B2; now apply A3 |].
  exists lo, hi. split; [exact A4 |].
  intros j Hj. destruct (A5 j Hj), (B4 j Hj). split; congruence.
Qed.

Lemma cells_loop_frame (RAND_MAX : Z) (rand_out : nat -> Z) (fuel : nat)
    (inp : inputs) (cells : list cell) :
  forall w w' : work,
    cells_loop RAND_MAX rand_out fuel inp cells w = Done w' ->
    Forall (fun c => 0 <= c_idx c) cells /\
    forall i, Z.of_nat i ∉ map c_idx cells -> same_site w w' i.
Proof.
  induction cells as [| c cells IH]; intros w w' H.
  - injection H as <-. split; [constructor |]. intros i _. now repeat split.
  - cbn [cells_loop] in H. inv_bind H.
    apply cell_step_records in Hx as (Hidx & _ & Hsame).
    apply IH in H as [Hall Hframe].
    split; [now constructor |].
    intros i Hi. cbn [map] in Hi. rewrite not_elem_of_cons in Hi. destruct Hi as [Hne Hi].
    apply same_site_trans with x; [apply Hsame; lia | now apply Hframe].
Qed.

Lemma cells_loop_all_recorded (RAND_MAX : Z) (rand_out : nat -> Z) (fuel : nat)
    (inp : inputs) (cells : list cell) :
  NoDup (map c_idx cells) ->
  forall w w' : work,
    cells_loop RAND_MAX rand_out fuel inp cells w = Done w' ->
    forall c, c ∈ cells -> 0 <= c_idx c /\ recorded inp c w'.
Proof.
  induction cells as [| c cells IH]; intros Hnd w w' H c' Hc'; [inversion Hc' |].
  cbn [cells_loop] in H. inv_bind H.
  apply cell_step_records in Hx as (Hidx & Hrec & _).
  cbn [map] in Hnd. apply NoDup_cons in Hnd as [Hnotin Hnd].
  apply elem_of_cons in Hc' as [-> | Hc']; [| exact (IH Hnd x w' H c' Hc')].
  split; [exact Hidx |].
  apply recorded_same_site with x; [exact Hrec |].
  apply (cells_loop_frame _ _ _ _ _ _ _ H). now rewrite Z2Nat.id.
Qed.

(** X18. The loop over the cells, when the engine yields at most one cell
    for a site: after it the local buffers hold, at the entries of the site
    of every cell, the neighbours, the volume, the vertices (when asked for)
    and the bounding box of that cell, and the entries of the sites without
    a cell are as they were. *)
Theorem cells_loop_records (RAND_MAX : Z) (rand_out : nat -> Z) (fuel : nat)
    (inp : inputs) (cells : list cell) (w w' : work) :
  NoDup (map c_idx cells) ->
  cells_loop RAND_MAX rand_out fuel inp cells w = Done w' ->
  (forall c, c ∈ cells -> 0 <= c_idx c /\ recorded inp c w') /\
  (forall i, Z.of_nat i ∉ map c_idx cells -> same_site w w' i).
Proof.
  intros Hnd H. split.
  - now apply (cells_loop_all_recorded _ _ _ _ _ Hnd w w' H).
  - now apply (cells_loop_frame _ _ _ _ _ _ _ H).
Qed.

Lemma cells_loop_records_witness :
  let w := mk_work [[]; []; []] [[]; []; []] (malloc Indet 3) (malloc Indet 9)
                   (malloc Indet 9) NULL 0 in
  let w' := mk_work [[1; 2]; [0; 2; -1; -2; -3]; [0; 1; -1]] (map c_vertices three_cells)
                    (Buf [Fin 1; Fin (1 # 6); Fin 1])
                    (Buf (replicate 9 (Fin 0))) (Buf (replicate 9 (Fin 1))) NULL 0 in
  (forall c, c ∈ three_cells -> 0 <= c_idx c /\ recorded three_inputs c w') /\
  (forall i, Z.of_nat i ∉ map c_idx three_cells -> same_site w w' i).
Proof.
  intros w w'.
  apply (cells_loop_records RAND_MAX_glibc rand_lcg 0 three_inputs three_cells w w').
  - apply (bool_decide_unpack _). vm_compute. exact I.
  - vm_compute. reflexivity.
Defined.

(** ** The lists the symmetrizer returns *)

Lemma lists_lookup (raw : list (list Z)) (a : nat) (ra : list Z) (b : Z) :
  raw !! a = Some ra -> lists raw a b = existsb (Z.eqb b) ra.
Proof.
  intros H. unfold lists. rewrite nth_lookup, H. reflexivity.
Qed.

Lemma appended_S (raw : list (list Z)) (x k : nat) :
  appended raw x (S k)
  = appended raw x k
    ++ (if lists raw k (Z.of_nat x) && negb (lists raw x (Z.of_nat k))
        then [Z.of_nat k] else []).
Proof.
  unfold appended. rewrite List.seq_S, List.filter_app, List.map_app.
  cbn [List.filter Nat.add].
  destruct (lists raw k (Z.of_nat x) && negb (lists raw x (Z.of_nat k))); reflexivity.
Qed.

Lemma appended_spec (raw : list (list Z)) (x k : nat) (v : Z) :
  v ∈ appended raw x k <->
  exists a, v = Z.of_nat a /\ (a < k)%nat /\
            lists raw a (Z.of_nat x) = true /\ lists raw x (Z.of_nat a) = false.
Proof.
  unfold appended. rewrite list_elem_of_In, in_map_iff. split.
  - intros (a & <- & Ha). apply filter_In in Ha as [Hs Hp].
    apply in_seq in Hs. apply andb_true_iff in Hp as [H1 H2].
    apply negb_true_iff in H2. exists a. repeat split; try assumption. lia.
  - intros (a & -> & Ha & H1 & H2). exists a. split; [reflexivity |].
    apply filter_In. split; [apply in_seq; lia |]. now rewrite H1, H2.
Qed.

Lemma appended_not_self (raw : list (list Z)) (x a : nat) :
  existsb (Z.eqb (Z.of_nat a)) (appended raw x a) = false.
Proof.
  destruct (existsb (Z.eqb (Z.of_nat a)) (appended raw x a)) eqn:E; [| reflexivity].
  apply existsb_eqb_elem, appended_spec in E as (a' & E & Ha' & _). lia.
Qed.

Lemma pending_S (raw : list (list Z)) (a : nat) (rowa : list Z) (j x : nat) (b : Z) :
  rowa !! j = Some b ->
  pending raw a rowa (S j) x
  = if (Z.of_nat x =? b) && negb (lists raw x (Z.of_nat a)) then [Z.of_nat a]
    else pending raw a rowa j x.
Proof.
  intros Hb. unfold pending. rewrite (take_S_r rowa j b Hb), existsb_app.
  cbn [existsb]. rewrite orb_false_r.
  destruct (existsb (Z.eqb (Z.of_nat x)) (take j rowa)), (Z.of_nat x =? b),
    (negb (lists raw x (Z.of_nat a))); reflexivity.
Qed.

Lemma pending_self (raw : list (list Z)) (a : nat) (ra : list Z) (j : nat) :
  raw !! a = Some ra ->
  pending raw a (ra ++ appended raw a a) j a = [].
Proof.
  intros Ha. unfold pending.
  destruct (existsb (Z.eqb (Z.of_nat a)) (take j (ra ++ appended raw a a))) eqn:E;
    [| reflexivity].
  rewrite (lists_lookup raw a ra _ Ha).
  destruct (existsb (Z.eqb (Z.of_nat a)) ra) eqn:Era; [reflexivity |].
  exfalso.
  assert (Hall : existsb (Z.eqb (Z.of_nat a)) (ra ++ appended raw a a) = true).
  { rewrite <- (take_drop j (ra ++ appended raw a a)), existsb_app, E. reflexivity. }
  rewrite existsb_app, Era, appended_not_self in Hall. discriminate.
Qed.

Lemma pending_full (raw : list (list Z)) (a : nat) (ra : list Z) (x : nat) :
  raw !! a = Some ra ->
  pending raw a (ra ++ appended raw a a) (length (ra ++ appended raw a a)) x
  = if lists raw a (Z.of_nat x) && negb (lists raw x (Z.of_nat a))
    then [Z.of_nat a] else [].
Proof.
  intros Ha. unfold pending. rewrite firstn_all, existsb_app.
  rewrite (lists_lookup raw a ra _ Ha).
  destruct (existsb (Z.eqb (Z.of_nat x)) ra); [reflexivity |]. cbn [orb andb].
  destruct (existsb (Z.eqb (Z.of_nat x)) (appended raw a a)) eqn:E; [| reflexivity].
  apply existsb_eqb_elem, appended_spec in E as (x' & E & _ & H1 & _).
  apply Nat2Z.inj in E. subst x'. now rewrite H1.
Qed.

Lemma sym_step_appends (raw : list (list Z)) (a : nat) (ra : list Z) (j : nat)
    (nl nl' : list (list Z)) :
  raw !! a = Some ra -> (j < length (ra ++ appended raw a a))%nat ->
  row_state raw a (ra ++ appended raw a a) j nl ->
  sym_step nl (Z.of_nat a) (Z.of_nat j) = Done nl' ->
  row_state raw a (ra ++ appended raw a a) (S j) nl'.
Proof.
  set (rowa := ra ++ appended raw a a).
  intros Ha Hj [Hlen Hst] H.
  assert (Hrow : nl !! a = Some rowa).
  { rewrite (Hst a ra Ha). unfold rowa at 1. rewrite (pending_self raw a ra j Ha).
    now rewrite app_nil_r. }
  destruct (lookup_lt_is_Some_2 rowa j Hj) as [b Hb].
  unfold sym_step in H. rewrite (read_nat nl a rowa Hrow) in H. cbn [bind] in H.
  rewrite (read_nat rowa j b Hb) in H. cbn [bind] in H.
  destruct (Z.leb_spec 0 b) as [H0 | H0].
  - inv_bind H. apply read_Done in Hx as [_ Hx].
    assert (Hxb : (Z.to_nat b < length raw)%nat).
    { rewrite <- Hlen. apply lookup_lt_is_Some. eauto. }
    destruct (lookup_lt_is_Some_2 raw _ Hxb) as [rb Hrb].
    pose proof (Hst _ rb Hrb) as Hother. rewrite Hx in Hother. injection Hother as ->.
    rewrite !existsb_app, appended_not_self, <- (lists_lookup raw _ rb _ Hrb) in H.
    cbn [orb] in H.
    assert (Hpb : pending raw a rowa (S j) (Z.to_nat b)
                  = if negb (lists raw (Z.to_nat b) (Z.of_nat a)) then [Z.of_nat a] else []).
    { rewrite (pending_S raw a rowa j _ b Hb).
      replace (Z.of_nat (Z.to_nat b) =? b) with true by (symmetry; apply Z.eqb_eq; lia).
      cbn [andb]. destruct (negb (lists raw (Z.to_nat b) (Z.of_nat a))) eqn:E;
        [reflexivity |].
      unfold pending. rewrite E. now rewrite andb_false_r. }
    assert (Hpx : forall x, x <> Z.to_nat b ->
                    pending raw a rowa (S j) x = pending raw a rowa j x).
    { intros x Hne. rewrite (pending_S raw a rowa j x b Hb).
      replace (Z.of_nat x =? b) with false by (symmetry; apply Z.eqb_neq; lia).
      reflexivity. }
    destruct (lists raw (Z.to_nat b) (Z.of_nat a)) eqn:Elist; cbn [orb negb] in H, Hpb.
    + injection H as <-. split; [exact Hlen |].
      intros x rx Hrx. rewrite (Hst x rx Hrx).
      destruct (decide (x = Z.to_nat b)) as [-> | Hne]; [| now rewrite Hpx].
      rewrite Hpb. unfold pending. rewrite Elist. now rewrite andb_false_r.
    + destruct (existsb (Z.eqb (Z.of_nat a)) (pending raw a rowa j (Z.to_nat b))) eqn:Ep.
      * injection H as <-. split; [exact Hlen |].
        intros x rx Hrx. rewrite (Hst x rx Hrx).
        destruct (decide (x = Z.to_nat b)) as [-> | Hne]; [| now rewrite Hpx].
        rewrite Hpb. unfold pending in Ep |- *.
        destruct (existsb (Z.eqb (Z.of_nat (Z.to_nat b))) (take j rowa)
                  && negb (lists raw (Z.to_nat b) (Z.of_nat a)));
          [reflexivity | discriminate].
      * assert (Hnil : pending raw a rowa j (Z.to_nat b) = []).
        { unfold pending in Ep |- *.
          destruct (existsb (Z.eqb (Z.of_nat (Z.to_nat b))) (take j rowa)
                    && negb (lists raw (Z.to_nat b) (Z.of_nat a))); [| reflexivity].
          cbn [existsb] in Ep. rewrite Z.eqb_refl in Ep. discriminate. }
        unfold assign in H. destruct (lt_size b nl); [| discriminate].
        injection H as <-. split; [now rewrite length_insert |].
        intros x rx Hrx.
        destruct (decide (x = Z.to_nat b)) as [-> | Hne].
        -- rewrite list_lookup_insert_eq by (rewrite Hlen; exact Hxb).
           rewrite Hrb in Hrx. injection Hrx as <-.
           rewrite Hpb, Hnil, app_nil_r, <- app_assoc. reflexivity.
        -- rewrite list_lookup_insert_ne by congruence.
           rewrite (Hst x rx Hrx). now rewrite Hpx.
  - injection H as <-. split; [exact Hlen |].
    intros x rx Hrx. rewrite (Hst x rx Hrx).
    rewrite (pending_S raw a rowa j x b Hb).
    replace (Z.of_nat x =? b) with false by (symmetry; apply Z.eqb_neq; lia).
    reflexivity.
Qed.

Lemma sym_row_appends (raw : list (list Z)) (a : nat) (ra : list Z) (fuel : nat) :
  raw !! a = Some ra ->
  forall (j : nat) (nl nl' : list (list Z)),
    (j <= length (ra ++ appended raw a a))%nat ->
    row_state raw a (ra ++ appended raw a a) j nl ->
    sym_row fuel nl (Z.of_nat a) (Z.of_nat j) = Done nl' ->
    pass_state raw (S a) nl'.
Proof.
  intros Ha. set (rowa := ra ++ appended raw a a).
  induction fuel as [| fuel IH]; intros j nl nl' Hj Hst H; [discriminate |].
  assert (Hrow : nl !! a = Some rowa).
  { destruct Hst as [_ Hst]. rewrite (Hst a ra Ha). unfold rowa at 1.
    rewrite (pending_self raw a ra j Ha). now rewrite app_nil_r. }
  cbn [sym_row] in H. rewrite (read_nat nl a rowa Hrow) in H. cbn [bind] in H.
  destruct (Z.ltb_spec (Z.of_nat j) (Z.of_nat (length rowa))) as [Hlt | Hge].
  - inv_bind H.
    apply (sym_step_appends raw a ra j nl x Ha ltac:(fold rowa; lia) Hst) in Hx.
    replace (Z.of_nat j + 1) with (Z.of_nat (S j)) in H by lia.
    apply (IH (S j) x nl'); [lia | exact Hx | exact H].
  - injection H as <-. assert (j = length rowa) as -> by lia.
    destruct Hst as [Hlen Hst]. split; [exact Hlen |].
    intros x rx Hrx. rewrite (Hst x rx Hrx). unfold rowa.
    rewrite (pending_full raw a ra x Ha), appended_S. reflexivity.
Qed.

Lemma sym_loop_appends (raw : list (list Z)) (fuel : nat) (n : nat) :
  forall (a : nat) (nl nl' : list (list Z)),
    (a + n <= length raw)%nat ->
    pass_state raw a nl ->
    sym_loop n fuel nl (Z.of_nat a) = Done nl' ->
    pass_state raw (a + n) nl'.
Proof.
  induction n as [| n IH]; intros a nl nl' Hn Hst H.
  - injection H as <-. now rewrite Nat.add_0_r.
  - cbn [sym_loop] in H. inv_bind H.
    destruct (lookup_lt_is_Some_2 raw a ltac:(lia)) as [ra Ha].
    change 0 with (Z.of_nat 0) in Hx.
    assert (Hst0 : row_state raw a (ra ++ appended raw a a) 0 nl).
    { destruct Hst as [Hlen Hst]. split; [exact Hlen |].
      intros y ry Hy. rewrite (Hst y ry Hy). unfold pending.
      cbn [take existsb andb]. now rewrite app_nil_r. }
    apply (sym_row_appends raw a ra fuel Ha 0 nl x ltac:(lia) Hst0) in Hx.
    replace (Z.of_nat a + 1) with (Z.of_nat (S a)) in H by lia.
    replace (a + S n)%nat with (S a + n)%nat by lia.
    apply (IH (S a) x nl'); [lia | exact Hx | exact H].
Qed.

(** The lists the pass returns: for every site, its raw list followed by the
    sites that list it and that it does not list, in increasing order. *)
Lemma symmetrize_appends (raw n_list' : list (list Z)) (fuel : nat) :
  symmetrize fuel (Z.of_nat (length raw)) raw = Done n_list' ->
  length n_list' = length raw /\
  forall (x : nat) (rx : list Z),
    raw !! x = Some rx -> n_list' !! x = Some (rx ++ appended raw x (length raw)).
Proof.
  unfold symmetrize. rewrite Nat2Z.id. change 0 with (Z.of_nat 0). intros H.
  apply (sym_loop_appends raw fuel (length raw) 0 raw n_list'); [lia | | exact H].
  split; [reflexivity |]. intros x rx Hx. rewrite Hx. unfold appended.
  cbn [seq List.filter map]. now rewrite app_nil_r.
Qed.

Example symmetrize_appends_three :
  appended [[1; 2; -1]; []; [0]] 0 3 = [] /\
  appended [[1; 2; -1]; []; [0]] 1 3 = [0] /\
  appended [[1; 2; -1]; []; [0]] 2 3 = [].
Proof. repeat split. Qed.

Lemma neighbours_of_cell (cells : list cell) (c : cell) :
  NoDup (map c_idx cells) -> c ∈ cells -> neighbours_of cells (c_idx c) = c_neighbors c.
Proof.
  unfold neighbours_of. induction cells as [| c0 cells IH]; intros Hnd Hc; [inversion Hc |].
  cbn [map] in Hnd. apply NoDup_cons in Hnd as [Hnotin Hnd]. cbn [List.find].
  destruct (Z.eqb_spec (c_idx c0) (c_idx c)) as [E | E].
  - apply elem_of_cons in Hc as [-> | Hc]; [reflexivity |].
    exfalso. apply Hnotin. rewrite E. apply list_elem_of_fmap. eauto.
  - apply elem_of_cons in Hc as [-> | Hc]; [congruence |]. now apply IH.
Qed.

Lemma neighbours_of_none (cells : list cell) (i : Z) :
  i ∉ map c_idx cells -> neighbours_of cells i = [].
Proof.
  unfold neighbours_of. induction cells as [| c0 cells IH]; intros Hi; [reflexivity |].
  cbn [map] in Hi. rewrite not_elem_of_cons in Hi. destruct Hi as [Hne Hi].
  cbn [List.find]. destruct (Z.eqb_spec (c_idx c0) i) as [E | E]; [congruence |].
  now apply IH.
Qed.

Lemma prepare_n_list (cbrt fl : Q -> Q) (what : string) (inp : inputs)
    (con : container) (w : work) :
  prepare cbrt fl what inp = Done (con, w) ->
  0 <= nsites inp /\ n_list w = replicate (Z.to_nat (nsites inp)) [].
Proof.
  unfold prepare. intros H.
  inv_bind H. inv_bind H. inv_bind H. inv_bind H. inv_bind H.
  injection H as _ <-. cbn [n_list].
  now apply new_vector_Done in Hx0.
Qed.

(** The raw neighbour lists after the loop over the cells. *)
Lemma cells_loop_raw (RAND_MAX : Z) (rand_out : nat -> Z) (fuel : nat)
    (inp : inputs) (cells : list cell) (w w' : work) :
  0 <= nsites inp ->
  n_list w = replicate (Z.to_nat (nsites inp)) [] ->
  NoDup (map c_idx cells) ->
  cells_loop RAND_MAX rand_out fuel inp cells w = Done w' ->
  n_list w' = raw_lists cells (nsites inp).
Proof.
  intros Hn Hw Hnd H.
  destruct (cells_loop_shape _ _ _ _ _ _ _ H) as [Hlen _].
  rewrite Hw, length_replicate in Hlen.
  apply list_eq. intros i. unfold raw_lists.
  destruct (decide (i < Z.to_nat (nsites inp))%nat) as [Hi | Hi].
  - rewrite list_lookup_fmap, lookup_seq_lt by exact Hi. cbn [fmap option_fmap option_map Nat.add].
    destruct (decide (Z.of_nat i ∈ map c_idx cells)) as [Hin | Hout].
    + apply list_elem_of_fmap in Hin as (c & Ec & Hc).
      destruct (cells_loop_all_recorded _ _ _ _ _ Hnd w w' H c Hc) as (_ & Hrow & _).
      rewrite <- Ec, Nat2Z.id in Hrow. rewrite Hrow, Ec.
      now rewrite neighbours_of_cell.
    + destruct (cells_loop_frame _ _ _ _ _ _ _ H) as [_ Hframe].
      destruct (Hframe i Hout) as (E & _). rewrite E, Hw, lookup_replicate_2 by exact Hi.
      now rewrite neighbours_of_none.
  - rewrite !lookup_ge_None_2; [reflexivity | |].
    + rewrite length_map, length_seq. lia.
    + lia.
Qed.

(** ** The data of the cells in the caller's arrays *)

(** X19. A call that returns the null pointer, when the engine yields at
    most one cell for a site: for every cell the engine yields, the id of
    its site is below [nsites], the caller's [volumes] holds its volume and
    [bb_min], [bb_max] the corners of the bounding box of its vertices at
    the entries of the site.  The row of the site in the neighbour matrix
    is the neighbours of the cell, then, in increasing order, the sites
    whose cell lists this site while this cell does not list them, then
    -10 up to the width of the matrix.  When vertices are asked for, its
    row in the vertex matrix is the coordinates of its vertices, then
    not-a-number. *)
Theorem wrap_returns_cells (RAND_MAX : Z) (rand_out : nat -> Z) (cbrt fl : Q -> Q)
    (engine : container -> outcome (list cell)) (what : string)
    (fuel : nat) (inp : inputs) (o : outputs)
    (con : container) (w0 : work) (cells : list cell) :
  let r := hyperion_voropp_wrap RAND_MAX rand_out cbrt fl engine what fuel inp o in
  fst r = Done RNull ->
  prepare cbrt fl what inp = Done (con, w0) ->
  engine con = Done cells ->
  NoDup (map c_idx cells) ->
  forall c, c ∈ cells ->
    let i := Z.to_nat (c_idx c) in
    let row := c_neighbors c
               ++ appended (raw_lists cells (nsites inp)) i (Z.to_nat (nsites inp)) in
    0 <= c_idx c < nsites inp /\
    cell_at (volumes (snd r)) i = Some (Fin (c_volume c)) /\
    (exists lo hi,
       bounding_box (c_vertices c) = Done (lo, hi) /\
       forall j, (j < 3)%nat ->
         cell_at (bb_min (snd r)) (i * 3 + j) = Some (Fin (axis lo j)) /\
         cell_at (bb_max (snd r)) (i * 3 + j) = Some (Fin (axis hi j))) /\
    row_of (max_nn (snd r)) (c_idx c) (neighbours (snd r))
    = map Int row ++ replicate (Z.to_nat (max_nn (snd r)) - length row) (Int (-10)) /\
    (with_vertices inp = true ->
     row_of (max_nv (snd r)) (c_idx c) (vertices (snd r))
     = map Fin (c_vertices c)
       ++ replicate (Z.to_nat (max_nv (snd r)) - length (c_vertices c)) NaN).
Proof.
  intros r Hr Hprep Heng Hnd c Hc i row.
  pose proof (wrap_cases RAND_MAX rand_out cbrt fl engine what fuel inp o) as Hcase.
  cbv zeta in Hcase. fold r in Hcase.
  destruct (compute RAND_MAX rand_out cbrt fl engine what fuel inp) as [w | e | |] eqn:E;
    try (rewrite Hcase in Hr; discriminate).
  destruct (Z.ltb_spec (nsites inp) 1) as [H0 | H1];
    [rewrite Hcase in Hr; discriminate |].
  destruct Hcase as (neighs & verts & Hp & Hpv & Er). rewrite Er.
  cbn [snd max_nn max_nv neighbours vertices volumes bb_min bb_max].
  destruct (compute_shape _ _ _ _ _ _ _ _ _ E) as (Hn & Hl & Hv & _).
  unfold compute in E. rewrite Hprep in E. cbn [bind fst snd] in E.
  rewrite Heng in E. cbn [bind] in E. inv_bind E. inv_bind E. injection E as <-.
  cbn [n_list vertices_list vols bb_m bb_M] in *.
  destruct (cells_loop_all_recorded _ _ _ _ _ Hnd w0 x Hx c Hc)
    as (Hidx & Hrow & Hvol & Hvert & Hbox).
  fold i in Hrow, Hvol, Hvert, Hbox.
  destruct (prepare_n_list _ _ _ _ _ _ Hprep) as [_ Hw0].
  pose proof (cells_loop_raw _ _ _ _ _ _ _ Hn Hw0 Hnd Hx) as Hraw.
  assert (Hlraw : length (raw_lists cells (nsites inp)) = Z.to_nat (nsites inp)).
  { unfold raw_lists. now rewrite length_map, length_seq. }
  rewrite Hraw in Hx0, Hrow.
  rewrite <- (Z2Nat.id (nsites inp)) in Hx0 at 1 by exact Hn.
  rewrite <- Hlraw in Hx0.
  destruct (symmetrize_appends _ _ _ Hx0) as [_ Hfinal].
  specialize (Hfinal i _ Hrow). rewrite Hlraw in Hfinal. fold row in Hfinal.
  assert (Hi : (i < Z.to_nat (nsites inp))%nat).
  { apply lookup_lt_Some in Hrow. lia. }
  split; [lia |]. split; [exact Hvol |]. split; [exact Hbox |]. split.
  - destruct (pack_neighbours_rows (nsites inp) x0 Hn Hl) as (ncells & Hp' & _ & Hrows).
    cbv zeta in Hp', Hrows. rewrite Hp in Hp'. injection Hp' as ->.
    rewrite Nat2Z.id. replace (c_idx c) with (Z.of_nat i) by (unfold i; lia).
    now apply Hrows.
  - intros Hwv. rewrite Hwv. specialize (Hv Hwv). specialize (Hpv Hwv).
    destruct (pack_vertices_rows (nsites inp) (vertices_list x) Hn Hv)
      as (vcells & Hpv' & _ & Hvrows).
    cbv zeta in Hpv', Hvrows. rewrite Hpv in Hpv'. injection Hpv' as ->.
    rewrite Nat2Z.id. replace (c_idx c) with (Z.of_nat i) by (unfold i; lia).
    apply Hvrows. now apply Hvert.
Qed.

(** The witness: site 2 of three sites; the sites 0 and 1 list it and it
    lists both, so nothing is appended to its three neighbours. *)
Lemma wrap_returns_cells_witness :
  let r := hyperion_voropp_wrap RAND_MAX_glibc rand_lcg cbrt_fix fl53 three_engine
                                length_error_gnu 10 three_inputs outputs0 in
  let c := cube_cell 2 [0; 1; -1] in
  let i := Z.to_nat (c_idx c) in
  let row := c_neighbors c
             ++ appended (raw_lists three_cells (nsites three_inputs)) i
                         (Z.to_nat (nsites three_inputs)) in
  0 <= c_idx c < nsites three_inputs /\
  cell_at (volumes (snd r)) i = Some (Fin (c_volume c)) /\
  (exists lo hi,
     bounding_box (c_vertices c) = Done (lo, hi) /\
     forall j, (j < 3)%nat ->
       cell_at (bb_min (snd r)) (i * 3 + j) = Some (Fin (axis lo j)) /\
       cell_at (bb_max (snd r)) (i * 3 + j) = Some (Fin (axis hi j))) /\
  row_of (max_nn (snd r)) (c_idx c) (neighbours (snd r))
  = map Int row ++ replicate (Z.to_nat (max_nn (snd r)) - length row) (Int (-10)) /\
  (with_vertices three_inputs = true ->
   row_of (max_nv (snd r)) (c_idx c) (vertices (snd r))
   = map Fin (c_vertices c)
     ++ replicate (Z.to_nat (max_nv (snd r)) - length (c_vertices c)) NaN).
Proof.
  intros r c.
  eapply (wrap_returns_cells RAND_MAX_glibc rand_lcg cbrt_fix fl53 three_engine
            length_error_gnu 10 three_inputs outputs0 _ _ three_cells).
  - vm_compute. reflexivity.
  - vm_compute. reflexivity.
  - reflexivity.
  - apply (bool_decide_unpack _). vm_compute. exact I.
  - unfold c, three_cells. apply elem_of_cons. right. apply elem_of_cons. right.
    apply elem_of_cons. left. reflexivity.
Defined.
